(** * Source maps of the CSS front end: line tables, the source-map builder,
      the translation map, and the parser's comment, string and
      custom-property rules.

    Text is a sequence of UTF-16 code units, as JavaScript strings are:
    [list Z].  Offsets are integral JavaScript numbers: [Z]. *)

From Stdlib Require Import ZArith Lia List.
From stdpp Require Import base list gmap strings.

Local Open Scope Z_scope.

(** ** JavaScript numbers and values that the code manipulates *)

(** The numbers that reach the source map are integers or [NaN] (the
    latter when arithmetic meets [undefined]).  JavaScript numbers hold
    every integer below 2^53 in absolute value, and the sums and
    differences of the code are exact there; the offsets of a text lie
    far below. *)
Inductive num : Type :=
| Num (z : Z)
| NaN.

#[global] Instance num_eq_dec : EqDecision num.
Proof. solve_decision. Defined.

(** [undefined] coerced by an arithmetic operator. *)
Definition to_number (v : option Z) : num :=
  match v with
  | Some z => Num z
  | None => NaN
  end.

Definition num_sub (a b : num) : num :=
  match a, b with
  | Num x, Num y => Num (x - y)
  | _, _ => NaN
  end.

Definition num_add (a b : num) : num :=
  match a, b with
  | Num x, Num y => Num (x + y)
  | _, _ => NaN
  end.

(** [a === b] on numbers: [NaN] is different from everything. *)
Definition strict_eq (a b : num) : bool :=
  match a, b with
  | Num x, Num y => x =? y
  | _, _ => false
  end.

(** [x <= offset] where [x] may be [undefined]: the comparison with
    [undefined] is [false]. *)
Definition le_number (x : option Z) (offset : Z) : bool :=
  match x with
  | Some v => v <=? offset
  | None => false
  end.

(** [x | 0]: ToInt32 of an integer. *)
Definition to_int32 (z : Z) : Z :=
  let m := z mod 2 ^ 32 in
  if m <? 2 ^ 31 then m else m - 2 ^ 32.

(** [table[i]] for an integral index: [undefined] out of range. *)
Definition read (table : list Z) (i : Z) : option Z :=
  if i <? 0 then None else table !! Z.to_nat i.

(** Code units of a literal, for examples. *)
Definition units (s : string) : list Z :=
  map (fun a => Z.of_N (Ascii.N_of_ascii a)) (String.list_ascii_of_string s).

Definition LINE_BREAK : Z := 10.
Definition CARRIAGE_RETURN : Z := 13.

(** Lines joined by a line break, for examples. *)
Fixpoint join_lines (ls : list string) : list Z :=
  match ls with
  | [] => []
  | [l] => units l
  | l :: rest => units l ++ LINE_BREAK :: join_lines rest
  end.

(** ** Line tables (source-maps/line-table.ts) *)

(** A position in source code, both fields one-based. *)
Record Position : Type := mkPosition {
  line : Z;
  column : num
}.

#[global] Instance Position_eq_dec : EqDecision Position.
Proof. solve_decision. Defined.

(** A table that turns an offset into a line number and column. *)
Record LineTable : Type := mkLineTable {
  find : Z -> Position
}.

(** The loop that fills the table: at index [i] of the text, the rest of
    the text is [source]; a line break at [i] pushes [i + 1]. *)
Fixpoint line_starts (i : Z) (source : list Z) : list Z :=
  match source with
  | [] => []
  | c :: rest =>
      if c =? LINE_BREAK
      then (i + 1) :: line_starts (i + 1) rest
      else line_starts (i + 1) rest
  end.

Definition build_table (source : list Z) : list Z :=
  0 :: line_starts 0 source.

(** The [while (count > 0)] loop of [find].  [fuel] bounds the number of
    iterations ([None]: the bound was reached); the last component lists
    the indices at which [table] was read, oldest first. *)
Fixpoint search (fuel : nat) (table : list Z) (offset : Z)
    (line count : Z) (reads : list Z) : option (Z * list Z) :=
  if 0 <? count then
    match fuel with
    | O => None
    | S fuel' =>
        let mid := to_int32 (Z.quot count 2) in
        let i := line + mid in
        if le_number (read table i) offset
        then search fuel' table offset (i + 1) (count - mid - 1) (reads ++ [i])
        else search fuel' table offset line mid (reads ++ [i])
    end
  else Some (line, reads).

(** [find] with the indices it reads; the loop is given one iteration
    per table entry.  The column is the exact difference [offset - start
    + 1], which is the number the code computes for offsets below
    2^53. *)
Definition find_traced (table : list Z) (offset : Z)
    : option (Position * list Z) :=
  match search (length table) table offset 0 (Z.of_nat (length table)) [] with
  | None => None
  | Some (line, reads) =>
      let line := line - 1 in
      let column := num_sub (Num offset) (to_number (read table line)) in
      Some ({| line := line + 1; column := num_add column (Num 1) |},
            reads ++ [line])
  end.

(** The result of [find]; the second case stands for a loop that does
    not end, which [find_traced_total] excludes. *)
Definition find_in (table : list Z) (offset : Z) : Position :=
  match find_traced table offset with
  | Some (p, _) => p
  | None => {| line := 0; column := NaN |}
  end.

Definition createLineTable (source : list Z) : LineTable :=
  let table := build_table source in
  {| find := find_in table |}.

(** The older copy of the same function (source-maps.ts). *)
Definition computeLineTable (text : list Z) : LineTable :=
  let table := build_table text in
  {| find := find_in table |}.

(** A JavaScript array holds fewer than 2^32 entries; the table of a
    text has at most one entry more than the text has code units. *)
Definition text_fits (source : list Z) : Prop :=
  Z.of_nat (length source) + 1 < 2 ^ 32.

(** Number of line breaks in a text. *)
Definition count_breaks (source : list Z) : nat :=
  length (filter (fun c => c = LINE_BREAK) source).

(** Zero-based column reached after the text [t], entered at column
    [col]: a line break resets it, any other code unit advances it. *)
Fixpoint column_after (col : Z) (t : list Z) : Z :=
  match t with
  | [] => col
  | c :: rest =>
      if c =? LINE_BREAK then column_after 0 rest
      else column_after (col + 1) rest
  end.

(** The position of offset [k] as the description words it: one more
    than the number of line breaks before it, and one more than the
    number of code units since the last of them. *)
Definition position_at (source : list Z) (k : nat) : Position :=
  {| line := Z.of_nat (S (count_breaks (take k source)));
     column := Num (column_after 0 (take k source) + 1) |}.

(** Every line break becomes carriage return, line break. *)
Fixpoint to_crlf (source : list Z) : list Z :=
  match source with
  | [] => []
  | c :: rest =>
      if c =? LINE_BREAK
      then CARRIAGE_RETURN :: LINE_BREAK :: to_crlf rest
      else c :: to_crlf rest
  end.

(** The offset in [to_crlf source] of the code unit at [offset] of
    [source]. *)
Definition crlf_offset (source : list Z) (offset : nat) : Z :=
  Z.of_nat (length (to_crlf (take offset source))).

(** ** The syntax tree *)

(** The ranges of one named field: [src] in the original text, [dst] in
    the generated text once the field was printed. *)
Record Offsets : Type := mkOffsets {
  src : Z * Z;
  dst : option (Z * Z)
}.

(** Modelled from the spec: the node variants of ast.ts, which is not
    among the sources, as the data model describes them; [offsets] is
    the object from field names to ranges that the source-map code
    reads ([node.offsets.property], [Object.entries(node.offsets)]). *)
#[warnings="-register-all"]
Inductive AstNode : Type :=
| Comment (value : list Z) (offsets : gmap string Offsets)
| Declaration (property value : list Z) (important : bool)
    (offsets : gmap string Offsets)
| Rule (selector : list Z) (nodes : list AstNode)
    (offsets : gmap string Offsets)
| AtRule (name params : list Z) (nodes : option (list AstNode))
    (offsets : gmap string Offsets)
| AtRoot (nodes : list AstNode) (offsets : gmap string Offsets).

Definition node_offsets (node : AstNode) : gmap string Offsets :=
  match node with
  | Comment _ o | Declaration _ _ _ o | Rule _ _ o
  | AtRule _ _ _ o | AtRoot _ o => o
  end.

(** Modelled from the spec: [walk] of ast.ts, a pre-order depth-first
    traversal; the visitors of the source-map code return nothing, which
    continues into the children.  [visit] yields what the visitor
    pushes. *)
Fixpoint walk_node {A : Type} (visit : AstNode -> list A) (node : AstNode)
    : list A :=
  let walk_all :=
    fix walk_all (nodes : list AstNode) : list A :=
      match nodes with
      | [] => []
      | n :: rest => walk_node visit n ++ walk_all rest
      end in
  visit node ++
  match node with
  | Rule _ nodes _ | AtRoot nodes _ | AtRule _ _ (Some nodes) _ =>
      walk_all nodes
  | _ => []
  end.

Definition walk {A : Type} (ast : list AstNode) (visit : AstNode -> list A)
    : list A :=
  flat_map (walk_node visit) ast.

(** ** The source map (source-maps/source-map.ts) *)

Record DecodedSource : Type := mkDecodedSource {
  url : option string;
  content : option string;
  ignore : bool
}.

Record DecodedMapping : Type := mkDecodedMapping {
  generatedLine : Z;
  generatedColumn : num;
  originalLine : Z;
  originalColumn : num;
  originalSource : option DecodedSource;
  name : option string
}.

Record DecodedSourceMap : Type := mkDecodedSourceMap {
  file : option string;
  sources : list DecodedSource;
  mappings : list DecodedMapping
}.

(** The visitor: the offset groups of a node, by kind. *)
Definition node_groups (node : AstNode) : list (option Offsets) :=
  match node with
  | Declaration _ _ _ o => [o !! "property"; o !! "value"]
  | Rule _ _ o => [o !! "selector"; o !! "body"]
  | AtRule _ _ _ o => [o !! "name"; o !! "params"; o !! "body"]
  | Comment _ o => [o !! "value"]
  | AtRoot _ o => [o !! "body"]
  end.

Definition mapping_of (original generated : Position) : DecodedMapping :=
  {| name := None;
     originalSource := None;
     originalLine := line original;
     originalColumn := column original;
     generatedLine := line generated;
     generatedColumn := column generated |}.

(** The body of [for (let group of groups)]: what one group pushes. *)
Definition group_mappings (originalTable generatedTable : LineTable)
    (group : option Offsets) : list DecodedMapping :=
  match group with
  | None => []
  | Some group =>
      match dst group with
      | None => []
      | Some d =>
          let originalStart := find originalTable (fst (src group)) in
          let generatedStart := find generatedTable (fst d) in
          let originalEnd := find originalTable (snd (src group)) in
          let generatedEnd := find generatedTable (snd d) in
          [mapping_of originalStart generatedStart;
           mapping_of originalEnd generatedEnd]
      end
  end.

(** The comparator handed to [sort]. *)
Definition by_generated (a b : DecodedMapping) : num :=
  if generatedLine a =? generatedLine b
  then num_sub (generatedColumn a) (generatedColumn b)
  else Num (generatedLine a - generatedLine b).

(** [Array.prototype.sort] with a comparator: the sort is stable and a
    [NaN] result counts as 0.  Insertion of each element after every
    element that is not greater gives that order. *)
Definition compare_result (v : num) : Z :=
  match v with
  | Num z => z
  | NaN => 0
  end.

Fixpoint insert_sorted {A : Type} (cmp : A -> A -> num) (x : A) (l : list A)
    : list A :=
  match l with
  | [] => [x]
  | y :: rest =>
      if compare_result (cmp x y) <? 0
      then x :: y :: rest
      else y :: insert_sorted cmp x rest
  end.

Definition array_sort {A : Type} (cmp : A -> A -> num) (l : list A) : list A :=
  fold_left (fun sorted x => insert_sorted cmp x sorted) l [].

(** The callback of [filter], which reads and writes [last]; it returns
    [false] ([Some false]) or nothing ([None], that is [undefined]). *)
Definition remove_duplicate (last : option DecodedMapping)
    (mapping : DecodedMapping) : option bool * option DecodedMapping :=
  match last with
  | Some l =>
      if (generatedLine l =? generatedLine mapping)
         && strict_eq (generatedColumn l) (generatedColumn mapping)
      then (Some false, last)
      else (None, Some mapping)
  | None => (None, Some mapping)
  end.

(** ToBoolean of what a callback returned. *)
Definition to_boolean (v : option bool) : bool :=
  match v with
  | Some b => b
  | None => false
  end.

(** [Array.prototype.filter] with that callback, [last] threaded
    through the calls. *)
Fixpoint filter_mappings (last : option DecodedMapping)
    (l : list DecodedMapping) : list DecodedMapping :=
  match l with
  | [] => []
  | mapping :: rest =>
      let '(keep, last') := remove_duplicate last mapping in
      if to_boolean keep
      then mapping :: filter_mappings last' rest
      else filter_mappings last' rest
  end.

(** The records pushed by the loop over the groups, in order. *)
Definition pushed_mappings (original generated : list Z)
    (ast : list AstNode) : list DecodedMapping :=
  let originalTable := createLineTable original in
  let generatedTable := createLineTable generated in
  let groups := walk ast node_groups in
  flat_map (group_mappings originalTable generatedTable) groups.

Definition createSourceMap (original generated : list Z)
    (ast : list AstNode) : DecodedSourceMap :=
  let pushed := pushed_mappings original generated ast in
  let sorted := array_sort by_generated pushed in
  {| file := None;
     sources := [{| url := None; content := None; ignore := false |}];
     mappings := filter_mappings None sorted |}.

(** ** The older source map (source-maps.ts) *)

Module Legacy.

Record Mapping : Type := mkMapping {
  original : Position;
  generated : Position
}.

(** [groups.add] on [Set<Offsets | undefined>]: [undefined] is kept
    once.  A [Set] holds an object once, by identity; in a tree, where
    no node shares its [Offsets] objects with another, every group met
    is a new element, and so it is here.  (For a tree that reaches one
    object twice the [Set] would hold it once.) *)
Definition set_add (groups : list (option Offsets))
    (group : option Offsets) : list (option Offsets) :=
  match group with
  | None =>
      if existsb (fun g => if g is None then true else false) groups
      then groups
      else groups ++ [None]
  | Some _ => groups ++ [group]
  end.

Definition group_mappings (originalMap generatedMap : LineTable)
    (group : option Offsets) : list Mapping :=
  match group with
  | None => []
  | Some group =>
      match dst group with
      | None => []
      | Some d =>
          let originalStart := find originalMap (fst (src group)) in
          let originalEnd := find originalMap (snd (src group)) in
          let generatedStart := find generatedMap (fst d) in
          let generatedEnd := find generatedMap (snd d) in
          [{| original := originalStart; generated := originalEnd |};
           {| original := generatedStart; generated := generatedEnd |}]
      end
  end.

Definition createSourceMap (original generated : list Z)
    (ast : list AstNode) : list Mapping :=
  let originalMap := computeLineTable original in
  let generatedMap := computeLineTable generated in
  let groups := fold_left set_add (walk ast node_groups) [] in
  flat_map (group_mappings originalMap generatedMap) groups.

End Legacy.

(** ** The translation map (source-maps/translation-map.ts) *)

Definition Translation : Type :=
  Position * Position * option Position * option Position.

Definition createTranslationMap (original generated : list Z)
    : AstNode -> gmap string Translation :=
  let originalTable := createLineTable original in
  let generatedTable := createLineTable generated in
  fun node =>
    fold_left
      (fun (translations : gmap string Translation)
           (entry : string * Offsets) =>
         let '(name, offsets) := entry in
         <[name :=
             (find originalTable (fst (src offsets)),
              find originalTable (snd (src offsets)),
              match dst offsets with
              | Some d => Some (find generatedTable (fst d))
              | None => None
              end,
              match dst offsets with
              | Some d => Some (find generatedTable (snd d))
              | None => None
              end)]> translations)
      (map_to_list (node_offsets node)) ∅.

(** [k] splits [table] at [offset]: the entries before index [k] are at
    most [offset], the others are greater. *)
Definition splits_at (table : list Z) (offset : Z) (k : nat) : Prop :=
  (forall (j : nat) v, table !! j = Some v -> (j < k)%nat -> v <= offset) /\
  (forall (j : nat) v, table !! j = Some v -> (k <= j)%nat -> offset < v).

(** One step of the loop over [Object.entries]: the entry's value,
    transformed by [f], is stored under the entry's name. *)
Definition record_entry {V W : Type} (f : V -> W) (acc : gmap string W)
    (entry : string * V) : gmap string W :=
  let '(name, v) := entry in <[name := f v]> acc.

(** ** Sample inputs *)

(** A license comment alone, printed as it was read: the ranges are
    those of its test in translation-map.test.ts. *)
Definition license_text : list Z := units "/*! foo */".
Definition license_output : list Z := units "/*! foo */" ++ [LINE_BREAK].
Definition license_ast : list AstNode :=
  [Comment (units "! foo ")
     {[ "value" := {| src := (0, 10); dst := Some (0, 10) |} ]}].

(** The same comment read from the second line of its text. *)
Definition moved_text : list Z := LINE_BREAK :: units "/*! x */".
Definition moved_output : list Z := units "/*! x */" ++ [LINE_BREAK].
Definition moved_ast : list AstNode :=
  [Comment (units "! x ")
     {[ "value" := {| src := (1, 9); dst := Some (0, 8) |} ]}].

(** The buffer of the line-table example: three lines [a], [bb], [ccc]. *)
Definition abc_text : list Z := join_lines ["a"; "bb"; "ccc"].

(** ** The parser (css-parser.ts is not among the sources) *)

Module Css.

Definition BACKSLASH : Z := 92.
Definition SLASH : Z := 47.
Definition ASTERISK : Z := 42.
Definition DOUBLE_QUOTE : Z := 34.
Definition SINGLE_QUOTE : Z := 39.
Definition COLON : Z := 58.
Definition SEMICOLON : Z := 59.
Definition SPACE : Z := 32.
Definition TAB : Z := 9.
Definition OPEN_CURLY : Z := 123.
Definition CLOSE_CURLY : Z := 125.
Definition OPEN_PAREN : Z := 40.
Definition DASH : Z := 45.
Definition AT_SIGN : Z := 64.
Definition EXCLAMATION_MARK : Z := 33.

(** Modelled from the spec: the nodes the parser builds, the variants of
    the data model with their text; the offsets that the parser records
    next to the text are left out of this model (the parser statements
    below are about kinds and text).  The synthetic at-root container is
    never built by the parser. *)
#[warnings="-register-all"]
Inductive node : Type :=
| Comment (value : list Z)
| Declaration (property value : list Z) (important : bool)
| Rule (selector : list Z) (nodes : list node)
| AtRule (name params : list Z) (nodes : option (list node)).

(** Modelled from the spec: the error taxonomy; the unclosed block
    carries the prelude of the block that is still open, the string the
    quote and the text scanned after it. *)
Inductive ParseError : Type :=
| UnbalancedOpeningBrace
| UnbalancedClosingBrace (prelude : list Z)
| UnterminatedString (quoteChar : Z) (content : list Z).

(** The messages, worded as the tests of the parser expect them
    (css-parser.test.ts, errors). *)
Definition message (e : ParseError) : list Z :=
  match e with
  | UnbalancedOpeningBrace => units "Missing opening {"
  | UnbalancedClosingBrace prelude => units "Missing closing } at " ++ prelude
  | UnterminatedString quoteChar content =>
      units "Unterminated string: " ++ quoteChar :: content ++ [quoteChar]
  end.

Inductive outcome (A : Type) : Type :=
| Parsed (a : A)
| Failed (e : ParseError).
Arguments Parsed {A} a.
Arguments Failed {A} e.

(** *** Text helpers *)

Definition is_space (c : Z) : bool :=
  (c =? SPACE) || (c =? LINE_BREAK) || (c =? TAB).

Definition is_quote (c : Z) : bool :=
  (c =? SINGLE_QUOTE) || (c =? DOUBLE_QUOTE).

Definition next_is (c : Z) (next : option Z) : bool :=
  match next with
  | Some n => n =? c
  | None => false
  end.

Definition starts_with (c : Z) (t : list Z) : bool := next_is c (head t).

Definition is_empty (t : list Z) : bool :=
  match t with
  | [] => true
  | _ => false
  end.

Fixpoint trim_start (t : list Z) : list Z :=
  match t with
  | [] => []
  | c :: rest => if is_space c then trim_start rest else t
  end.

Definition trim_end (t : list Z) : list Z := rev (trim_start (rev t)).

Definition trim (t : list Z) : list Z := trim_end (trim_start t).

(** The text before and after the first colon. *)
Fixpoint split_colon (t : list Z) : option (list Z * list Z) :=
  match t with
  | [] => None
  | c :: rest =>
      if c =? COLON then Some ([], rest)
      else match split_colon rest with
           | Some (before, after) => Some (c :: before, after)
           | None => None
           end
  end.

(** [t] without the ending [suffix], when it ends with it. *)
Definition strip_suffix (suffix t : list Z) : option (list Z) :=
  let n := (length t - length suffix)%nat in
  if decide (drop n t = suffix) then Some (take n t) else None.

(** [property: value [!important]]. *)
Definition parseDeclaration (buffer : list Z) : node :=
  match split_colon buffer with
  | Some (property, value) =>
      let value := trim value in
      match strip_suffix (units "!important") value with
      | Some value => Declaration (trim property) (trim value) true
      | None => Declaration (trim property) value false
      end
  | None => Declaration (trim buffer) [] false
  end.

(** The name of an at-rule ends before the first space or parenthesis. *)
Fixpoint split_name (t : list Z) : list Z * list Z :=
  match t with
  | [] => ([], [])
  | c :: rest =>
      if (c =? SPACE) || (c =? OPEN_PAREN) then ([], t)
      else let '(name, params) := split_name rest in (c :: name, params)
  end.

Definition parseAtRule (prelude : list Z) (nodes : option (list node)) : node :=
  let '(name, params) := split_name prelude in
  AtRule name (trim params) nodes.

(** The node of a block, from its prelude and its content. *)
Definition block_node (prelude : list Z) (nodes : list node) : node :=
  if starts_with AT_SIGN prelude
  then parseAtRule prelude (Some nodes)
  else Rule prelude nodes.

(** The node of a statement that has no block. *)
Definition statement_node (buffer : list Z) : node :=
  if starts_with AT_SIGN buffer
  then parseAtRule buffer None
  else parseDeclaration buffer.

(** *** The tree under construction *)

(** An open block: its prelude and the nodes read in it so far. *)
Record frame : Type := mkFrame {
  prelude : list Z;
  children : list node
}.

(** The stack of open blocks, innermost first, the finished top-level
    nodes, and the license comments met so far, all in document order. *)
Record tree : Type := mkTree {
  parents : list frame;
  ast : list node;
  licenseComments : list node
}.

Definition add_node (n : node) (t : tree) : tree :=
  match parents t with
  | f :: outer =>
      mkTree (mkFrame (prelude f) (children f ++ [n]) :: outer)
        (ast t) (licenseComments t)
  | [] => mkTree [] (ast t ++ [n]) (licenseComments t)
  end.

Definition add_license (value : list Z) (t : tree) : tree :=
  mkTree (parents t) (ast t) (licenseComments t ++ [Comment value]).

Definition open_block (buffer : list Z) (t : tree) : tree :=
  mkTree (mkFrame buffer [] :: parents t) (ast t) (licenseComments t).

Definition close_block (t : tree) : option tree :=
  match parents t with
  | f :: outer =>
      Some (add_node (block_node (prelude f) (children f))
              (mkTree outer (ast t) (licenseComments t)))
  | [] => None
  end.

(** A statement ends: its text, if any, becomes a node. *)
Definition end_statement (buffer : list Z) (t : tree) : tree :=
  if is_empty buffer then t else add_node (statement_node buffer) t.

(** *** The scan *)

(** Modelled from the spec: the state enum of the scan loop.  A comment
    or a string remembers where it was opened: [None] in a statement,
    [Some depth] in the raw value of a custom property. *)
Inductive mode : Type :=
| Default
| InComment (resume : option nat) (interior : list Z)
| InString (resume : option nat) (quoteChar : Z) (content : list Z)
| InCustomPropertyValue (braceDepth : nat).

(** What the previous code unit leaves for this one: nothing, an escape,
    or the second unit of a two-unit token. *)
Inductive carry : Type :=
| NoCarry
| AfterBackslash
| SecondOfPair.

Record pstate : Type := mkState {
  current : mode;
  carried : carry;
  buffer : list Z;
  space : bool;
  built : tree
}.

Definition initial : pstate :=
  mkState Default NoCarry [] false (mkTree [] [] []).

Definition resume_mode (resume : option nat) : mode :=
  match resume with
  | None => Default
  | Some depth => InCustomPropertyValue depth
  end.

(** Text appended to the buffer, after one space if white space is
    pending. *)
Definition push (buffer : list Z) (space : bool) (text : list Z) : list Z :=
  buffer ++ (if space then [SPACE] else []) ++ text.

(** The end of a comment; [closer] is the closing sequence, empty when
    the input ended first. *)
Definition end_comment (resume : option nat) (interior closer : list Z)
    (next : carry) (buffer : list Z) (space : bool) (t : tree) : pstate :=
  match resume with
  | None =>
      mkState Default next buffer space
        (if starts_with EXCLAMATION_MARK interior
         then add_license interior t else t)
  | Some depth =>
      mkState (InCustomPropertyValue depth) next
        (push buffer space ([SLASH; ASTERISK] ++ interior ++ closer)) false t
  end.

(** A closing brace in a statement: the pending statement ends, then
    the innermost block. *)
Definition close_curly (buffer : list Z) (t : tree) : outcome pstate :=
  match close_block (end_statement buffer t) with
  | Some t' => Parsed (mkState Default NoCarry [] false t')
  | None => Failed UnbalancedOpeningBrace
  end.

(** The statement read so far begins with two dashes: it is the name of
    a custom property. *)
Definition custom_property (buffer : list Z) : bool :=
  match buffer with
  | a :: b :: _ => (a =? DASH) && (b =? DASH)
  | _ => false
  end.

(** A code unit in a statement.  The colon after the name of a custom
    property starts its raw value; up to there the name is read as any
    statement is, comments and white space included. *)
Definition step_default (c : Z) (next : option Z) (buffer : list Z)
    (space : bool) (t : tree) : outcome pstate :=
  if c =? BACKSLASH then
    Parsed (mkState Default AfterBackslash (push buffer space [c]) false t)
  else if (c =? SLASH) && next_is ASTERISK next then
    Parsed (mkState (InComment None []) SecondOfPair buffer space t)
  else if is_quote c then
    Parsed (mkState (InString None c []) NoCarry buffer space t)
  else if is_space c then
    Parsed (mkState Default NoCarry buffer (negb (is_empty buffer)) t)
  else if (c =? COLON) && custom_property buffer then
    Parsed (mkState (InCustomPropertyValue 0) NoCarry (push buffer space [c])
              false t)
  else if c =? SEMICOLON then
    Parsed (mkState Default NoCarry [] false (end_statement buffer t))
  else if c =? OPEN_CURLY then
    Parsed (mkState Default NoCarry [] false (open_block buffer t))
  else if c =? CLOSE_CURLY then
    close_curly buffer t
  else
    Parsed (mkState Default NoCarry (push buffer space [c]) false t).

Definition step_comment (resume : option nat) (interior : list Z)
    (c : Z) (next : option Z) (buffer : list Z) (space : bool) (t : tree)
    : outcome pstate :=
  if c =? BACKSLASH then
    Parsed (mkState (InComment resume (interior ++ [c])) AfterBackslash
              buffer space t)
  else if (c =? ASTERISK) && next_is SLASH next then
    Parsed (end_comment resume interior [ASTERISK; SLASH] SecondOfPair
              buffer space t)
  else
    Parsed (mkState (InComment resume (interior ++ [c])) NoCarry
              buffer space t).

Definition step_string (resume : option nat) (quoteChar : Z)
    (content : list Z) (c : Z) (buffer : list Z) (space : bool) (t : tree)
    : outcome pstate :=
  if c =? BACKSLASH then
    Parsed (mkState (InString resume quoteChar (content ++ [c]))
              AfterBackslash buffer space t)
  else if c =? quoteChar then
    Parsed (mkState (resume_mode resume) NoCarry
              (push buffer space (quoteChar :: content ++ [quoteChar]))
              false t)
  else if c =? LINE_BREAK then
    Failed (UnterminatedString quoteChar content)
  else
    Parsed (mkState (InString resume quoteChar (content ++ [c])) NoCarry
              buffer space t).

Definition step_custom (depth : nat) (c : Z) (next : option Z)
    (buffer : list Z) (space : bool) (t : tree) : outcome pstate :=
  if c =? BACKSLASH then
    Parsed (mkState (InCustomPropertyValue depth) AfterBackslash
              (push buffer space [c]) false t)
  else if (c =? SLASH) && next_is ASTERISK next then
    Parsed (mkState (InComment (Some depth) []) SecondOfPair buffer space t)
  else if is_quote c then
    Parsed (mkState (InString (Some depth) c []) NoCarry buffer space t)
  else if c =? OPEN_CURLY then
    Parsed (mkState (InCustomPropertyValue (S depth)) NoCarry
              (push buffer space [c]) false t)
  else if c =? CLOSE_CURLY then
    match depth with
    | S depth' =>
        Parsed (mkState (InCustomPropertyValue depth') NoCarry
                  (push buffer space [c]) false t)
    | O => close_curly [] (add_node (parseDeclaration buffer) t)
    end
  else if c =? SEMICOLON then
    match depth with
    | S _ =>
        Parsed (mkState (InCustomPropertyValue depth) NoCarry
                  (push buffer space [c]) false t)
    | O =>
        Parsed (mkState Default NoCarry [] false
                  (add_node (parseDeclaration buffer) t))
    end
  else if is_space c then
    match depth with
    | S _ =>
        Parsed (mkState (InCustomPropertyValue depth) NoCarry
                  (push buffer space [c]) false t)
    | O => Parsed (mkState (InCustomPropertyValue depth) NoCarry buffer true t)
    end
  else
    Parsed (mkState (InCustomPropertyValue depth) NoCarry
              (push buffer space [c]) false t).

(** One code unit [c], with the unit after it in sight. *)
Definition step (st : pstate) (c : Z) (next : option Z) : outcome pstate :=
  let '(mkState m carried buffer space t) := st in
  match carried with
  | SecondOfPair => Parsed (mkState m NoCarry buffer space t)
  | AfterBackslash =>
      match m with
      | Default | InCustomPropertyValue _ =>
          Parsed (mkState m NoCarry (buffer ++ [c]) space t)
      | InComment resume interior =>
          Parsed (mkState (InComment resume (interior ++ [c])) NoCarry
                    buffer space t)
      | InString resume quoteChar content =>
          Parsed (mkState (InString resume quoteChar (content ++ [c])) NoCarry
                    buffer space t)
      end
  | NoCarry =>
      match m with
      | Default => step_default c next buffer space t
      | InComment resume interior =>
          step_comment resume interior c next buffer space t
      | InString resume quoteChar content =>
          step_string resume quoteChar content c buffer space t
      | InCustomPropertyValue depth => step_custom depth c next buffer space t
      end
  end.

(** The end of the input in a statement. *)
Definition finish_default (buffer : list Z) (t : tree)
    : outcome (list node) :=
  match parents t with
  | f :: _ => Failed (UnbalancedClosingBrace (prelude f))
  | [] =>
      if is_empty buffer then Parsed (licenseComments t ++ ast t)
      else if starts_with AT_SIGN buffer || bool_decide (COLON ∈ buffer) then
        let t' := add_node (statement_node buffer) t in
        Parsed (licenseComments t' ++ ast t')
      else Failed UnbalancedOpeningBrace
  end.

(** The end of the input. *)
Definition finish (st : pstate) : outcome (list node) :=
  let '(mkState m _ buffer space t) := st in
  match m with
  | InString _ quoteChar content => Failed (UnterminatedString quoteChar content)
  | Default => finish_default buffer t
  | InComment None interior =>
      finish_default buffer
        (built (end_comment None interior [] NoCarry buffer space t))
  | InComment (Some depth) interior =>
      finish_default []
        (add_node
           (parseDeclaration
              (push buffer space ([SLASH; ASTERISK] ++ interior))) t)
  | InCustomPropertyValue _ =>
      finish_default [] (add_node (parseDeclaration buffer) t)
  end.

(** The scan loop. *)
Fixpoint scan (st : pstate) (input : list Z) : outcome (list node) :=
  match input with
  | [] => finish st
  | c :: rest =>
      match step st c (head rest) with
      | Parsed st' => scan st' rest
      | Failed e => Failed e
      end
  end.

(** Carriage return, line break is read as a line break. *)
Fixpoint normalize (input : list Z) : list Z :=
  match input with
  | [] => []
  | c :: rest =>
      if (c =? CARRIAGE_RETURN) && next_is LINE_BREAK (head rest)
      then normalize rest
      else c :: normalize rest
  end.

(** Modelled from the spec: [parse] of css-parser.ts, one left-to-right
    scan with a stack of open blocks, after the description of the
    parser and of its errors; the tests of the parser
    (css-parser.test.ts) fix what the description leaves open: the
    wording of the messages, and the line break as the terminator that
    ends an unterminated string. *)
Definition parse (input : list Z) : outcome (list node) :=
  scan initial (normalize input).

(** *** Texts that the statements about the parser speak of *)

(** The content of a string opened by [quoteChar] that stays open: no
    line break and no quote of that kind, except after a backslash. *)
Inductive string_content (quoteChar : Z) : list Z -> Prop :=
| string_content_nil : string_content quoteChar []
| string_content_unit (c : Z) (t : list Z) :
    c <> BACKSLASH -> c <> quoteChar -> c <> LINE_BREAK ->
    string_content quoteChar t -> string_content quoteChar (c :: t)
| string_content_escape (c : Z) (t : list Z) :
    string_content quoteChar t ->
    string_content quoteChar (BACKSLASH :: c :: t).

(** The interior of a comment: no asterisk directly before a slash,
    except after a backslash. *)
Inductive interior : list Z -> Prop :=
| interior_nil : interior []
| interior_unit (c : Z) (t : list Z) :
    c <> BACKSLASH -> c <> ASTERISK -> interior t -> interior (c :: t)
| interior_asterisk (t : list Z) :
    head t <> Some SLASH -> interior t -> interior (ASTERISK :: t)
| interior_escape (c : Z) (t : list Z) :
    interior t -> interior (BACKSLASH :: c :: t).

(** Code units with no role of their own inside a raw block. *)
Definition raw_unit (c : Z) : Prop :=
  c ∉ [BACKSLASH; SLASH; SINGLE_QUOTE; DOUBLE_QUOTE; OPEN_CURLY; CLOSE_CURLY].

(** The text between the braces of a raw block: any code units, with
    escapes, closed comments, closed strings, and nested blocks; a
    semicolon or a closing brace may stand in a comment or a string. *)
Inductive raw : list Z -> Prop :=
| raw_nil : raw []
| raw_plain (c : Z) (t : list Z) :
    raw_unit c -> raw t -> raw (c :: t)
| raw_slash (c : Z) (t : list Z) :
    c <> ASTERISK -> raw (c :: t) -> raw (SLASH :: c :: t)
| raw_escape (c : Z) (t : list Z) :
    raw t -> raw (BACKSLASH :: c :: t)
| raw_comment (i t : list Z) :
    interior i -> raw t ->
    raw (SLASH :: ASTERISK :: i ++ ASTERISK :: SLASH :: t)
| raw_string (q : Z) (s t : list Z) :
    is_quote q = true -> string_content q s -> raw t ->
    raw (q :: s ++ q :: t)
| raw_block (b t : list Z) :
    raw b -> raw t -> raw (OPEN_CURLY :: b ++ CLOSE_CURLY :: t).

(** Code units of the name of a custom property, after its dashes. *)
Definition name_unit (c : Z) : Prop :=
  c ∉ [BACKSLASH; SLASH; SINGLE_QUOTE; DOUBLE_QUOTE; OPEN_CURLY; CLOSE_CURLY;
       SEMICOLON; COLON; SPACE; LINE_BREAK; TAB; CARRIAGE_RETURN].

Definition space_unit (c : Z) : Prop := is_space c = true.

(** The scan is not inside a string. *)
Definition outside_strings (st : pstate) : Prop :=
  match current st with
  | InString _ _ _ => False
  | _ => True
  end.

(** The scan is between two tokens, in a statement or in the raw value
    of a custom property. *)
Definition at_rest (st : pstate) : Prop :=
  carried st = NoCarry /\
  match current st with
  | Default | InCustomPropertyValue _ => True
  | _ => False
  end.

(** The number of braces open in the raw value being read, if any. *)
Definition brace_depth (st : pstate) : nat :=
  match current st with
  | InCustomPropertyValue depth => depth
  | _ => 0%nat
  end.

(** The state at rest [st] after [text] was appended to its buffer. *)
Definition with_text (st : pstate) (text : list Z) : pstate :=
  mkState (current st) NoCarry (push (buffer st) (space st) text) false
    (built st).

(** The preludes of the open blocks, innermost first. *)
Definition open_preludes (st : pstate) : list (list Z) :=
  map prelude (parents (built st)).

(** [st'] is at rest, with the open blocks and the brace depth of
    [st]. *)
Definition same_level (st st' : pstate) : Prop :=
  at_rest st' /\ open_preludes st' = open_preludes st /\
  brace_depth st' = brace_depth st.

(** *** The pieces of a statement *)

(** What a statement is written with: a code unit with no role of its
    own, a backslash with the code unit it escapes, a closed string, a
    closed comment, a unit of white space. *)
Inductive piece : Type :=
| Unit (c : Z)
| Escaped (c : Z)
| Quoted (quoteChar : Z) (content : list Z)
| Remark (interior : list Z)
| Blank (c : Z).

Definition piece_text (p : piece) : list Z :=
  match p with
  | Unit c => [c]
  | Escaped c => [BACKSLASH; c]
  | Quoted quoteChar content => quoteChar :: content ++ [quoteChar]
  | Remark interior => SLASH :: ASTERISK :: interior ++ [ASTERISK; SLASH]
  | Blank c => [c]
  end.

(** The text that the pieces are written as. *)
Definition text_of (ps : list piece) : list Z := flat_map piece_text ps.

(** The statement that the pieces are read as, after [buffer] and with
    white space pending or not: comments leave nothing, white space
    between two other pieces leaves one space, white space before the
    first of them leaves none. *)
Fixpoint statement_text (buffer : list Z) (space : bool) (ps : list piece)
    : list Z * bool :=
  match ps with
  | [] => (buffer, space)
  | Blank _ :: rest => statement_text buffer (negb (is_empty buffer)) rest
  | Remark _ :: rest => statement_text buffer space rest
  | p :: rest => statement_text (push buffer space (piece_text p)) false rest
  end.

(** The pieces of a text written with white space and other code units
    only, for examples. *)
Definition plain_pieces (t : list Z) : list piece :=
  map (fun c => if is_space c then Blank c else Unit c) t.

(** The selector or prelude that the pieces are read as. *)
Definition prelude_of (ps : list piece) : list Z :=
  fst (statement_text [] false ps).

(** Code units with no role of their own in a statement. *)
Definition plain_unit (c : Z) : Prop :=
  c ∉ [BACKSLASH; SINGLE_QUOTE; DOUBLE_QUOTE; SEMICOLON; OPEN_CURLY;
       CLOSE_CURLY; SPACE; LINE_BREAK; TAB].

(** Pieces that are read as they are written: the strings and the
    comments are closed ones, and no slash stands before an asterisk
    other than in the delimiters of a comment. *)
Inductive phrase : list piece -> Prop :=
| phrase_nil : phrase []
| phrase_unit (c : Z) (ps : list piece) :
    plain_unit c ->
    (c = SLASH -> head (text_of ps) <> Some ASTERISK) ->
    phrase ps -> phrase (Unit c :: ps)
| phrase_escaped (c : Z) (ps : list piece) :
    phrase ps -> phrase (Escaped c :: ps)
| phrase_quoted (q : Z) (s : list Z) (ps : list piece) :
    is_quote q = true -> string_content q s ->
    phrase ps -> phrase (Quoted q s :: ps)
| phrase_remark (i : list Z) (ps : list piece) :
    interior i -> phrase ps -> phrase (Remark i :: ps)
| phrase_blank (c : Z) (ps : list piece) :
    space_unit c -> phrase ps -> phrase (Blank c :: ps).

(** The pieces, read after [buffer], are not a custom property with its
    value: the statement does not begin with two dashes, or no colon
    stands among the pieces. *)
Definition ordinary_after (buffer : list Z) (space : bool)
    (ps : list piece) : Prop :=
  custom_property (fst (statement_text buffer space ps)) = false \/
  Unit COLON ∉ ps.

Definition ordinary (ps : list piece) : Prop := ordinary_after [] false ps.

(** *** Raw values *)

(** Code units with no role of their own at the top of a raw value. *)
Definition value_unit (c : Z) : Prop :=
  c ∉ [BACKSLASH; SLASH; SINGLE_QUOTE; DOUBLE_QUOTE; OPEN_CURLY; CLOSE_CURLY;
       SEMICOLON].

(** The text of the raw value of a custom property, up to the
    semicolon or closing brace that ends it: code units, escapes,
    closed comments, closed strings, and blocks in braces. *)
Inductive value_text : list Z -> Prop :=
| value_nil : value_text []
| value_plain (c : Z) (t : list Z) :
    value_unit c -> value_text t -> value_text (c :: t)
| value_slash (c : Z) (t : list Z) :
    c <> ASTERISK -> value_text (c :: t) -> value_text (SLASH :: c :: t)
| value_last_slash : value_text [SLASH]
| value_escape (c : Z) (t : list Z) :
    value_text t -> value_text (BACKSLASH :: c :: t)
| value_comment (i t : list Z) :
    interior i -> value_text t ->
    value_text (SLASH :: ASTERISK :: i ++ ASTERISK :: SLASH :: t)
| value_string (q : Z) (s t : list Z) :
    is_quote q = true -> string_content q s -> value_text t ->
    value_text (q :: s ++ q :: t)
| value_block (b t : list Z) :
    raw b -> value_text t -> value_text (OPEN_CURLY :: b ++ CLOSE_CURLY :: t).

(** Text that a raw value keeps as it is written: a block in braces, a
    comment, a semicolon after a backslash. *)
Inductive kept : list Z -> Prop :=
| kept_block (b : list Z) :
    raw b -> kept (OPEN_CURLY :: b ++ [CLOSE_CURLY])
| kept_comment (i : list Z) :
    interior i -> kept (SLASH :: ASTERISK :: i ++ [ASTERISK; SLASH])
| kept_semicolon : kept [BACKSLASH; SEMICOLON].

(** *** Statements and open blocks *)

(** The text of a statement, without what ends it: pieces that are not
    a custom property with its value, or a custom property with its
    raw value. *)
Inductive clause : list Z -> Prop :=
| clause_ordinary (ps : list piece) :
    phrase ps -> ordinary ps -> clause (text_of ps)
| clause_custom (ps : list piece) (v : list Z) :
    phrase ps -> Unit COLON ∉ ps -> custom_property (prelude_of ps) = true ->
    value_text v ->
    clause (text_of ps ++ COLON :: v).

(** [opened stack text]: after [text] a statement starts, inside the
    blocks whose preludes are [stack], innermost first, which are open:
    the text is made of statements ended by a semicolon, of preludes
    followed by an opening brace, and of closing braces, each closing
    the innermost open block after the last statement of that block,
    which needs no semicolon. *)
Inductive opened : list (list Z) -> list Z -> Prop :=
| opened_nil : opened [] []
| opened_statement (stack : list (list Z)) (a c : list Z) :
    opened stack a -> clause c -> opened stack (a ++ c ++ [SEMICOLON])
| opened_block (stack : list (list Z)) (a : list Z) (ps : list piece) :
    opened stack a -> phrase ps -> ordinary ps ->
    opened (prelude_of ps :: stack) (a ++ text_of ps ++ [OPEN_CURLY])
| opened_close (p : list Z) (stack : list (list Z)) (a c : list Z) :
    opened (p :: stack) a -> clause c -> opened stack (a ++ c ++ [CLOSE_CURLY]).

(** *** The end of the input inside a block *)

(** The text of a comment that the end of the input leaves open: no
    closing sequence, except after a backslash. *)
Definition open_interior (t : list Z) : Prop :=
  interior t \/ exists i, interior i /\ t = i ++ [BACKSLASH].

(** Code units that are no quote, no brace and no backslash. *)
Definition free_unit (c : Z) : Prop :=
  c ∉ [BACKSLASH; SINGLE_QUOTE; DOUBLE_QUOTE; OPEN_CURLY; CLOSE_CURLY].

(** Text without a brace outside its comments and strings, which are
    closed, except for a comment or a backslash that the end of the text
    leaves open. *)
Inductive brace_free : list Z -> Prop :=
| brace_free_nil : brace_free []
| brace_free_unit (c : Z) (t : list Z) :
    free_unit c -> (c = SLASH -> head t <> Some ASTERISK) ->
    brace_free t -> brace_free (c :: t)
| brace_free_escape (c : Z) (t : list Z) :
    brace_free t -> brace_free (BACKSLASH :: c :: t)
| brace_free_backslash : brace_free [BACKSLASH]
| brace_free_comment (i t : list Z) :
    interior i -> brace_free t ->
    brace_free (SLASH :: ASTERISK :: i ++ ASTERISK :: SLASH :: t)
| brace_free_open_comment (t : list Z) :
    open_interior t -> brace_free (SLASH :: ASTERISK :: t)
| brace_free_string (q : Z) (s t : list Z) :
    is_quote q = true -> string_content q s -> brace_free t ->
    brace_free (q :: s ++ q :: t).

(** Braces that a raw value opens and does not close, with the raw text
    inside them. *)
Inductive raw_inside : list Z -> Prop :=
| raw_inside_one (b : list Z) : raw b -> raw_inside (OPEN_CURLY :: b)
| raw_inside_more (b t : list Z) :
    raw b -> raw_inside t -> raw_inside (OPEN_CURLY :: b ++ t).

(** The text of a statement from its start to a place outside comments
    and strings: a statement, or a custom property up to a place inside
    the open braces of its raw value. *)
Inductive partial : list Z -> Prop :=
| partial_clause (c : list Z) : clause c -> partial c
| partial_raw (ps : list piece) (v t : list Z) :
    phrase ps -> Unit COLON ∉ ps -> custom_property (prelude_of ps) = true ->
    value_text v -> raw_inside t ->
    partial (text_of ps ++ COLON :: v ++ t).

(** The text after which the input ends, from the start of a
    statement: a statement, or a custom property whose raw value leaves
    braces open, and text without braces. *)
Inductive ending : list Z -> Prop :=
| ending_intro (c tail : list Z) :
    partial c -> brace_free tail -> head tail <> Some ASTERISK ->
    ending (c ++ tail).

(** *** The comments of a text *)

(** Reading a text for its comments only: where the reading is, the
    statement read so far, white space pending or not, and the
    interiors of the comments met outside strings and raw values, in the
    order of the text. *)
Record reader : Type := mkReader {
  place : mode;
  pending : carry;
  statement : list Z;
  blank : bool;
  seen : list (list Z)
}.

Definition read_default (c : Z) (next : option Z) (statement : list Z)
    (blank : bool) (seen : list (list Z)) : reader :=
  if c =? BACKSLASH then
    mkReader Default AfterBackslash (push statement blank [c]) false seen
  else if (c =? SLASH) && next_is ASTERISK next then
    mkReader (InComment None []) SecondOfPair statement blank seen
  else if is_quote c then
    mkReader (InString None c []) NoCarry statement blank seen
  else if is_space c then
    mkReader Default NoCarry statement (negb (is_empty statement)) seen
  else if (c =? COLON) && custom_property statement then
    mkReader (InCustomPropertyValue 0) NoCarry (push statement blank [c])
      false seen
  else if (c =? SEMICOLON) || (c =? OPEN_CURLY) || (c =? CLOSE_CURLY) then
    mkReader Default NoCarry [] false seen
  else
    mkReader Default NoCarry (push statement blank [c]) false seen.

Definition read_comment (resume : option nat) (interior : list Z) (c : Z)
    (next : option Z) (statement : list Z) (blank : bool)
    (seen : list (list Z)) : reader :=
  if c =? BACKSLASH then
    mkReader (InComment resume (interior ++ [c])) AfterBackslash statement
      blank seen
  else if (c =? ASTERISK) && next_is SLASH next then
    match resume with
    | None => mkReader Default SecondOfPair statement blank (seen ++ [interior])
    | Some depth =>
        mkReader (InCustomPropertyValue depth) SecondOfPair
          (push statement blank
             ([SLASH; ASTERISK] ++ interior ++ [ASTERISK; SLASH]))
          false seen
    end
  else
    mkReader (InComment resume (interior ++ [c])) NoCarry statement blank seen.

Definition read_string (resume : option nat) (quoteChar : Z)
    (content : list Z) (c : Z) (statement : list Z) (blank : bool)
    (seen : list (list Z)) : reader :=
  if c =? BACKSLASH then
    mkReader (InString resume quoteChar (content ++ [c])) AfterBackslash
      statement blank seen
  else if c =? quoteChar then
    mkReader (resume_mode resume) NoCarry
      (push statement blank (quoteChar :: content ++ [quoteChar])) false seen
  else
    mkReader (InString resume quoteChar (content ++ [c])) NoCarry statement
      blank seen.

Definition read_custom (depth : nat) (c : Z) (next : option Z)
    (statement : list Z) (blank : bool) (seen : list (list Z)) : reader :=
  let copied :=
    mkReader (InCustomPropertyValue depth) NoCarry (push statement blank [c])
      false seen in
  if c =? BACKSLASH then
    mkReader (InCustomPropertyValue depth) AfterBackslash
      (push statement blank [c]) false seen
  else if (c =? SLASH) && next_is ASTERISK next then
    mkReader (InComment (Some depth) []) SecondOfPair statement blank seen
  else if is_quote c then
    mkReader (InString (Some depth) c []) NoCarry statement blank seen
  else if c =? OPEN_CURLY then
    mkReader (InCustomPropertyValue (S depth)) NoCarry
      (push statement blank [c]) false seen
  else if c =? CLOSE_CURLY then
    match depth with
    | S depth' =>
        mkReader (InCustomPropertyValue depth') NoCarry
          (push statement blank [c]) false seen
    | O => mkReader Default NoCarry [] false seen
    end
  else if c =? SEMICOLON then
    match depth with
    | S _ => copied
    | O => mkReader Default NoCarry [] false seen
    end
  else if is_space c then
    match depth with
    | S _ => copied
    | O => mkReader (InCustomPropertyValue depth) NoCarry statement true seen
    end
  else copied.

(** One code unit, with the unit after it in sight. *)
Definition read_unit (r : reader) (c : Z) (next : option Z) : reader :=
  let '(mkReader m pending statement blank seen) := r in
  match pending with
  | SecondOfPair => mkReader m NoCarry statement blank seen
  | AfterBackslash =>
      match m with
      | Default | InCustomPropertyValue _ =>
          mkReader m NoCarry (statement ++ [c]) blank seen
      | InComment resume interior =>
          mkReader (InComment resume (interior ++ [c])) NoCarry statement
            blank seen
      | InString resume quoteChar content =>
          mkReader (InString resume quoteChar (content ++ [c])) NoCarry
            statement blank seen
      end
  | NoCarry =>
      match m with
      | Default => read_default c next statement blank seen
      | InComment resume interior =>
          read_comment resume interior c next statement blank seen
      | InString resume quoteChar content =>
          read_string resume quoteChar content c statement blank seen
      | InCustomPropertyValue depth =>
          read_custom depth c next statement blank seen
      end
  end.

(** The code unit in sight after the first unit of a text that is
    followed by [next]. *)
Definition in_sight (rest : list Z) (next : option Z) : option Z :=
  match rest with
  | c :: _ => Some c
  | [] => next
  end.

(** A text read from [r]; [next] is the code unit that follows the
    text, if any. *)
Fixpoint read_from (r : reader) (text : list Z) (next : option Z) : reader :=
  match text with
  | [] => r
  | c :: rest => read_from (read_unit r c (in_sight rest next)) rest next
  end.

Definition beginning : reader := mkReader Default NoCarry [] false [].

(** A comment that the end of the text leaves open in a statement. *)
Definition left_open (m : mode) : list (list Z) :=
  match m with
  | InComment None interior => [interior]
  | _ => []
  end.

(** The interiors of the comments of a text that stand outside strings
    and outside the raw values of custom properties, in the order of
    the text. *)
Definition comments_outside (text : list Z) : list (list Z) :=
  let r := read_from beginning text None in
  seen r ++ left_open (place r).

(** After [before], a comment would stand in a statement: not in a
    string, a comment or the raw value of a custom property. *)
Definition in_statement (before : list Z) : Prop :=
  let r := read_from beginning before (Some SLASH) in
  place r = Default /\ pending r = NoCarry.

(** The scan of a text that is followed by [next]. *)
Fixpoint run (st : pstate) (text : list Z) (next : option Z)
    : outcome pstate :=
  match text with
  | [] => Parsed st
  | c :: rest =>
      match step st c (in_sight rest next) with
      | Parsed st' => run st' rest next
      | Failed e => Failed e
      end
  end.

(** No comment node in a node, at any depth. *)
Fixpoint comment_free (n : node) : Prop :=
  let all_free :=
    fix all_free (nodes : list node) : Prop :=
      match nodes with
      | [] => True
      | n :: rest => comment_free n /\ all_free rest
      end in
  match n with
  | Comment _ => False
  | Declaration _ _ _ => True
  | Rule _ nodes | AtRule _ _ (Some nodes) => all_free nodes
  | AtRule _ _ None => True
  end.

(** A license comment: the interior begins with an exclamation mark. *)
Definition license (value : list Z) : Prop :=
  starts_with EXCLAMATION_MARK value = true.

(** No comment node among the nodes of the tree under construction,
    finished or in an open block. *)
Definition nodes_free (t : tree) : Prop :=
  Forall comment_free (ast t) /\
  Forall (fun f => Forall comment_free (children f)) (parents t).

(** [t'] has the license comments of [t] and then further ones. *)
Definition more_licenses (t t' : tree) : Prop :=
  exists values : list (list Z),
    licenseComments t' = licenseComments t ++ map Comment values /\
    Forall license values.

(** Modelled from the spec: [toCss] of ast.ts on the nodes of the parser
    model, without the recording of output offsets: two spaces per
    level, one statement per line, blocks in braces, a semicolon after
    a declaration and after an at-rule without body. *)
Fixpoint node_css (indent : list Z) (n : node) : list Z :=
  let all_css :=
    fix all_css (nodes : list node) : list Z :=
      match nodes with
      | [] => []
      | n :: rest => node_css (SPACE :: SPACE :: indent) n ++ all_css rest
      end in
  match n with
  | Comment value =>
      indent ++ [SLASH; ASTERISK] ++ value ++ [ASTERISK; SLASH; LINE_BREAK]
  | Declaration property value important =>
      indent ++ property ++ [COLON; SPACE] ++ value
      ++ (if important then units " !important" else [])
      ++ [SEMICOLON; LINE_BREAK]
  | Rule selector nodes =>
      indent ++ selector ++ [SPACE; OPEN_CURLY; LINE_BREAK]
      ++ all_css nodes ++ indent ++ [CLOSE_CURLY; LINE_BREAK]
  | AtRule name params nodes =>
      indent ++ name ++ (if is_empty params then [] else SPACE :: params)
      ++ match nodes with
         | Some nodes =>
             [SPACE; OPEN_CURLY; LINE_BREAK]
             ++ all_css nodes ++ indent ++ [CLOSE_CURLY; LINE_BREAK]
         | None => [SEMICOLON; LINE_BREAK]
         end
  end.

Definition toCss (nodes : list node) : list Z :=
  flat_map (node_css []) nodes.

(** *** Inputs of the tests of the parser (css-parser.test.ts) *)

(** A block that is never closed. *)
Definition unclosed_sample : list Z :=
  join_lines [""; ".foo {"; "  color: red;"; "}"; ""; ".bar {";
              "  color: blue;"; ""; "/* ^ Missing closing } */"; ""].

(** A string that is still open at the end of its line. *)
Definition open_string_sample : list Z :=
  join_lines [""; ".foo {"] ++ LINE_BREAK :: units "  content: "
  ++ DOUBLE_QUOTE :: join_lines ["Hello world!"; "  font-weight: bold;"; "}"].

(** The same with a semicolon before the end of the line. *)
Definition open_string_semicolon_sample : list Z :=
  join_lines [""; ".foo {"] ++ LINE_BREAK :: units "  content: "
  ++ DOUBLE_QUOTE :: join_lines ["Hello world!;"; "  font-weight: bold;"; "}"].

End Css.

(** ** Orders and bounds that the further properties speak of *)

(** Entries at increasing indices are related by [R]. *)
Definition ordered {A : Type} (R : A -> A -> Prop) (l : list A) : Prop :=
  forall (i j : nat) (a b : A),
    l !! i = Some a -> l !! j = Some b -> (i < j)%nat -> R a b.

(** Largest number of iterations of the loop of [find] that starts
    with [count] entries to look at. *)
Definition search_steps (count : Z) : Z :=
  if count =? 0 then 0 else Z.log2 count + 1.

(** The generated position of [a] is that of [b] or comes before it:
    lines first, columns on the same line. *)
Definition generated_le (a b : DecodedMapping) : Prop :=
  match generatedColumn a, generatedColumn b with
  | Num ca, Num cb =>
      generatedLine a < generatedLine b \/
      (generatedLine a = generatedLine b /\ ca <= cb)
  | _, _ => False
  end.

(** [m] has the generated position of [p]. *)
Definition same_generated (p m : DecodedMapping) : Prop :=
  generatedLine m = generatedLine p /\ generatedColumn m = generatedColumn p.

#[global] Instance same_generated_dec (p m : DecodedMapping) :
  Decision (same_generated p m).
Proof. unfold same_generated. apply _. Defined.

(** The generated column is a number. *)
Definition numeric (m : DecodedMapping) : Prop :=
  exists c, generatedColumn m = Num c.

(** The offsets of a group that has both ranges are not negative. *)
Definition inside (group : option Offsets) : Prop :=
  match group with
  | Some {| src := (s0, s1); dst := Some (d0, d1) |} =>
      0 <= s0 /\ 0 <= s1 /\ 0 <= d0 /\ 0 <= d1
  | _ => True
  end.

(** A one-based position in a text of [lines] lines. *)
Definition one_based (lines : Z) (l : Z) (c : num) : Prop :=
  1 <= l <= lines /\ exists z, c = Num z /\ 1 <= z.

Definition original_position (m : DecodedMapping) : Position :=
  {| line := originalLine m; column := originalColumn m |}.

Definition generated_position (m : DecodedMapping) : Position :=
  {| line := generatedLine m; column := generatedColumn m |}.

(** The records of the older function that carry the positions of the
    records pushed two by two by the newer one. *)
Fixpoint legacy_pairs (l : list DecodedMapping) : list Legacy.Mapping :=
  match l with
  | a :: b :: rest =>
      {| Legacy.original := original_position a;
         Legacy.generated := original_position b |}
      :: {| Legacy.original := generated_position a;
            Legacy.generated := generated_position b |}
      :: legacy_pairs rest
  | _ => []
  end.

(** Three records, pushed out of order, two of them at the same
    generated position. *)
Definition unsorted_sample : list DecodedMapping :=
  [mapping_of {| line := 1; column := Num 1 |} {| line := 2; column := Num 3 |};
   mapping_of {| line := 1; column := Num 5 |} {| line := 1; column := Num 7 |};
   mapping_of {| line := 3; column := Num 1 |} {| line := 2; column := Num 3 |}].

(** The text of the test of the line table in css-parser.test.ts. *)
Definition line_tables_text : list Z :=
  join_lines [".foo {"; "  color: red;"; "}"; ""].
(** * Properties *)

(** ** Line tables: the examples of the description *)

Example find_abc_0 :
  find (createLineTable (join_lines ["a"; "bb"; "ccc"])) 0
  = {| line := 1; column := Num 1 |}.
Proof. reflexivity. Qed.

Example find_abc_2 :
  find (createLineTable (join_lines ["a"; "bb"; "ccc"])) 2
  = {| line := 2; column := Num 1 |}.
Proof. reflexivity. Qed.

Example find_abc_5 :
  find (createLineTable (join_lines ["a"; "bb"; "ccc"])) 5
  = {| line := 3; column := Num 1 |}.
Proof. reflexivity. Qed.

Example find_negative :
  find (createLineTable (join_lines ["a"; "bb"])) (-1)
  = {| line := 0; column := NaN |}.
Proof. reflexivity. Qed.

(** ** Arithmetic of the integer coercion *)

Lemma to_int32_small (z : Z) : 0 <= z < 2 ^ 31 -> to_int32 z = z.
Proof.
  intros Hz. unfold to_int32.
  rewrite Z.mod_small by lia.
  destruct (Z.ltb_spec z (2 ^ 31)); lia.
Qed.

Lemma half_in_range (count : Z) :
  0 < count < 2 ^ 32 ->
  to_int32 (Z.quot count 2) = count / 2 /\ 0 <= count / 2 < count.
Proof.
  intros Hc.
  rewrite Z.quot_div_nonneg by lia.
  assert (0 <= count / 2 < 2 ^ 31)
    by (split; [apply Z.div_pos; lia | apply Z.div_lt_upper_bound; lia]).
  split; [apply to_int32_small; lia|].
  split; [lia | apply Z.div_lt; lia].
Qed.

Lemma read_in_range (table : list Z) (i : Z) :
  0 <= i < Z.of_nat (length table) ->
  exists v, read table i = Some v /\ table !! Z.to_nat i = Some v.
Proof.
  intros Hi. unfold read.
  destruct (Z.ltb_spec i 0); [lia|].
  destruct (lookup_lt_is_Some_2 table (Z.to_nat i)) as [v Hv]; [lia|].
  eauto.
Qed.

(** ** The table of line starts *)

Lemma line_starts_app (a b : list Z) (i : Z) :
  line_starts i (a ++ b)
  = line_starts i a ++ line_starts (i + Z.of_nat (length a)) b.
Proof.
  revert i. induction a as [|c a IH]; intros i; simpl.
  - by rewrite Z.add_0_r.
  - replace (i + Z.of_nat (S (length a)))
      with (i + 1 + Z.of_nat (length a)) by lia.
    destruct (c =? LINE_BREAK); simpl; by rewrite IH.
Qed.

Lemma line_starts_bounds (source : list Z) (i s : Z) :
  s ∈ line_starts i source -> i < s <= i + Z.of_nat (length source).
Proof.
  revert i. induction source as [|c rest IH]; intros i; simpl.
  - intros H. inversion H.
  - destruct (c =? LINE_BREAK).
    + rewrite elem_of_cons. intros [-> | H]; [lia|].
      apply IH in H. lia.
    + intros H. apply IH in H. lia.
Qed.

Lemma line_starts_length (source : list Z) (i : Z) :
  length (line_starts i source) = count_breaks source.
Proof.
  unfold count_breaks. revert i.
  induction source as [|c rest IH]; intros i; simpl; [done|].
  rewrite filter_cons.
  destruct (Z.eqb_spec c LINE_BREAK) as [->|Hne].
  - rewrite decide_True by done. simpl. by rewrite IH.
  - rewrite decide_False by done. apply IH.
Qed.

Lemma line_starts_elem (source : list Z) (i s : Z) :
  s ∈ line_starts i source <->
  exists k : nat, source !! k = Some LINE_BREAK /\ s = i + Z.of_nat k + 1.
Proof.
  revert i. induction source as [|c rest IH]; intros i; simpl.
  - split; [intros H; inversion H | intros (k & Hk & _); by destruct k].
  - destruct (Z.eqb_spec c LINE_BREAK) as [->|Hne].
    + rewrite elem_of_cons, IH. split.
      * intros [-> | (k & Hk & ->)]; [exists 0%nat | exists (S k)];
          (split; [done | lia]).
      * intros ([|k] & Hk & ->); [left; lia|].
        right. exists k. split; [done | lia].
    + rewrite IH. split.
      * intros (k & Hk & ->). exists (S k). split; [done | lia].
      * intros ([|k] & Hk & ->); simpl in Hk; [congruence|].
        exists k. split; [done | lia].
Qed.

(** Every entry is at most the last one. *)
Lemma line_starts_le_last (source : list Z) (i d s : Z) :
  s ∈ line_starts i source -> s <= List.last (line_starts i source) d.
Proof.
  revert i d s. induction source as [|c rest IH]; intros i d s; simpl.
  - intros H. inversion H.
  - destruct (c =? LINE_BREAK); [|apply IH].
    intros Hs.
    destruct (line_starts (i + 1) rest) as [|x l] eqn:E.
    + apply elem_of_cons in Hs as [-> | H]; [simpl; lia | inversion H].
    + change (List.last ((i + 1) :: x :: l) d) with (List.last (x :: l) d).
      rewrite <- E in *.
      apply elem_of_cons in Hs as [-> | H]; [|by apply IH].
      assert (Hx : x ∈ line_starts (i + 1) rest) by (rewrite E; left).
      pose proof (line_starts_bounds _ _ _ Hx).
      pose proof (IH (i + 1) d x Hx). lia.
Qed.

Lemma last_cons_default (l : list Z) (a d : Z) :
  List.last (a :: l) d = List.last l a.
Proof.
  revert a d. induction l as [|b l IH]; intros a d; [done|].
  change (List.last (a :: b :: l) d) with (List.last (b :: l) d).
  by rewrite (IH b d), (IH b a).
Qed.

(** The last line start and the column add up to the offset. *)
Lemma last_start_column (t : list Z) (i s col : Z) :
  s + col = i ->
  List.last (line_starts i t) s + column_after col t
  = i + Z.of_nat (length t).
Proof.
  revert i s col. induction t as [|c r IH]; intros i s col Hs; simpl.
  - lia.
  - replace (i + Z.of_nat (S (length r)))
      with (i + 1 + Z.of_nat (length r)) by lia.
    destruct (c =? LINE_BREAK).
    + rewrite last_cons_default. apply IH. lia.
    + apply IH. lia.
Qed.

Lemma column_after_bounds (t : list Z) (col : Z) :
  0 <= col -> 0 <= column_after col t.
Proof.
  revert col. induction t as [|c r IH]; intros col Hc; simpl; [done|].
  destruct (c =? LINE_BREAK); apply IH; lia.
Qed.

(** ** The binary search *)

Lemma search_spec (fuel : nat) (table : list Z) (offset line count : Z)
    (reads : list Z) (k : nat) :
  splits_at table offset k ->
  0 <= line -> 0 <= count < 2 ^ 32 ->
  (Z.to_nat count <= fuel)%nat ->
  line + count <= Z.of_nat (length table) ->
  line <= Z.of_nat k <= line + count ->
  exists reads',
    search fuel table offset line count reads
      = Some (Z.of_nat k, reads ++ reads') /\
    Forall (fun i => 0 <= i < Z.of_nat (length table)) reads'.
Proof.
  intros [Hlow Hhigh].
  revert line count reads.
  induction fuel as [|fuel IH]; intros line count reads Hl Hc Hfuel Hlen Hk.
  - assert (count = 0) as -> by lia. simpl.
    exists []. rewrite app_nil_r. split; [f_equal; f_equal; lia | constructor].
  - simpl. destruct (Z.ltb_spec 0 count) as [Hpos|Hzero].
    + destruct (half_in_range count) as [-> Hmid]; [lia|].
      set (mid := count / 2) in *.
      destruct (read_in_range table (line + mid)) as (v & -> & Hv); [lia|].
      simpl. destruct (Z.leb_spec v offset) as [Hle|Hgt].
      * destruct (IH (line + mid + 1) (count - mid - 1) (reads ++ [line + mid]))
          as (rs & -> & Hrs); try lia.
        { destruct (decide (Z.to_nat (line + mid) < k)%nat); [lia|].
          pose proof (Hhigh _ _ Hv). lia. }
        exists ((line + mid) :: rs). rewrite <- app_assoc. split; [done|].
        constructor; [lia | done].
      * destruct (IH line mid (reads ++ [line + mid]))
          as (rs & -> & Hrs); try lia.
        { destruct (decide (Z.to_nat (line + mid) < k)%nat) as [Hlt|]; [|lia].
          pose proof (Hlow _ _ Hv Hlt). lia. }
        exists ((line + mid) :: rs). rewrite <- app_assoc. split; [done|].
        constructor; [lia | done].
    + exists []. rewrite app_nil_r. split; [f_equal; f_equal; lia | constructor].
Qed.

(** The table of a text is split, at any offset, just after the line
    starts of the text before the offset. *)
Lemma build_table_splits (source : list Z) (offset : Z) :
  0 <= offset ->
  splits_at (build_table source) offset
    (S (count_breaks (take (Z.to_nat offset) source))).
Proof.
  intros Hoff.
  set (n := Z.to_nat offset).
  assert (Htab : build_table source
    = (0 :: line_starts 0 (take n source))
      ++ line_starts (Z.of_nat (length (take n source))) (drop n source)).
  { unfold build_table.
    rewrite <- (take_drop n source) at 1.
    by rewrite line_starts_app. }
  assert (Hk : length (0 :: line_starts 0 (take n source))
    = S (count_breaks (take n source)))
    by (simpl; by rewrite line_starts_length).
  rewrite Htab, <- Hk. split; intros j v Hj Hlt.
  - rewrite lookup_app_l in Hj by done.
    destruct j as [|j]; simpl in Hj; [injection Hj; lia|].
    apply list_elem_of_lookup_2, line_starts_bounds in Hj.
    rewrite length_take in Hj. lia.
  - rewrite lookup_app_r in Hj by done.
    apply list_elem_of_lookup_2 in Hj.
    pose proof (line_starts_bounds _ _ _ Hj) as Hb.
    destruct (decide (n < length source)%nat).
    + rewrite length_take in Hb. lia.
    + rewrite drop_ge in Hj by lia. inversion Hj.
Qed.

Lemma count_breaks_app (a b : list Z) :
  count_breaks (a ++ b) = (count_breaks a + count_breaks b)%nat.
Proof. unfold count_breaks. by rewrite filter_app, length_app. Qed.

Lemma count_breaks_take (n : nat) (l : list Z) :
  (count_breaks (take n l) <= count_breaks l)%nat.
Proof.
  rewrite <- (take_drop n l) at 2. rewrite count_breaks_app. lia.
Qed.

(** What [find] computes, and what it reads, at a non-negative offset. *)
Lemma find_traced_spec (source : list Z) (offset : Z) :
  text_fits source -> 0 <= offset ->
  let before := take (Z.to_nat offset) source in
  let start := List.last (line_starts 0 before) 0 in
  exists reads,
    find_traced (build_table source) offset
      = Some ({| line := Z.of_nat (S (count_breaks before));
                 column := Num (offset - start + 1) |}, reads) /\
    Forall (fun i => 0 <= i < Z.of_nat (length (build_table source))) reads /\
    build_table source !! count_breaks before = Some start.
Proof.
  intros Hfits Hoff before start.
  pose proof (build_table_splits source offset Hoff) as Hsplit.
  fold before in Hsplit.
  assert (Hlen : length (build_table source) = S (count_breaks source))
    by (simpl; by rewrite line_starts_length).
  assert (Hcb : (count_breaks source <= length source)%nat)
    by (unfold count_breaks; apply length_filter).
  assert (Hcount : (count_breaks before <= count_breaks source)%nat)
    by apply count_breaks_take.
  assert (Hstart : build_table source !! count_breaks before = Some start).
  { unfold build_table.
    rewrite <- (take_drop (Z.to_nat offset) source) at 1.
    fold before. rewrite line_starts_app, app_comm_cons.
    rewrite lookup_app_l by (simpl; rewrite line_starts_length; lia).
    rewrite <- (line_starts_length before 0).
    unfold start. generalize (line_starts 0 before). intros l.
    change (length l) with (pred (length (0 :: l))).
    rewrite <- last_lookup, last_cons.
    destruct (last l) eqn:E.
    - apply last_Some in E as (l' & ->). by rewrite List.last_last.
    - apply last_None in E as ->. done. }
  unfold text_fits in Hfits.
  destruct (search_spec (length (build_table source)) (build_table source)
              offset 0 (Z.of_nat (length (build_table source))) []
              (S (count_breaks before)) Hsplit)
    as (rs & Hrs & Hbounds); try lia.
  unfold find_traced. rewrite Hrs.
  replace (Z.of_nat (S (count_breaks before)) - 1)
    with (Z.of_nat (count_breaks before)) by lia.
  unfold read. destruct (Z.ltb_spec (Z.of_nat (count_breaks before)) 0); [lia|].
  rewrite Nat2Z.id, Hstart. cbn [to_number num_sub num_add].
  clearbody before start.
  eexists. split; [|split; [|done]].
  - repeat f_equal. clear. lia.
  - apply Forall_app. split; [done|].
    constructor; [clear -Hlen Hcount; lia | constructor].
Qed.

Lemma build_table_length (source : list Z) :
  length (build_table source) = S (count_breaks source).
Proof. simpl. by rewrite line_starts_length. Qed.

Lemma build_table_elem (source : list Z) (s : Z) :
  s ∈ build_table source <->
  s = 0 \/ exists k : nat, source !! k = Some LINE_BREAK /\ s = Z.of_nat k + 1.
Proof.
  unfold build_table. rewrite elem_of_cons, line_starts_elem.
  split; (intros [-> | (k & Hk & ->)]; [by left | right; exists k]);
    (split; [done | lia]).
Qed.

(** The full account of a lookup at a non-negative offset. *)
Lemma find_spec (source : list Z) (offset : Z) :
  text_fits source -> 0 <= offset ->
  let before := take (Z.to_nat offset) source in
  exists start reads,
    find_traced (build_table source) offset
      = Some ({| line := Z.of_nat (S (count_breaks before));
                 column := Num (offset - start + 1) |}, reads) /\
    Forall (fun i => 0 <= i < Z.of_nat (length (build_table source))) reads /\
    build_table source !! count_breaks before = Some start /\
    splits_at (build_table source) offset (S (count_breaks before)) /\
    start <= offset /\
    (forall s, s ∈ build_table source -> s <= offset -> s <= start) /\
    start + column_after 0 before = Z.of_nat (length before).
Proof.
  intros Hfits Hoff before.
  destruct (find_traced_spec source offset Hfits Hoff) as (reads & Hf & Hr & Hs).
  fold before in Hf, Hs.
  set (start := List.last (line_starts 0 before) 0) in *.
  pose proof (build_table_splits source offset Hoff) as Hsplit.
  fold before in Hsplit.
  assert (Hcol : start + column_after 0 before = Z.of_nat (length before))
    by (unfold start; rewrite last_start_column; lia).
  assert (Hmax : forall s, s ∈ 0 :: line_starts 0 before -> s <= start).
  { intros s [-> | Hin]%elem_of_cons; [|by apply line_starts_le_last].
    unfold start.
    destruct (line_starts 0 before) as [|x l] eqn:E; [done|].
    assert (Hx : x ∈ line_starts 0 before) by (rewrite E; left).
    pose proof (line_starts_bounds _ _ _ Hx) as Hb.
    pose proof (line_starts_le_last before 0 0 x Hx) as Hl.
    rewrite E in Hl. lia. }
  exists start, reads. repeat split; try done.
  - apply Hsplit. - apply Hsplit.
  - destruct Hsplit as [Hlow _]. apply (Hlow _ _ Hs). lia.
  - intros s Hin Hle. apply list_elem_of_lookup in Hin as [j Hj].
    destruct Hsplit as [_ Hhigh].
    destruct (decide (S (count_breaks before) <= j)%nat) as [Hge|Hlt].
    { pose proof (Hhigh _ _ Hj Hge). lia. }
    apply Hmax. unfold build_table in Hj.
    rewrite <- (take_drop (Z.to_nat offset) source) in Hj.
    fold before in Hj. rewrite line_starts_app, app_comm_cons in Hj.
    rewrite lookup_app_l in Hj
      by (simpl; rewrite line_starts_length; lia).
    by apply list_elem_of_lookup_2 in Hj.
Qed.

Lemma find_createLineTable (source : list Z) (offset : Z) (p : Position)
    (reads : list Z) :
  find_traced (build_table source) offset = Some (p, reads) ->
  find (createLineTable source) offset = p.
Proof. intros H. simpl. unfold find_in. by rewrite H. Qed.

Lemma computeLineTable_same (text : list Z) :
  computeLineTable text = createLineTable text.
Proof. reflexivity. Qed.

(** Within the text, [find] is the position of the description. *)
Lemma find_position_at (source : list Z) (k : nat) :
  text_fits source -> (k <= length source)%nat ->
  find (createLineTable source) (Z.of_nat k) = position_at source k.
Proof.
  intros Hfits Hk.
  destruct (find_spec source (Z.of_nat k) Hfits) as
    (start & reads & Hf & _ & _ & _ & _ & _ & Hcol); [lia|].
  rewrite Nat2Z.id in *.
  rewrite (find_createLineTable _ _ _ _ Hf). unfold position_at.
  rewrite length_take in Hcol. repeat f_equal. clear -Hcol Hk. lia.
Qed.

(** ** Carriage returns *)

Lemma to_crlf_app (a b : list Z) : to_crlf (a ++ b) = to_crlf a ++ to_crlf b.
Proof.
  induction a as [|c a IH]; simpl; [done|].
  destruct (c =? LINE_BREAK); simpl; by rewrite IH.
Qed.

Lemma to_crlf_length (source : list Z) :
  (length source <= length (to_crlf source))%nat.
Proof.
  induction source as [|c r IH]; simpl; [done|].
  destruct (c =? LINE_BREAK); simpl; lia.
Qed.

Lemma count_breaks_cons (c : Z) (t : list Z) :
  count_breaks (c :: t)
  = ((if (c =? LINE_BREAK)%Z then 1 else 0) + count_breaks t)%nat.
Proof.
  unfold count_breaks. rewrite filter_cons.
  destruct (Z.eqb_spec c LINE_BREAK);
    [rewrite decide_True by done | rewrite decide_False by done]; done.
Qed.

Lemma count_breaks_crlf (t : list Z) : count_breaks (to_crlf t) = count_breaks t.
Proof.
  induction t as [|c r IH]; simpl; [done|].
  destruct (Z.eqb_spec c LINE_BREAK) as [->|Hne].
  - rewrite !count_breaks_cons. simpl. by rewrite IH.
  - rewrite !count_breaks_cons.
    destruct (Z.eqb_spec c LINE_BREAK); [done|]. by rewrite IH.
Qed.

Lemma column_after_crlf (t : list Z) (col : Z) :
  column_after col (to_crlf t) = column_after col t.
Proof.
  revert col. induction t as [|c r IH]; intros col; simpl; [done|].
  destruct (Z.eqb_spec c LINE_BREAK) as [->|Hne]; simpl.
  - apply IH.
  - destruct (Z.eqb_spec c LINE_BREAK); [done|]. apply IH.
Qed.

Lemma take_crlf (source : list Z) (k : nat) :
  take (length (to_crlf (take k source))) (to_crlf source)
  = to_crlf (take k source).
Proof.
  rewrite <- (take_drop k source) at 2.
  by rewrite to_crlf_app, take_app_length.
Qed.

Lemma position_at_crlf (source : list Z) (k : nat) :
  position_at (to_crlf source) (length (to_crlf (take k source)))
  = position_at source k.
Proof.
  unfold position_at.
  by rewrite take_crlf, count_breaks_crlf, column_after_crlf.
Qed.

(** ** Line-table statements *)

(** C3. For every text and every offset from 0 on (so every offset within
    the text), [find] of either line table returns the one-based line
    whose recorded line start is the greatest one that is at most the
    offset, and the column is [offset - lineStart + 1]; for the buffer
    of three lines [a], [bb], [ccc], offsets 0, 2 and 5 are at line 1,
    2 and 3, column 1. *)
Theorem find_greatest_line_start (source : list Z) (offset : Z)
    (table : LineTable) :
  table = createLineTable source \/ table = computeLineTable source ->
  text_fits source ->
  0 <= offset ->
  (exists start : Z,
     1 <= line (find table offset) /\
     build_table source !! Z.to_nat (line (find table offset) - 1)
       = Some start /\
     start <= offset /\
     (forall s, s ∈ build_table source -> s <= offset -> s <= start) /\
     column (find table offset) = Num (offset - start + 1)) /\
  find (createLineTable abc_text) 0 = {| line := 1; column := Num 1 |} /\
  find (createLineTable abc_text) 2 = {| line := 2; column := Num 1 |} /\
  find (createLineTable abc_text) 5 = {| line := 3; column := Num 1 |}.
Proof.
  intros Htable Hfits Hoff.
  split; [|by repeat split].
  assert (table = createLineTable source) as ->
    by (destruct Htable as [-> | ->]; reflexivity).
  destruct (find_spec source offset Hfits Hoff) as
    (start & reads & Hf & _ & Hs & _ & Hle & Hmax & _).
  rewrite (find_createLineTable _ _ _ _ Hf). cbn [line column].
  exists start. repeat split; try done.
  - clear. lia.
  - replace (Z.to_nat (Z.of_nat (S _) - 1))
      with (count_breaks (take (Z.to_nat offset) source)) by (clear; lia).
    done.
Qed.

Lemma find_greatest_line_start_witness :
  text_fits abc_text /\
  exists start : Z,
    1 <= line (find (createLineTable abc_text) 4) /\
    build_table abc_text
      !! Z.to_nat (line (find (createLineTable abc_text) 4) - 1) = Some start /\
    start <= 4 /\
    (forall s, s ∈ build_table abc_text -> s <= 4 -> s <= start) /\
    column (find (createLineTable abc_text) 4) = Num (4 - start + 1).
Proof.
  assert (Hfits : text_fits abc_text) by (vm_compute; reflexivity).
  split; [exact Hfits|].
  apply (find_greatest_line_start abc_text 4 (createLineTable abc_text));
    [by left | exact Hfits | lia].
Defined.

(** C10. For every text and every offset from 0 on, also at or beyond the
    end of the text, the loop of [find] ends within its iteration bound,
    reads the table (which starts with the entry 0) at indices within
    the table only, and returns a line and a column that are at least 1;
    an offset at or beyond the last recorded line start is on the last
    line, with the column counted from that start (the count is exact
    for offsets below 2^53, where JavaScript numbers hold every
    integer). *)
Theorem find_stays_in_bounds (source : list Z) (offset : Z) :
  text_fits source ->
  0 <= offset ->
  exists (p : Position) (reads : list Z),
    find_traced (build_table source) offset = Some (p, reads) /\
    find (createLineTable source) offset = p /\
    find (computeLineTable source) offset = p /\
    build_table source !! 0%nat = Some 0 /\
    Forall (fun i => 0 <= i < Z.of_nat (length (build_table source))) reads /\
    1 <= line p /\
    (exists c, column p = Num c /\ 1 <= c) /\
    (forall l, last (build_table source) = Some l -> l <= offset ->
       line p = Z.of_nat (length (build_table source)) /\
       (offset < 2 ^ 53 -> column p = Num (offset - l + 1))).
Proof.
  intros Hfits Hoff.
  destruct (find_spec source offset Hfits Hoff) as
    (start & reads & Hf & Hreads & Hs & Hsplit & Hle & Hmax & _).
  eexists _, reads. split; [exact Hf|].
  change (computeLineTable source) with (createLineTable source).
  rewrite (find_createLineTable _ _ _ _ Hf).
  cbn [line column]. repeat split; try done.
  - clear. lia.
  - exists (offset - start + 1). split; [done | clear -Hle; lia].
  - rewrite last_lookup in H.
    destruct Hsplit as [_ Hhigh].
    pose proof (count_breaks_take (Z.to_nat offset) source) as Hcb.
    rewrite build_table_length in *. simpl in H.
    destruct (decide (S (count_breaks (take (Z.to_nat offset) source))
                      <= count_breaks source)%nat) as [Hlt|Hge].
    + pose proof (Hhigh _ _ H Hlt). lia.
    + clear -Hcb Hge. lia.
  - rewrite last_lookup in H.
    destruct Hsplit as [_ Hhigh].
    pose proof (count_breaks_take (Z.to_nat offset) source) as Hcb.
    rewrite build_table_length in *. simpl in H.
    destruct (decide (S (count_breaks (take (Z.to_nat offset) source))
                      <= count_breaks source)%nat) as [Hlt|Hge].
    + pose proof (Hhigh _ _ H Hlt). lia.
    + intros _.
      assert (count_breaks (take (Z.to_nat offset) source)
              = count_breaks source) as E by (clear -Hcb Hge; lia).
      rewrite E in Hs. rewrite Hs in H. by injection H as ->.
Qed.

Lemma find_stays_in_bounds_witness :
  text_fits abc_text /\
  exists (p : Position) (reads : list Z),
    find_traced (build_table abc_text) 100 = Some (p, reads) /\
    find (createLineTable abc_text) 100 = p /\
    find (computeLineTable abc_text) 100 = p /\
    build_table abc_text !! 0%nat = Some 0 /\
    Forall (fun i => 0 <= i < Z.of_nat (length (build_table abc_text))) reads /\
    1 <= line p /\
    (exists c, column p = Num c /\ 1 <= c) /\
    (forall l, last (build_table abc_text) = Some l -> l <= 100 ->
       line p = Z.of_nat (length (build_table abc_text)) /\
       (100 < 2 ^ 53 -> column p = Num (100 - l + 1))).
Proof.
  assert (Hfits : text_fits abc_text) by (vm_compute; reflexivity).
  split; [exact Hfits|].
  apply (find_stays_in_bounds abc_text 100); [exact Hfits | lia].
Defined.

Lemma crlf_at_break (source : list Z) (k : nat) :
  source !! k = Some LINE_BREAK ->
  to_crlf source
  = to_crlf (take k source)
    ++ CARRIAGE_RETURN :: LINE_BREAK :: to_crlf (drop (S k) source).
Proof.
  intros Hk. rewrite <- (take_drop_middle source k LINE_BREAK Hk) at 1.
  by rewrite to_crlf_app.
Qed.

(** C4. The table of a text holds 0 and the offset just after each line
    break, and nothing else: no other code unit (a carriage return
    included) starts a line.  The text with every line break turned
    into carriage return, line break has, at the corresponding offsets,
    the same positions; the carriage return takes the place the line
    break had on its line, and the line break that follows it is still
    on that line. *)
Theorem line_breaks_only (source : list Z) (k : nat) :
  text_fits (to_crlf source) ->
  (k <= length source)%nat ->
  (forall s, s ∈ build_table source <->
     s = 0 \/
     exists j : nat, source !! j = Some LINE_BREAK /\ s = Z.of_nat j + 1) /\
  (forall (j : nat) c, source !! j = Some c -> c <> LINE_BREAK ->
     Z.of_nat j + 1 ∉ build_table source) /\
  computeLineTable source = createLineTable source /\
  find (createLineTable (to_crlf source)) (crlf_offset source k)
    = find (createLineTable source) (Z.of_nat k) /\
  (source !! k = Some LINE_BREAK ->
     to_crlf source !! Z.to_nat (crlf_offset source k)
       = Some CARRIAGE_RETURN /\
     to_crlf source !! S (Z.to_nat (crlf_offset source k))
       = Some LINE_BREAK /\
     line (find (createLineTable (to_crlf source)) (crlf_offset source k + 1))
       = line (find (createLineTable source) (Z.of_nat k))).
Proof.
  intros Hfits Hk.
  assert (Hfits' : text_fits source).
  { unfold text_fits in *. pose proof (to_crlf_length source). lia. }
  assert (Hpos : forall n : nat, (n <= length (to_crlf source))%nat ->
    find (createLineTable (to_crlf source)) (Z.of_nat n)
    = position_at (to_crlf source) n)
    by (intros; by apply find_position_at).
  assert (Hpos' : forall n : nat, (n <= length source)%nat ->
    find (createLineTable source) (Z.of_nat n) = position_at source n)
    by (intros; by apply find_position_at).
  clear Hfits Hfits'.
  split; [apply build_table_elem|].
  split.
  { intros j c Hj Hc [H | (j' & Hj' & E)]%build_table_elem; [lia|].
    assert (j = j') as -> by lia. congruence. }
  split; [reflexivity|].
  assert (Hlen : (length (to_crlf (take k source))
                  <= length (to_crlf source))%nat).
  { rewrite <- (take_drop k source) at 2. rewrite to_crlf_app, length_app. lia. }
  split.
  { unfold crlf_offset.
    rewrite Hpos, Hpos' by done. apply position_at_crlf. }
  intros Hbreak. unfold crlf_offset. rewrite Nat2Z.id.
  rewrite (crlf_at_break source k Hbreak) at 1 2.
  split; [by rewrite list_lookup_middle|].
  split.
  { rewrite (cons_middle CARRIAGE_RETURN), app_assoc.
    apply list_lookup_middle. rewrite length_app. simpl. lia. }
  replace (Z.of_nat (length (to_crlf (take k source))) + 1)
    with (Z.of_nat (S (length (to_crlf (take k source))))) by lia.
  rewrite Hpos, Hpos'; try done.
  - unfold position_at. cbn [line]. do 2 f_equal.
    rewrite (crlf_at_break source k Hbreak).
    replace (S (length (to_crlf (take k source))))
      with (length (to_crlf (take k source)) + 1)%nat by lia.
    rewrite take_app_add. change (take 1 (CARRIAGE_RETURN :: _))
      with [CARRIAGE_RETURN].
    rewrite count_breaks_app, count_breaks_crlf.
    change (count_breaks [CARRIAGE_RETURN]) with 0%nat. lia.
  - rewrite (crlf_at_break source k Hbreak), length_app. simpl. lia.
Qed.

Lemma line_breaks_only_witness :
  text_fits (to_crlf abc_text) /\
  find (createLineTable (to_crlf abc_text)) (crlf_offset abc_text 1)
    = find (createLineTable abc_text) 1.
Proof.
  assert (Hfits : text_fits (to_crlf abc_text)) by (vm_compute; reflexivity).
  split; [exact Hfits|].
  apply (line_breaks_only abc_text 1 Hfits). simpl. lia.
Defined.

(** ** The source map *)

Lemma filter_mappings_nil (last : option DecodedMapping)
    (l : list DecodedMapping) :
  filter_mappings last l = [].
Proof.
  revert last. induction l as [|m rest IH]; intros last; simpl; [done|].
  unfold remove_duplicate.
  destruct last as [l|]; [|apply IH].
  destruct (_ && _); apply IH.
Qed.

Lemma insert_sorted_perm {A : Type} (cmp : A -> A -> num) (x : A) (l : list A) :
  insert_sorted cmp x l ≡ₚ x :: l.
Proof.
  induction l as [|y rest IH]; simpl; [done|].
  destruct (_ <? 0); [done|]. by rewrite IH, Permutation_swap.
Qed.

Lemma array_sort_perm {A : Type} (cmp : A -> A -> num) (l : list A) :
  array_sort cmp l ≡ₚ l.
Proof.
  unfold array_sort.
  assert (H : forall acc, fold_left (fun s x => insert_sorted cmp x s) l acc
                          ≡ₚ acc ++ l).
  { induction l as [|x rest IH]; intros acc; simpl; [by rewrite app_nil_r|].
    rewrite IH, insert_sorted_perm. simpl. apply Permutation_middle. }
  by rewrite H.
Qed.

(** What the current loop pushes for one group. *)
Lemma group_mappings_spec (originalTable generatedTable : LineTable)
    (group : option Offsets) :
  group_mappings originalTable generatedTable group
  = match group with
    | Some {| src := (s0, s1); dst := Some (d0, d1) |} =>
        [mapping_of (find originalTable s0) (find generatedTable d0);
         mapping_of (find originalTable s1) (find generatedTable d1)]
    | _ => []
    end.
Proof. by destruct group as [[[s0 s1] [[d0 d1]|]]|]. Qed.

(** C1. The claim fails on the code: the callback of [filter] answers
    [false] for a duplicate and nothing at all for any other record, so
    no record is kept, for any input; for the license comment alone the
    loop pushes two records with different generated positions and the
    returned list is empty. *)
Theorem createSourceMap_drops_every_mapping :
  (forall original generated ast,
     mappings (createSourceMap original generated ast) = []) /\
  pushed_mappings license_text license_output license_ast
  = [mapping_of {| line := 1; column := Num 1 |}
                {| line := 1; column := Num 1 |};
     mapping_of {| line := 1; column := Num 11 |}
                {| line := 1; column := Num 11 |}] /\
  mappings (createSourceMap license_text license_output license_ast) = [].
Proof.
  split; [intros; apply filter_mappings_nil|].
  split; [by vm_compute | apply filter_mappings_nil].
Qed.

(** C2. The claim fails on the older [createSourceMap]: for a group with
    both ranges it pushes the original start paired with the original
    end, and the generated start paired with the generated end, where
    the current loop pushes start with start and end with end. *)
Theorem legacy_pairs_start_with_end :
  (forall (originalMap generatedMap : LineTable) (group : option Offsets),
     Legacy.group_mappings originalMap generatedMap group
     = match group with
       | Some {| src := (s0, s1); dst := Some (d0, d1) |} =>
           [{| Legacy.original := find originalMap s0;
               Legacy.generated := find originalMap s1 |};
            {| Legacy.original := find generatedMap d0;
               Legacy.generated := find generatedMap d1 |}]
       | _ => []
       end) /\
  (forall (originalTable generatedTable : LineTable) (group : option Offsets),
     group_mappings originalTable generatedTable group
     = match group with
       | Some {| src := (s0, s1); dst := Some (d0, d1) |} =>
           [mapping_of (find originalTable s0) (find generatedTable d0);
            mapping_of (find originalTable s1) (find generatedTable d1)]
       | _ => []
       end) /\
  Legacy.createSourceMap moved_text moved_output moved_ast
  = [{| Legacy.original := {| line := 2; column := Num 1 |};
        Legacy.generated := {| line := 2; column := Num 9 |} |};
     {| Legacy.original := {| line := 1; column := Num 1 |};
        Legacy.generated := {| line := 1; column := Num 9 |} |}] /\
  pushed_mappings moved_text moved_output moved_ast
  = [mapping_of {| line := 2; column := Num 1 |}
                {| line := 1; column := Num 1 |};
     mapping_of {| line := 2; column := Num 9 |}
                {| line := 1; column := Num 9 |}].
Proof.
  split; [by intros ? ? [[[s0 s1] [[d0 d1]|]]|]|].
  split; [apply group_mappings_spec|].
  split; by vm_compute.
Qed.

Lemma group_mappings_fields (originalTable generatedTable : LineTable)
    (group : option Offsets) :
  Forall (fun m => originalSource m = None /\ name m = None)
    (group_mappings originalTable generatedTable group).
Proof.
  rewrite group_mappings_spec.
  destruct group as [[[s0 s1] [[d0 d1]|]]|]; repeat constructor.
Qed.

(** C9. For every input the returned map has no file, exactly one
    source, which has no url, no content and is not ignored, and every
    record, pushed or returned, has neither an original source nor a
    name; the returned records are among the pushed ones. *)
Theorem createSourceMap_shape (original generated : list Z)
    (ast : list AstNode) :
  file (createSourceMap original generated ast) = None /\
  sources (createSourceMap original generated ast)
  = [{| url := None; content := None; ignore := false |}] /\
  Forall (fun m => originalSource m = None /\ name m = None)
    (pushed_mappings original generated ast) /\
  Forall (fun m => originalSource m = None /\ name m = None)
    (mappings (createSourceMap original generated ast)) /\
  mappings (createSourceMap original generated ast)
  ⊆ pushed_mappings original generated ast.
Proof.
  split; [done|]. split; [done|].
  assert (Hpushed : Forall (fun m => originalSource m = None /\ name m = None)
    (pushed_mappings original generated ast)).
  { unfold pushed_mappings. generalize (walk ast node_groups). intros groups.
    induction groups as [|g groups IH]; simpl; [constructor|].
    apply Forall_app. split; [apply group_mappings_fields | exact IH]. }
  split; [exact Hpushed|].
  simpl. rewrite filter_mappings_nil.
  split; [constructor | apply list_subseteq_nil].
Qed.

(** ** The translation map *)

Section translations.
Context {V W : Type} (f : V -> W).

Lemma fold_insert_absent (l : list (string * V)) (acc : gmap string W)
    (k : string) :
  k ∉ l.*1 -> fold_left (record_entry f) l acc !! k = acc !! k.
Proof.
  revert acc. induction l as [|[k' v] l IH]; intros acc Hk; simpl; [done|].
  rewrite fmap_cons, not_elem_of_cons in Hk. destruct Hk as [Hne Hk].
  rewrite IH by done. by rewrite lookup_insert_ne.
Qed.

Lemma fold_insert_present (l : list (string * V)) (acc : gmap string W)
    (k : string) (v : V) :
  NoDup l.*1 -> (k, v) ∈ l -> fold_left (record_entry f) l acc !! k = Some (f v).
Proof.
  revert acc. induction l as [|[k' v'] l IH]; intros acc Hnd Hin; simpl.
  - inversion Hin.
  - rewrite fmap_cons in Hnd. apply NoDup_cons in Hnd as [Hk' Hnd].
    apply elem_of_cons in Hin as [[= <- <-] | Hin].
    + rewrite fold_insert_absent by done. apply lookup_insert_eq.
    + by apply IH.
Qed.

Lemma fold_insert_fmap (m : gmap string V) (k : string) :
  fold_left (record_entry f) (map_to_list m) ∅ !! k = f <$> m !! k.
Proof.
  destruct (m !! k) as [v|] eqn:E; simpl.
  - apply fold_insert_present; [apply NoDup_fst_map_to_list|].
    by apply elem_of_map_to_list.
  - rewrite fold_insert_absent; [apply lookup_empty|].
    intros ([k' v] & -> & Hin)%list_elem_of_fmap.
    apply elem_of_map_to_list in Hin. simpl in E. congruence.
Qed.
End translations.

(** C5. For every pair of texts and every node, and for every name, the
    translation map holds under that name what the node's offsets hold
    there, turned into the four positions: the original table's
    positions of the two [src] offsets, and the generated table's
    positions of the two [dst] offsets, these two being absent exactly
    when [dst] is. *)
Theorem createTranslationMap_entries (original generated : list Z)
    (node : AstNode) (name : string) :
  createTranslationMap original generated node !! name
  = (fun offsets : Offsets =>
       (find (createLineTable original) (fst (src offsets)),
        find (createLineTable original) (snd (src offsets)),
        (fun d : Z * Z => find (createLineTable generated) (fst d))
          <$> dst offsets,
        (fun d : Z * Z => find (createLineTable generated) (snd d))
          <$> dst offsets))
    <$> node_offsets node !! name.
Proof.
  unfold createTranslationMap.
  rewrite <- (fold_insert_fmap _ (node_offsets node) name).
  reflexivity.
Qed.

(** ** The parser *)

Module CssFacts.
Import Css.

#[local] Arguments scan : simpl never.

Lemma scan_cons (st : pstate) (c : Z) (rest : list Z) :
  scan st (c :: rest)
  = match step st c (head rest) with
    | Parsed st' => scan st' rest
    | Failed e => Failed e
    end.
Proof. reflexivity. Qed.

(** Comparisons of a code unit with the named constants. *)
Ltac unit_facts :=
  unfold raw_unit, name_unit, plain_unit, value_unit, space_unit,
    license in *;
  repeat match goal with
  | H : _ ∉ _ :: _ |- _ => apply not_elem_of_cons in H as [? H]
  | H : _ ∉ [] |- _ => clear H
  end.

Ltac unit_cases :=
  unfold is_quote, is_space, next_is, starts_with in *;
  repeat match goal with
  | |- context [Z.eqb ?a ?b] =>
      destruct (Z.eqb_spec a b);
      try (exfalso; congruence); try (exfalso; lia);
      try discriminate; cbn [andb orb negb]
  end.

(** *** Strings *)

Lemma scan_string_content (q : Z) (s : list Z) :
  string_content q s ->
  forall (r : option nat) (acc buf : list Z) (sp : bool) (t : tree)
    (rest : list Z),
    scan (mkState (InString r q acc) NoCarry buf sp t) (s ++ rest)
    = scan (mkState (InString r q (acc ++ s)) NoCarry buf sp t) rest.
Proof.
  induction 1 as [|c s Hb Hq Hl Hs IH|c s Hs IH]; intros r acc buf sp t rest.
  - by rewrite app_nil_r.
  - simpl app. rewrite scan_cons. cbn [step]. unfold step_string.
    unit_cases. rewrite IH. by rewrite <- app_assoc.
  - simpl app. rewrite scan_cons. cbn [step]. unfold step_string.
    rewrite Z.eqb_refl. rewrite scan_cons. cbn [step].
    rewrite IH. by rewrite <- !app_assoc.
Qed.

Lemma scan_open_string (st : pstate) (q : Z) (rest : list Z) :
  (current st = Default \/ exists d, current st = InCustomPropertyValue d) ->
  carried st = NoCarry ->
  is_quote q = true ->
  scan st (q :: rest)
  = scan (mkState
            (InString (match current st with
                       | InCustomPropertyValue d => Some d
                       | _ => None
                       end) q [])
            NoCarry (buffer st) (space st) (built st)) rest.
Proof.
  destruct st as [m ca buf sp t]. simpl.
  intros Hm -> Hq.
  assert (q = SINGLE_QUOTE \/ q = DOUBLE_QUOTE) as Hq'.
  { unfold is_quote in Hq. apply orb_prop in Hq. lia. }
  destruct Hm as [-> | [d ->]]; unfold step_default, step_custom;
    destruct Hq' as [-> | ->]; reflexivity.
Qed.

Lemma scan_string_stays_open (q : Z) (s rest : list Z) (r : option nat)
    (buf : list Z) (sp : bool) (t : tree) :
  is_quote q = true ->
  string_content q s ->
  rest = [] \/ head rest = Some LINE_BREAK ->
  scan (mkState (InString r q []) NoCarry buf sp t) (s ++ rest)
  = Failed (UnterminatedString q s).
Proof.
  intros Hq Hs Hrest. rewrite (scan_string_content q s Hs). simpl.
  destruct Hrest as [-> | Hrest]; [done|].
  destruct rest as [|c rest]; [done|]. injection Hrest as ->.
  rewrite scan_cons. cbn [step]. unfold step_string.
  assert (q = SINGLE_QUOTE \/ q = DOUBLE_QUOTE) as [-> | ->]
    by (unfold is_quote in Hq; apply orb_prop in Hq; lia); reflexivity.
Qed.

(** *** Comments *)

Lemma scan_interior (i : list Z) :
  interior i ->
  forall (r : option nat) (acc buf : list Z) (sp : bool) (t : tree)
    (rest : list Z),
    scan (mkState (InComment r acc) NoCarry buf sp t)
      (i ++ ASTERISK :: SLASH :: rest)
    = scan (end_comment r (acc ++ i) [ASTERISK; SLASH] NoCarry buf sp t) rest.
Proof.
  induction 1 as [|c i Hb Ha Hi IH|i Hh Hi IH|c i Hi IH];
    intros r acc buf sp t rest.
  - rewrite app_nil_r. simpl app. rewrite scan_cons. cbn [step].
    unfold step_comment. simpl. by destruct r.
  - simpl app. rewrite scan_cons. cbn [step]. unfold step_comment.
    unit_cases. rewrite IH. by rewrite <- app_assoc.
  - simpl app. rewrite scan_cons. cbn [step]. unfold step_comment.
    assert (next_is SLASH (head (i ++ ASTERISK :: SLASH :: rest)) = false)
      as ->.
    { destruct i as [|x i]; [done|]. simpl in *.
      apply Z.eqb_neq. congruence. }
    simpl. rewrite IH. by rewrite <- app_assoc.
  - simpl app. rewrite scan_cons. cbn [step]. unfold step_comment.
    rewrite Z.eqb_refl. rewrite scan_cons. cbn [step].
    rewrite IH. by rewrite <- !app_assoc.
Qed.

(** A whole comment met in a statement: a license comment is added to
    the license comments, any other comment leaves the state as it
    was. *)
Lemma scan_comment (i rest buf : list Z) (sp : bool) (t : tree) :
  interior i ->
  scan (mkState Default NoCarry buf sp t)
    (SLASH :: ASTERISK :: i ++ ASTERISK :: SLASH :: rest)
  = scan (mkState Default NoCarry buf sp
            (if starts_with EXCLAMATION_MARK i then add_license i t else t))
      rest.
Proof.
  intros Hi. rewrite scan_cons. simpl. rewrite scan_cons. simpl.
  by rewrite (scan_interior i Hi).
Qed.

(** A whole comment met in the raw value of a custom property. *)
Lemma scan_raw_comment (i rest buf : list Z) (sp : bool) (t : tree)
    (d : nat) :
  interior i ->
  scan (mkState (InCustomPropertyValue d) NoCarry buf sp t)
    (SLASH :: ASTERISK :: i ++ ASTERISK :: SLASH :: rest)
  = scan (mkState (InCustomPropertyValue d) NoCarry
            (push buf sp (SLASH :: ASTERISK :: i ++ [ASTERISK; SLASH]))
            false t)
      rest.
Proof.
  intros Hi. rewrite scan_cons. simpl. rewrite scan_cons. simpl.
  by rewrite (scan_interior i Hi).
Qed.

(** *** Raw blocks *)

Ltac same_text :=
  unfold push; simpl; repeat (rewrite <- app_assoc; simpl); done.

Lemma quote_cases (q : Z) :
  is_quote q = true -> q = SINGLE_QUOTE \/ q = DOUBLE_QUOTE.
Proof. unfold is_quote. intros H. apply orb_prop in H. lia. Qed.

Lemma scan_close_string (q : Z) (s rest buf : list Z) (sp : bool) (t : tree)
    (r : option nat) :
  is_quote q = true ->
  scan (mkState (InString r q s) NoCarry buf sp t) (q :: rest)
  = scan (mkState (resume_mode r) NoCarry (push buf sp (q :: s ++ [q]))
            false t) rest.
Proof.
  intros [-> | ->]%quote_cases; rewrite scan_cons; reflexivity.
Qed.

Lemma scan_raw (t : list Z) :
  raw t ->
  forall (d : nat) (buf : list Z) (tr : tree) (rest : list Z),
    scan (mkState (InCustomPropertyValue (S d)) NoCarry buf false tr)
      (t ++ rest)
    = scan (mkState (InCustomPropertyValue (S d)) NoCarry (buf ++ t) false tr)
        rest.
Proof.
  induction 1 as [|c t Hc Ht IH|c t Hc Ht IH|c t Ht IH|i t Hi Ht IH
                  |q s t Hq Hs Ht IH|b t Hb IHb Ht IHt];
    intros d buf tr rest.
  - by rewrite app_nil_r.
  - simpl app. rewrite scan_cons. cbn [step]. unfold step_custom.
    unit_facts. unit_cases; unfold push; simpl;
      rewrite IH; by rewrite <- app_assoc.
  - change ((SLASH :: c :: t) ++ rest) with (SLASH :: (c :: t) ++ rest).
    rewrite scan_cons. cbn [step]. unfold step_custom.
    change (head ((c :: t) ++ rest)) with (Some c).
    unfold next_is. rewrite (proj2 (Z.eqb_neq c ASTERISK)) by done.
    simpl. simpl app in IH. rewrite IH. unfold push. simpl.
    by rewrite <- app_assoc.
  - simpl app. rewrite scan_cons. cbn [step]. unfold step_custom.
    rewrite Z.eqb_refl. rewrite scan_cons. cbn [step].
    rewrite IH. unfold push. simpl. by rewrite <- !app_assoc.
  - change ((SLASH :: ASTERISK :: i ++ ASTERISK :: SLASH :: t) ++ rest)
      with (SLASH :: ASTERISK :: (i ++ ASTERISK :: SLASH :: t) ++ rest).
    rewrite <- app_assoc. simpl app.
    rewrite (scan_raw_comment i _ _ _ _ _ Hi), IH.
    same_text.
  - simpl app. rewrite scan_open_string by (simpl; eauto).
    simpl. rewrite <- app_assoc. rewrite (scan_string_content q s Hs).
    simpl app. rewrite scan_close_string by done. simpl resume_mode.
    rewrite IH. same_text.
  - simpl app. rewrite scan_cons. cbn [step]. unfold step_custom.
    simpl. rewrite <- app_assoc. rewrite IHb.
    simpl app. rewrite scan_cons. cbn [step]. unfold step_custom.
    simpl. rewrite IHt. same_text.
Qed.

(** *** Text helpers *)

Lemma trim_start_id (t : list Z) :
  match t with c :: _ => is_space c = false | [] => True end ->
  trim_start t = t.
Proof. destruct t as [|c t]; [done|]. simpl. by intros ->. Qed.

Ltac not_among :=
  rewrite ?not_elem_of_cons; repeat split;
  try apply not_elem_of_nil; try done; try (by compute).

Lemma space_cases (c : Z) :
  space_unit c -> c = SPACE \/ c = LINE_BREAK \/ c = TAB.
Proof.
  unfold space_unit, is_space. intros H.
  apply orb_prop in H as [H | H]; [apply orb_prop in H as [H | H]|]; lia.
Qed.

Lemma trim_start_spaces (ws t : list Z) :
  Forall space_unit ws -> trim_start (ws ++ t) = trim_start t.
Proof.
  induction 1 as [|c ws Hc Hws IH]; [done|].
  simpl. unfold space_unit in Hc. by rewrite Hc.
Qed.

Lemma trim_end_snoc (t : list Z) (c : Z) :
  is_space c = false -> trim_end (t ++ [c]) = t ++ [c].
Proof.
  intros Hc. unfold trim_end. rewrite rev_app_distr. simpl.
  rewrite Hc. simpl. by rewrite rev_involutive.
Qed.

Lemma trim_no_space (t : list Z) :
  Forall (fun c => is_space c = false) t -> trim t = t.
Proof.
  intros Ht. unfold trim.
  rewrite trim_start_id by (by destruct Ht).
  destruct t as [|c t _] using rev_ind; [done|].
  apply trim_end_snoc.
  apply Forall_app in Ht as [_ Ht]. by inversion Ht.
Qed.

Lemma split_colon_app (a r : list Z) :
  COLON ∉ a -> split_colon (a ++ COLON :: r) = Some (a, r).
Proof.
  induction a as [|c a IH]; intros Ha; simpl; [done|].
  apply not_elem_of_cons in Ha as [Hc Ha].
  rewrite (proj2 (Z.eqb_neq c COLON)) by done. by rewrite IH.
Qed.

Lemma strip_suffix_Some (suffix t p : list Z) :
  strip_suffix suffix t = Some p -> t = p ++ suffix.
Proof.
  unfold strip_suffix. case_decide as E; [|done].
  intros [= <-]. rewrite <- E at 2. by rewrite take_drop.
Qed.

Lemma strip_important_curly (t : list Z) :
  strip_suffix (units "!important") (t ++ [CLOSE_CURLY]) = None.
Proof.
  destruct (strip_suffix _ _) as [p|] eqn:E; [|done].
  apply strip_suffix_Some in E.
  change (units "!important") with (units "!importan" ++ [116]) in E.
  rewrite app_assoc in E. by apply app_inj_tail in E as [_ ?].
Qed.

(** The declaration read from the text of a custom property whose value
    is a block. *)
Lemma parseDeclaration_block (name b : list Z) (sp : bool) :
  Forall name_unit name ->
  parseDeclaration
    (push (DASH :: DASH :: name ++ [COLON]) sp (OPEN_CURLY :: b ++ [CLOSE_CURLY]))
  = Declaration (DASH :: DASH :: name) (OPEN_CURLY :: b ++ [CLOSE_CURLY]) false.
Proof.
  intros Hname. unfold parseDeclaration, push.
  replace ((DASH :: DASH :: name ++ [COLON])
           ++ (if sp then [SPACE] else []) ++ OPEN_CURLY :: b ++ [CLOSE_CURLY])
    with ((DASH :: DASH :: name)
          ++ COLON :: (if sp then [SPACE] else [])
          ++ OPEN_CURLY :: b ++ [CLOSE_CURLY])
    by (simpl; by rewrite <- app_assoc).
  rewrite split_colon_app.
  2:{ rewrite !not_elem_of_cons. do 2 (split; [by compute|]).
      intros Hin. rewrite Forall_forall in Hname.
      specialize (Hname _ Hin). unit_facts. done. }
  assert (Hvalue : trim ((if sp then [SPACE] else [])
                         ++ OPEN_CURLY :: b ++ [CLOSE_CURLY])
                   = OPEN_CURLY :: b ++ [CLOSE_CURLY]).
  { unfold trim. rewrite trim_start_spaces by (destruct sp; repeat constructor).
    rewrite trim_start_id by done.
    rewrite app_comm_cons. by apply trim_end_snoc. }
  rewrite Hvalue, app_comm_cons, strip_important_curly.
  f_equal. apply trim_no_space.
  do 2 (constructor; [done|]).
  eapply Forall_impl; [exact Hname|]. intros c Hc. simpl. unit_facts.
  unfold is_space. unit_cases. done.
Qed.

(** *** Custom properties *)

Lemma scan_custom_spaces (ws : list Z) :
  Forall space_unit ws ->
  forall (buf : list Z) (sp : bool) (tr : tree) (rest : list Z),
    scan (mkState (InCustomPropertyValue 0) NoCarry buf sp tr) (ws ++ rest)
    = scan (mkState (InCustomPropertyValue 0) NoCarry buf
              (sp || negb (is_empty ws)) tr) rest.
Proof.
  induction 1 as [|c ws Hc Hws IH]; intros buf sp tr rest.
  - simpl. by rewrite orb_false_r.
  - simpl app. rewrite scan_cons. cbn [step]. unfold step_custom.
    apply space_cases in Hc as [-> | [-> | ->]];
      simpl; rewrite IH; simpl; by rewrite orb_true_r.
Qed.

(** The code units of a name are copied into the statement. *)
Lemma scan_name_units (t : list Z) :
  Forall name_unit t ->
  forall (buf : list Z) (tr : tree) (rest : list Z),
    scan (mkState Default NoCarry buf false tr) (t ++ rest)
    = scan (mkState Default NoCarry (buf ++ t) false tr) rest.
Proof.
  induction 1 as [|c t Hc Ht IH]; intros buf tr rest.
  - by rewrite app_nil_r.
  - simpl app. rewrite scan_cons. cbn [step]. unfold step_default.
    unit_facts. unit_cases. unfold push. simpl. rewrite IH. same_text.
Qed.

(** The start of a custom property, up to and including its colon. *)
Lemma scan_custom_start (name rest : list Z) (tr : tree) :
  Forall name_unit name ->
  scan (mkState Default NoCarry [] false tr)
    (DASH :: DASH :: name ++ COLON :: rest)
  = scan (mkState (InCustomPropertyValue 0) NoCarry
            (DASH :: DASH :: name ++ [COLON]) false tr) rest.
Proof.
  intros Hname.
  change (DASH :: DASH :: name ++ COLON :: rest)
    with ((DASH :: DASH :: name) ++ COLON :: rest).
  rewrite scan_name_units.
  2:{ do 2 (constructor; [unfold name_unit; not_among|]). done. }
  rewrite scan_cons. simpl. same_text.
Qed.

Lemma scan_custom_block (name ws b rest : list Z) (tr : tree) :
  Forall name_unit name -> Forall space_unit ws -> raw b ->
  scan (mkState Default NoCarry [] false tr)
    (DASH :: DASH :: name ++ COLON :: ws
     ++ OPEN_CURLY :: b ++ CLOSE_CURLY :: SEMICOLON :: rest)
  = scan (mkState Default NoCarry [] false
            (add_node
               (Declaration (DASH :: DASH :: name)
                  (OPEN_CURLY :: b ++ [CLOSE_CURLY]) false) tr)) rest.
Proof.
  intros Hname Hws Hb.
  rewrite scan_custom_start, scan_custom_spaces by done.
  rewrite scan_cons. simpl. rewrite scan_raw by done.
  rewrite scan_cons. simpl. rewrite scan_cons. simpl.
  do 2 f_equal. f_equal.
  rewrite <- (parseDeclaration_block name b (negb (is_empty ws))) by done.
  f_equal. same_text.
Qed.

Lemma scan_custom_escape (d : nat) (c : Z) (buf rest : list Z) (sp : bool)
    (tr : tree) :
  scan (mkState (InCustomPropertyValue d) NoCarry buf sp tr)
    (BACKSLASH :: c :: rest)
  = scan (mkState (InCustomPropertyValue d) NoCarry
            (push buf sp [BACKSLASH; c]) false tr) rest.
Proof. rewrite scan_cons. simpl. rewrite scan_cons. simpl. same_text. Qed.

Lemma parseDeclaration_empty (name : list Z) :
  Forall name_unit name ->
  parseDeclaration (DASH :: DASH :: name ++ [COLON])
  = Declaration (DASH :: DASH :: name) [] false.
Proof.
  intros Hname. unfold parseDeclaration.
  change (DASH :: DASH :: name ++ [COLON])
    with ((DASH :: DASH :: name) ++ [COLON]).
  rewrite split_colon_app.
  2:{ rewrite !not_elem_of_cons. do 2 (split; [by compute|]).
      intros Hin. rewrite Forall_forall in Hname.
      specialize (Hname _ Hin). unit_facts. done. }
  change (strip_suffix (units "!important") (trim [])) with (@None (list Z)).
  f_equal. apply trim_no_space.
  do 2 (constructor; [done|]).
  eapply Forall_impl; [exact Hname|]. intros c Hc. simpl. unit_facts.
  unfold is_space. unit_cases. done.
Qed.

Lemma scan_custom_empty (name ws rest : list Z) (tr : tree) :
  Forall name_unit name -> Forall space_unit ws ->
  scan (mkState Default NoCarry [] false tr)
    (DASH :: DASH :: name ++ COLON :: ws ++ SEMICOLON :: rest)
  = scan (mkState Default NoCarry [] false
            (add_node (Declaration (DASH :: DASH :: name) [] false) tr)) rest.
Proof.
  intros Hname Hws.
  rewrite scan_custom_start, scan_custom_spaces by done.
  rewrite scan_cons. simpl. by rewrite parseDeclaration_empty.
Qed.

Lemma normalize_id (t : list Z) :
  CARRIAGE_RETURN ∉ t -> normalize t = t.
Proof.
  induction t as [|c t IH]; [done|].
  intros [Hc Ht]%not_elem_of_cons. simpl.
  rewrite (proj2 (Z.eqb_neq c CARRIAGE_RETURN)) by done. simpl.
  by rewrite IH.
Qed.

Lemma parse_no_return (input : list Z) :
  CARRIAGE_RETURN ∉ input -> parse input = scan initial input.
Proof. intros H. unfold parse. by rewrite normalize_id. Qed.

(** A block in braces met anywhere in a raw value is copied as it is. *)
Lemma scan_raw_block (b rest buf : list Z) (sp : bool) (tr : tree) (d : nat) :
  raw b ->
  scan (mkState (InCustomPropertyValue d) NoCarry buf sp tr)
    (OPEN_CURLY :: b ++ CLOSE_CURLY :: rest)
  = scan (mkState (InCustomPropertyValue d) NoCarry
            (push buf sp (OPEN_CURLY :: b ++ [CLOSE_CURLY])) false tr) rest.
Proof.
  intros Hb. rewrite scan_cons. simpl. rewrite scan_raw by done.
  rewrite scan_cons. simpl. f_equal. f_equal. same_text.
Qed.

(** *** Statements written in pieces *)

Lemma statement_text_extends (ps : list piece) :
  forall (buf : list Z) (sp : bool),
    exists w, fst (statement_text buf sp ps) = buf ++ w.
Proof.
  induction ps as [|p ps IH]; intros buf sp.
  - exists []. by rewrite app_nil_r.
  - destruct p as [c|c|q s|i|c]; simpl; try (by apply IH).
    + destruct (IH (push buf sp [c]) false) as [w Hw].
      eexists. rewrite Hw. unfold push. by rewrite <- !app_assoc.
    + destruct (IH (push buf sp [BACKSLASH; c]) false) as [w Hw].
      eexists. rewrite Hw. unfold push. by rewrite <- !app_assoc.
    + destruct (IH (push buf sp (q :: s ++ [q])) false)
        as [w Hw].
      eexists. rewrite Hw. unfold push. by rewrite <- !app_assoc.
Qed.

Lemma custom_property_prefix (buf w : list Z) :
  custom_property (buf ++ w) = false -> custom_property buf = false.
Proof. destruct buf as [|a [|b buf]]; simpl; done. Qed.

Lemma ordinary_after_colon (buf : list Z) (sp : bool) (ps : list piece) :
  ordinary_after buf sp (Unit COLON :: ps) -> custom_property buf = false.
Proof.
  intros [H | H].
  - simpl in H.
    destruct (statement_text_extends ps (push buf sp [COLON]) false) as [w Hw].
    rewrite Hw in H. unfold push in H. rewrite <- app_assoc in H.
    by apply custom_property_prefix in H.
  - exfalso. apply H. by left.
Qed.

Lemma ordinary_after_tail (buf : list Z) (sp : bool) (p : piece)
    (ps : list piece) (buf' : list Z) (sp' : bool) :
  statement_text buf sp (p :: ps) = statement_text buf' sp' ps ->
  ordinary_after buf sp (p :: ps) -> ordinary_after buf' sp' ps.
Proof.
  intros Heq [H | H].
  - left. by rewrite <- Heq.
  - right. intros Hin. apply H. by right.
Qed.

Lemma head_app_text (t rest : list Z) :
  head t <> Some ASTERISK -> head rest <> Some ASTERISK ->
  head (t ++ rest) <> Some ASTERISK.
Proof. by destruct t. Qed.

(** Pieces are read as they are written: the statement grows by what
    [statement_text] says, comments only reach the license comments. *)
Lemma scan_phrase (ps : list piece) :
  phrase ps ->
  forall (buf : list Z) (sp : bool) (tr : tree) (rest : list Z),
    ordinary_after buf sp ps ->
    head rest <> Some ASTERISK ->
    exists tr',
      scan (mkState Default NoCarry buf sp tr) (text_of ps ++ rest)
      = scan (mkState Default NoCarry (fst (statement_text buf sp ps))
                (snd (statement_text buf sp ps)) tr') rest /\
      parents tr' = parents tr /\ ast tr' = ast tr.
Proof.
  induction 1 as [|c ps Hc Hslash Hps IH|c ps Hps IH|q s ps Hq Hs Hps IH
                  |i ps Hi Hps IH|c ps Hc Hps IH];
    intros buf sp tr rest Hord Hrest.
  - by exists tr.
  - assert (Hnext : c = SLASH ->
              next_is ASTERISK (head (text_of ps ++ rest)) = false).
    { intros ->. specialize (Hslash eq_refl).
      pose proof (head_app_text (text_of ps) rest Hslash Hrest) as Hh.
      destruct (head (text_of ps ++ rest)) as [x|]; [|done].
      simpl. apply Z.eqb_neq. congruence. }
    assert (Hcolon : c = COLON -> custom_property buf = false).
    { intros ->. by apply ordinary_after_colon in Hord. }
    destruct (IH (push buf sp [c]) false tr rest) as (tr' & Hscan & Htr');
      [by eapply ordinary_after_tail; [|exact Hord] | done |].
    exists tr'. split; [|done].
    change (text_of (Unit c :: ps) ++ rest) with (c :: text_of ps ++ rest).
    rewrite scan_cons. cbn [step]. unfold step_default.
    unit_facts.
    destruct (Z.eqb_spec c SLASH) as [Es|Es].
    + rewrite (Hnext Es). subst c. exact Hscan.
    + destruct (Z.eqb_spec c COLON) as [Ec|Ec].
      * rewrite (Hcolon Ec). subst c. exact Hscan.
      * unit_cases. exact Hscan.
  - destruct (IH (push buf sp [BACKSLASH; c]) false tr rest)
      as (tr' & Hscan & Htr');
      [by eapply ordinary_after_tail; [|exact Hord] | done |].
    exists tr'. split; [|done].
    change (text_of (Escaped c :: ps) ++ rest)
      with (BACKSLASH :: c :: text_of ps ++ rest).
    rewrite scan_cons. simpl. rewrite scan_cons. simpl.
    simpl in Hscan. rewrite <- Hscan. f_equal. f_equal. same_text.
  - destruct (IH (push buf sp (q :: s ++ [q])) false tr rest)
      as (tr' & Hscan & Htr');
      [by eapply ordinary_after_tail; [|exact Hord] | done |].
    exists tr'. split; [|done].
    unfold text_of. simpl flat_map. change (flat_map piece_text ps) with (text_of ps).
    rewrite <- !app_assoc. simpl app.
    rewrite scan_open_string by (simpl; eauto). simpl.
    repeat (rewrite <- app_assoc; simpl app).
    rewrite (scan_string_content q s Hs), scan_close_string by done.
    exact Hscan.
  - destruct (IH buf sp
                (if starts_with EXCLAMATION_MARK i then add_license i tr
                 else tr) rest) as (tr' & Hscan & Htr');
      [by eapply ordinary_after_tail; [|exact Hord] | done |].
    exists tr'. split; [|by destruct (starts_with _ _)].
    unfold text_of. simpl flat_map. change (flat_map piece_text ps) with (text_of ps).
    repeat (rewrite <- app_assoc; simpl app).
    rewrite scan_comment by done. exact Hscan.
  - destruct (IH buf (negb (is_empty buf)) tr rest) as (tr' & Hscan & Htr');
      [by eapply ordinary_after_tail; [|exact Hord] | done |].
    exists tr'. split; [|done].
    change (text_of (Blank c :: ps) ++ rest) with (c :: text_of ps ++ rest).
    rewrite scan_cons. cbn [step]. unfold step_default.
    apply space_cases in Hc as [-> | [-> | ->]]; exact Hscan.
Qed.

(** *** Raw values *)

(** Texts written with nested concatenations, flattened. *)
Ltac flat_text := simpl app; repeat (rewrite <- app_assoc; simpl app).

(** Comparisons with code units that are known to differ. *)
Ltac units_differ :=
  repeat match goal with
  | H : ?c <> ?x |- context [Z.eqb ?c ?x] =>
      rewrite (proj2 (Z.eqb_neq c x) H)
  end.

(** The text of a raw value is copied after what the statement holds;
    white space at the top of the value may leave a space pending. *)
Lemma scan_value (v : list Z) :
  value_text v ->
  forall (buf : list Z) (sp : bool) (tr : tree) (rest : list Z),
    head rest <> Some ASTERISK ->
    exists (w : list Z) (sp' : bool),
      scan (mkState (InCustomPropertyValue 0) NoCarry buf sp tr) (v ++ rest)
      = scan (mkState (InCustomPropertyValue 0) NoCarry (buf ++ w) sp' tr)
          rest.
Proof.
  induction 1 as [|c t Hc Ht IH|c t Hc Ht IH| |c t Ht IH|i t Hi Ht IH
                  |q s t Hq Hs Ht IH|b t Hb Ht IH];
    intros buf sp tr rest Hrest.
  - exists [], sp. by rewrite app_nil_r.
  - simpl app. rewrite scan_cons. cbn [step]. unfold step_custom.
    unit_facts. unfold is_quote. units_differ. cbn [andb orb].
    destruct (is_space c) eqn:Espace.
    + destruct (IH buf true tr rest Hrest) as (w & sp' & Hscan).
      by exists w, sp'.
    + destruct (IH (push buf sp [c]) false tr rest Hrest) as (w & sp' & Hscan).
      exists ((if sp then [SPACE] else []) ++ [c] ++ w), sp'.
      rewrite Hscan. f_equal. f_equal. same_text.
  - destruct (IH (push buf sp [SLASH]) false tr rest Hrest)
      as (w & sp' & Hscan).
    exists ((if sp then [SPACE] else []) ++ [SLASH] ++ w), sp'.
    change ((SLASH :: c :: t) ++ rest) with (SLASH :: (c :: t) ++ rest).
    rewrite scan_cons. cbn [step]. unfold step_custom.
    change (head ((c :: t) ++ rest)) with (Some c).
    unfold next_is. rewrite (proj2 (Z.eqb_neq c ASTERISK)) by done.
    simpl. simpl in Hscan. rewrite Hscan. f_equal. f_equal. same_text.
  - exists ((if sp then [SPACE] else []) ++ [SLASH]), false.
    simpl app. rewrite scan_cons. cbn [step]. unfold step_custom.
    assert (next_is ASTERISK (head rest) = false) as ->.
    { destruct rest as [|x rest]; [done|]. simpl in *.
      apply Z.eqb_neq. congruence. }
    simpl. f_equal.
  - destruct (IH (push buf sp [BACKSLASH; c]) false tr rest Hrest)
      as (w & sp' & Hscan).
    exists ((if sp then [SPACE] else []) ++ [BACKSLASH; c] ++ w), sp'.
    simpl app. rewrite scan_custom_escape, Hscan. f_equal. f_equal. same_text.
  - destruct (IH (push buf sp (SLASH :: ASTERISK :: i ++ [ASTERISK; SLASH]))
                false tr rest Hrest) as (w & sp' & Hscan).
    exists ((if sp then [SPACE] else [])
            ++ (SLASH :: ASTERISK :: i ++ [ASTERISK; SLASH]) ++ w), sp'.
    flat_text.
    rewrite scan_raw_comment, Hscan by done. f_equal. f_equal. same_text.
  - destruct (IH (push buf sp (q :: s ++ [q])) false tr rest Hrest)
      as (w & sp' & Hscan).
    exists ((if sp then [SPACE] else []) ++ (q :: s ++ [q]) ++ w), sp'.
    simpl app. rewrite scan_open_string by (simpl; eauto). simpl.
    flat_text.
    rewrite (scan_string_content q s Hs), scan_close_string by done.
    simpl resume_mode. simpl app. rewrite Hscan. f_equal. f_equal. same_text.
  - destruct (IH (push buf sp (OPEN_CURLY :: b ++ [CLOSE_CURLY])) false tr
                rest Hrest) as (w & sp' & Hscan).
    exists ((if sp then [SPACE] else [])
            ++ (OPEN_CURLY :: b ++ [CLOSE_CURLY]) ++ w), sp'.
    flat_text.
    rewrite scan_raw_block, Hscan by done. f_equal. f_equal. same_text.
Qed.

(** Text that is kept is copied as it is written. *)
Lemma scan_kept (x : list Z) :
  kept x ->
  forall (d : nat) (buf : list Z) (sp : bool) (tr : tree) (rest : list Z),
    scan (mkState (InCustomPropertyValue d) NoCarry buf sp tr) (x ++ rest)
    = scan (mkState (InCustomPropertyValue d) NoCarry (push buf sp x) false tr)
        rest.
Proof.
  intros [b Hb|i Hi|] d buf sp tr rest;
    flat_text.
  - by apply scan_raw_block.
  - by apply scan_raw_comment.
  - apply scan_custom_escape.
Qed.

(** Text that is kept starts and ends with code units that are no
    white space, and its last unit is none of [!important]. *)
Lemma kept_shape (x : list Z) :
  kept x ->
  exists (h : Z) (m : list Z) (l : Z),
    x = h :: m ++ [l] /\ is_space h = false /\ is_space l = false /\
    (l ∉ units "!important") /\ h <> ASTERISK.
Proof.
  intros [b Hb|i Hi|].
  - exists OPEN_CURLY, b, CLOSE_CURLY. repeat split; try done.
    refine (bool_decide_unpack _ _). by vm_compute.
  - exists SLASH, (ASTERISK :: i ++ [ASTERISK]), SLASH.
    split; [simpl; by rewrite <- app_assoc|]. repeat split; try done.
    refine (bool_decide_unpack _ _). by vm_compute.
  - exists BACKSLASH, [], SEMICOLON. repeat split; try done.
    refine (bool_decide_unpack _ _). by vm_compute.
Qed.

Lemma trim_start_keeps (a x : list Z) (h : Z) :
  head x = Some h -> is_space h = false ->
  exists a', trim_start (a ++ x) = a' ++ x.
Proof.
  intros Hh Hs. induction a as [|c a IH].
  - exists []. simpl. destruct x as [|y x]; [done|].
    injection Hh as ->. simpl. by rewrite Hs.
  - simpl. destruct (is_space c); [done|]. by exists (c :: a).
Qed.

Lemma trim_keeps (a b m : list Z) (h l : Z) :
  is_space h = false -> is_space l = false ->
  exists a' b',
    trim (a ++ (h :: m ++ [l]) ++ b) = a' ++ (h :: m ++ [l]) ++ b'.
Proof.
  intros Hh Hl. unfold trim.
  destruct (trim_start_keeps a ((h :: m ++ [l]) ++ b) h eq_refl Hh)
    as [a' ->].
  unfold trim_end.
  rewrite !rev_app_distr.
  destruct (trim_start_keeps (rev b) (rev (h :: m ++ [l]) ++ rev a') l)
    as [b' Hb'].
  { simpl. by rewrite rev_app_distr. }
  { done. }
  rewrite <- app_assoc, Hb'.
  exists a', (rev b'). by rewrite !rev_app_distr, !rev_involutive, app_assoc.
Qed.

Lemma prefix_before (s l1 m p : list Z) (x : Z) :
  l1 ++ x :: m = s ++ p -> x ∉ s -> exists l1', l1 = s ++ l1'.
Proof.
  revert l1. induction s as [|y s IH]; intros l1 Heq Hx.
  - by exists l1.
  - apply not_elem_of_cons in Hx as [Hxy Hx].
    destruct l1 as [|z l1]; simpl in Heq.
    + injection Heq as -> _. done.
    + injection Heq as -> Heq.
      destruct (IH l1 Heq Hx) as [l1' ->]. by exists l1'.
Qed.

Lemma strip_suffix_keeps (suffix a b m p : list Z) (h l : Z) :
  l ∉ suffix ->
  strip_suffix suffix (a ++ (h :: m ++ [l]) ++ b) = Some p ->
  exists b', p = a ++ (h :: m ++ [l]) ++ b'.
Proof.
  intros Hl Hp. apply strip_suffix_Some in Hp.
  assert (Hrev : rev b ++ l :: rev (a ++ h :: m) = rev suffix ++ rev p).
  { rewrite <- rev_app_distr, <- Hp.
    rewrite (app_comm_cons m), !app_assoc, <- (app_assoc _ [l]).
    rewrite !rev_app_distr. simpl. by rewrite <- !app_assoc. }
  apply prefix_before in Hrev as [b' Hb'].
  2:{ intros Hin. apply Hl. apply list_elem_of_In, in_rev.
      by apply list_elem_of_In. }
  assert (b = rev b' ++ suffix) as ->.
  { rewrite <- (rev_involutive b), Hb', rev_app_distr.
    by rewrite rev_involutive. }
  exists (rev b'). apply (app_inv_tail suffix). rewrite <- Hp.
  flat_text. done.
Qed.

(** The declaration read from the text of a custom property whose value
    holds text that is kept: the text is in the value as it was
    written. *)
Lemma parseDeclaration_keeps (name w1 w2 x : list Z) :
  Forall name_unit name -> kept x ->
  exists (before after : list Z) (important : bool),
    parseDeclaration ((DASH :: DASH :: name ++ [COLON]) ++ w1 ++ x ++ w2)
    = Declaration (DASH :: DASH :: name) (before ++ x ++ after) important.
Proof.
  intros Hname (h & m & l & -> & Hh & Hl & Himp & _)%kept_shape.
  unfold parseDeclaration.
  replace ((DASH :: DASH :: name ++ [COLON]) ++ w1 ++ (h :: m ++ [l]) ++ w2)
    with ((DASH :: DASH :: name) ++ COLON :: w1 ++ (h :: m ++ [l]) ++ w2)
    by (by flat_text).
  rewrite split_colon_app.
  2:{ rewrite !not_elem_of_cons. do 2 (split; [by compute|]).
      intros Hin. rewrite Forall_forall in Hname.
      specialize (Hname _ Hin). unit_facts. done. }
  assert (Hprop : trim (DASH :: DASH :: name) = DASH :: DASH :: name).
  { apply trim_no_space. do 2 (constructor; [done|]).
    eapply Forall_impl; [exact Hname|]. intros c Hc. simpl. unit_facts.
    unfold is_space. unit_cases. done. }
  rewrite Hprop.
  destruct (trim_keeps w1 w2 m h l Hh Hl) as (a1 & b1 & ->).
  destruct (strip_suffix _ _) as [p|] eqn:Estrip.
  - apply strip_suffix_keeps in Estrip as [b2 ->]; [|done].
    destruct (trim_keeps a1 b2 m h l Hh Hl) as (a3 & b3 & ->).
    by exists a3, b3, true.
  - by exists a1, b1, false.
Qed.

(** *** Custom properties with text that is kept *)

Lemma head_kept (x rest : list Z) :
  kept x -> head (x ++ rest) <> Some ASTERISK.
Proof.
  intros (h & m & l & -> & _ & _ & _ & Hh)%kept_shape. simpl. congruence.
Qed.

(** A custom property whose value holds text that is kept, ended by a
    semicolon. *)
Lemma scan_custom_keeps (name v1 x v2 rest : list Z) (tr : tree) :
  Forall name_unit name -> value_text v1 -> kept x -> value_text v2 ->
  exists (before after : list Z) (important : bool),
    scan (mkState Default NoCarry [] false tr)
      (DASH :: DASH :: name ++ COLON :: v1 ++ x ++ v2 ++ SEMICOLON :: rest)
    = scan (mkState Default NoCarry [] false
              (add_node
                 (Declaration (DASH :: DASH :: name) (before ++ x ++ after)
                    important) tr)) rest.
Proof.
  intros Hname Hv1 Hx Hv2.
  rewrite scan_custom_start by done.
  destruct (scan_value v1 Hv1 (DASH :: DASH :: name ++ [COLON]) false tr
              (x ++ v2 ++ SEMICOLON :: rest)) as (w1 & sp1 & ->).
  { by apply head_kept. }
  rewrite (scan_kept x Hx).
  destruct (scan_value v2 Hv2
              (push ((DASH :: DASH :: name ++ [COLON]) ++ w1) sp1 x) false tr
              (SEMICOLON :: rest)) as (w2 & sp2 & ->); [done|].
  rewrite scan_cons. simpl.
  destruct (parseDeclaration_keeps name
              (w1 ++ (if sp1 then [SPACE] else [])) w2 x Hname Hx)
    as (before & after & important & Hdecl).
  exists before, after, important. rewrite <- Hdecl.
  do 4 f_equal. unfold push. flat_text. done.
Qed.

Lemma parse_normalized (input text : list Z) :
  normalize input = text -> parse input = scan initial text.
Proof. intros <-. reflexivity. Qed.

(** C7. A custom property whose value holds a block in braces, a
    comment, or a semicolon after a backslash: wherever the declaration
    starts a statement, that text is in the value of the declaration as
    it stands in the input (read with carriage return, line break as
    line break), with the semicolons and closing braces that stand in
    the comments and strings of the block and with the comments
    themselves; when the value is the block alone, it is the block, and
    the block of the example is captured verbatim.  A semicolon after a
    backslash leaves the value open; a custom property with nothing
    before its semicolon has the empty value. *)
Theorem custom_property_raw_capture (input name v1 x v2 ws b rest : list Z)
    (tr : tree) :
  Forall name_unit name ->
  value_text v1 -> kept x -> value_text v2 ->
  Forall space_unit ws -> raw b ->
  (exists (before after : list Z) (important : bool),
     scan (mkState Default NoCarry [] false tr)
       (DASH :: DASH :: name ++ COLON :: v1 ++ x ++ v2 ++ SEMICOLON :: rest)
     = scan (mkState Default NoCarry [] false
               (add_node
                  (Declaration (DASH :: DASH :: name) (before ++ x ++ after)
                     important) tr)) rest) /\
  (normalize input
   = DASH :: DASH :: name ++ COLON :: v1 ++ x ++ v2 ++ [SEMICOLON] ->
   exists (before after : list Z) (important : bool),
     parse input
     = Parsed [Declaration (DASH :: DASH :: name) (before ++ x ++ after)
                 important]) /\
  scan (mkState Default NoCarry [] false tr)
    (DASH :: DASH :: name ++ COLON :: ws
     ++ OPEN_CURLY :: b ++ CLOSE_CURLY :: SEMICOLON :: rest)
  = scan (mkState Default NoCarry [] false
            (add_node
               (Declaration (DASH :: DASH :: name)
                  (OPEN_CURLY :: b ++ [CLOSE_CURLY]) false) tr)) rest /\
  (normalize input
   = DASH :: DASH :: name ++ COLON :: ws
     ++ OPEN_CURLY :: b ++ [CLOSE_CURLY; SEMICOLON] ->
   parse input
   = Parsed [Declaration (DASH :: DASH :: name)
               (OPEN_CURLY :: b ++ [CLOSE_CURLY]) false]) /\
  parse (units "--foo: { a: 1; /* ; */ b: 2 };")
  = Parsed [Declaration (units "--foo") (units "{ a: 1; /* ; */ b: 2 }")
              false] /\
  parse (units "--foo: This is not the end \;, but this is;")
  = Parsed [Declaration (units "--foo")
              (units "This is not the end \;, but this is") false] /\
  (normalize input = DASH :: DASH :: name ++ COLON :: ws ++ [SEMICOLON] ->
   parse input = Parsed [Declaration (DASH :: DASH :: name) [] false]) /\
  parse (units "--foo: ;") = Parsed [Declaration (units "--foo") [] false].
Proof.
  intros Hname Hv1 Hx Hv2 Hws Hb.
  split; [by apply scan_custom_keeps|].
  split.
  { intros Hin. rewrite (parse_normalized _ _ Hin). unfold initial.
    destruct (scan_custom_keeps name v1 x v2 [] (mkTree [] [] []))
      as (before & after & important & Hscan); try done.
    exists before, after, important. by rewrite Hscan. }
  split; [by apply scan_custom_block|].
  split.
  { intros Hin. rewrite (parse_normalized _ _ Hin). unfold initial.
    by rewrite scan_custom_block. }
  split; [by vm_compute|].
  split; [by vm_compute|].
  split; [|by vm_compute].
  intros Hin. rewrite (parse_normalized _ _ Hin). unfold initial.
  by rewrite scan_custom_empty.
Qed.

Lemma sample_block_raw : raw (LINE_BREAK :: units " a: 1; /* ; */ b: 2 ").
Proof.
  do 8 (apply raw_plain; [unfold raw_unit; not_among|]).
  apply (raw_comment (units " ; ") (units " b: 2 ")).
  - repeat (apply interior_unit; [by compute | by compute |]).
    apply interior_nil.
  - repeat (apply raw_plain; [unfold raw_unit; not_among|]). apply raw_nil.
Qed.

Lemma custom_property_raw_capture_witness :
  parse (units "--foo: {" ++ CARRIAGE_RETURN :: LINE_BREAK
         :: units " a: 1; /* ; */ b: 2 };")
  = Parsed [Declaration (DASH :: DASH :: units "foo")
              (OPEN_CURLY :: (LINE_BREAK :: units " a: 1; /* ; */ b: 2 ")
               ++ [CLOSE_CURLY]) false].
Proof.
  assert (H := custom_property_raw_capture
                 (units "--foo: {" ++ CARRIAGE_RETURN :: LINE_BREAK
                  :: units " a: 1; /* ; */ b: 2 };")
                 (units "foo") [SPACE] [BACKSLASH; SEMICOLON] [] [SPACE]
                 (LINE_BREAK :: units " a: 1; /* ; */ b: 2 ") []
                 (mkTree [] [] [])).
  destruct H as (_ & _ & _ & H & _).
  - repeat constructor; unfold name_unit; not_among.
  - apply value_plain; [unfold value_unit; not_among | apply value_nil].
  - apply kept_semicolon.
  - apply value_nil.
  - repeat constructor.
  - exact sample_block_raw.
  - apply H. vm_compute. reflexivity.
Defined.

(** C7 as it is worded fails on a block that holds carriage return,
    line break: the text captured is not the text of the block as it
    is written, the line ending is read as a line break. *)
Lemma raw_block_line_endings :
  parse (units "--foo: {" ++ CARRIAGE_RETURN :: LINE_BREAK :: units "};")
  = Parsed [Declaration (units "--foo")
              (OPEN_CURLY :: LINE_BREAK :: [CLOSE_CURLY]) false] /\
  OPEN_CURLY :: LINE_BREAK :: [CLOSE_CURLY]
  <> OPEN_CURLY :: CARRIAGE_RETURN :: LINE_BREAK :: [CLOSE_CURLY].
Proof. split; [by vm_compute | done]. Qed.
(** *** Open blocks *)

Lemma add_node_preludes (n : node) (t : tree) :
  map prelude (parents (add_node n t)) = map prelude (parents t).
Proof. unfold add_node. by destruct (parents t). Qed.

Lemma end_statement_preludes (buf : list Z) (t : tree) :
  map prelude (parents (end_statement buf t)) = map prelude (parents t).
Proof.
  unfold end_statement. destruct (is_empty buf); [done|].
  apply add_node_preludes.
Qed.

Lemma finish_open_block (st : pstate) (p : list Z) (ps : list (list Z)) :
  outside_strings st -> open_preludes st = p :: ps ->
  finish st = Failed (UnbalancedClosingBrace p).
Proof.
  destruct st as [m ca buf sp t]. unfold outside_strings, open_preludes.
  simpl. intros Hm Hp.
  assert (Hfin : forall b t', map prelude (parents t') = p :: ps ->
    finish_default b t' = Failed (UnbalancedClosingBrace p)).
  { intros b t' Ht'. unfold finish_default.
    destruct (parents t') as [|f fs]; [done|]. by injection Ht' as -> _. }
  destruct m as [|[d|] i|r q s|d]; try done;
    apply Hfin; rewrite ?add_node_preludes; try done.
  simpl. by destruct (starts_with _ _).
Qed.

(** *** Balanced text *)

Lemma same_level_with_text (st : pstate) (text : list Z) :
  at_rest st -> same_level st (with_text st text).
Proof. intros [Hca Hm]. by repeat split. Qed.

(** A state at rest, taken apart. *)
Lemma at_rest_cases (st : pstate) :
  at_rest st ->
  exists m buf sp tr,
    st = mkState m NoCarry buf sp tr /\
    (m = Default \/ exists d, m = InCustomPropertyValue d).
Proof.
  destruct st as [m ca buf sp tr]. intros [Hca Hm]. simpl in *. subst ca.
  exists m, buf, sp, tr. split; [done|].
  destruct m; try done; eauto.
Qed.

Ltac rest_cases Hst :=
  let d := fresh "d" in
  let m := fresh "m" in
  let buf := fresh "buf" in
  let sp := fresh "sp" in
  let tr := fresh "tr" in
  apply at_rest_cases in Hst as (m & buf & sp & tr & -> & [-> | [d ->]]).

Lemma scan_rest_escape (st : pstate) (c : Z) (rest : list Z) :
  at_rest st ->
  scan st (BACKSLASH :: c :: rest) = scan (with_text st [BACKSLASH; c]) rest.
Proof.
  intros Hst. rewrite scan_cons.
  rest_cases Hst; simpl; rewrite scan_cons; simpl; f_equal;
    unfold with_text; simpl; f_equal; same_text.
Qed.

Lemma scan_rest_string (st : pstate) (q : Z) (s rest : list Z) :
  at_rest st -> is_quote q = true -> string_content q s ->
  scan st (q :: s ++ q :: rest) = scan (with_text st (q :: s ++ [q])) rest.
Proof.
  intros Hst Hq Hs.
  rest_cases Hst; rewrite scan_open_string by (simpl; eauto); simpl;
    by rewrite (scan_string_content q s Hs), scan_close_string by done.
Qed.

Lemma scan_rest_comment (st : pstate) (i rest : list Z) :
  at_rest st -> interior i ->
  exists st',
    scan st (SLASH :: ASTERISK :: i ++ ASTERISK :: SLASH :: rest)
    = scan st' rest /\ same_level st st'.
Proof.
  intros Hst Hi. rest_cases Hst.
  - rewrite scan_comment by done. eexists. split; [reflexivity|].
    repeat split. unfold open_preludes. simpl. by destruct (starts_with _ _).
  - rewrite scan_raw_comment by done. eexists. split; [reflexivity|].
    by repeat split.
Qed.

(** *** Statements and blocks *)

(** A custom property, from the start of the statement into its raw
    value. *)
Lemma scan_custom_pieces (ps : list piece) (v rest : list Z) (tr : tree) :
  phrase ps -> Unit COLON ∉ ps -> custom_property (prelude_of ps) = true ->
  value_text v -> head rest <> Some ASTERISK ->
  exists (buf : list Z) (sp : bool) (tr' : tree),
    scan (mkState Default NoCarry [] false tr)
      (text_of ps ++ COLON :: v ++ rest)
    = scan (mkState (InCustomPropertyValue 0) NoCarry buf sp tr') rest /\
    parents tr' = parents tr.
Proof.
  intros Hps Hcolon Hcustom Hv Hrest.
  destruct (scan_phrase ps Hps [] false tr (COLON :: v ++ rest))
    as (tr' & -> & Hp & _); [by right | done |].
  rewrite scan_cons. cbn [step]. unfold step_default.
  unfold prelude_of in Hcustom. rewrite Hcustom. simpl.
  destruct (scan_value v Hv
              (push (fst (statement_text [] false ps))
                 (snd (statement_text [] false ps)) [COLON]) false tr' rest
              Hrest) as (w & sp & ->).
  by eexists _, sp, tr'.
Qed.

(** The text of a statement takes the scan from the start of the
    statement to a state at rest in the statement or in its raw value;
    the open blocks stay as they are. *)
Lemma scan_clause (c : list Z) :
  clause c ->
  forall (tr : tree) (rest : list Z),
    head rest <> Some ASTERISK ->
    exists (m : mode) (buf : list Z) (sp : bool) (tr' : tree),
      scan (mkState Default NoCarry [] false tr) (c ++ rest)
      = scan (mkState m NoCarry buf sp tr') rest /\
      (m = Default \/ m = InCustomPropertyValue 0) /\
      parents tr' = parents tr.
Proof.
  intros [ps Hps Hord|ps v Hps Hcolon Hcustom Hv] tr rest Hrest.
  - destruct (scan_phrase ps Hps [] false tr rest Hord Hrest)
      as (tr' & Hscan & Hp & _).
    eexists Default, _, _, tr'. split; [exact Hscan|]. by split; [left|].
  - destruct (scan_custom_pieces ps v rest tr Hps Hcolon Hcustom Hv Hrest)
      as (buf & sp & tr' & Hscan & Hp).
    eexists (InCustomPropertyValue 0), buf, sp, tr'.
    split; [|by split; [right|]].
    rewrite <- Hscan. f_equal. by flat_text.
Qed.

(** A semicolon ends the statement. *)
Lemma step_semicolon (m : mode) (buf : list Z) (sp : bool) (tr : tree)
    (next : option Z) :
  m = Default \/ m = InCustomPropertyValue 0 ->
  exists tr',
    step (mkState m NoCarry buf sp tr) SEMICOLON next
    = Parsed (mkState Default NoCarry [] false tr') /\
    map prelude (parents tr') = map prelude (parents tr).
Proof.
  intros [-> | ->]; eexists; (split; [reflexivity|]).
  - apply end_statement_preludes.
  - apply add_node_preludes.
Qed.

(** A closing brace ends the statement and closes the innermost open
    block. *)
Lemma step_closing_brace (m : mode) (buf : list Z) (sp : bool) (tr : tree)
    (next : option Z) (p : list Z) (stack : list (list Z)) :
  m = Default \/ m = InCustomPropertyValue 0 ->
  map prelude (parents tr) = p :: stack ->
  exists tr',
    step (mkState m NoCarry buf sp tr) CLOSE_CURLY next
    = Parsed (mkState Default NoCarry [] false tr') /\
    map prelude (parents tr') = stack.
Proof.
  intros Hm Hp.
  assert (Hclose : forall b t, map prelude (parents t) = p :: stack ->
    exists tr', close_curly b t = Parsed (mkState Default NoCarry [] false tr')
      /\ map prelude (parents tr') = stack).
  { intros b t Ht. unfold close_curly, close_block.
    pose proof (end_statement_preludes b t) as He. rewrite Ht in He.
    destruct (parents (end_statement b t)) as [|f outer]; [done|].
    injection He as _ He. eexists. split; [reflexivity|].
    by rewrite add_node_preludes. }
  destruct Hm as [-> | ->]; cbn [step]; unfold step_default, step_custom;
    simpl.
  - by apply Hclose.
  - apply Hclose. by rewrite add_node_preludes.
Qed.

(** Text that leaves blocks open takes the scan from the start of a
    statement to the start of a statement, inside these blocks. *)
Lemma scan_opened (stack : list (list Z)) (a : list Z) :
  opened stack a ->
  forall (tr : tree) (rest : list Z),
    exists tr',
      scan (mkState Default NoCarry [] false tr) (a ++ rest)
      = scan (mkState Default NoCarry [] false tr') rest /\
      map prelude (parents tr') = stack ++ map prelude (parents tr).
Proof.
  induction 1 as [|stack a c Ha IH Hc|stack a ps Ha IH Hps Hord
                  |p stack a c Ha IH Hc]; intros tr rest.
  - by exists tr.
  - destruct (IH tr (c ++ SEMICOLON :: rest)) as (tr1 & Hscan1 & Hp1).
    destruct (scan_clause c Hc tr1 (SEMICOLON :: rest))
      as (m & buf & sp & tr2 & Hscan2 & Hm & Hp2); [done|].
    destruct (step_semicolon m buf sp tr2 (head rest) Hm)
      as (tr3 & Hstep & Hp3).
    exists tr3. split.
    + replace ((a ++ c ++ [SEMICOLON]) ++ rest)
        with (a ++ c ++ SEMICOLON :: rest) by (by flat_text).
      by rewrite Hscan1, Hscan2, scan_cons, Hstep.
    + by rewrite Hp3, Hp2.
  - destruct (IH tr (text_of ps ++ OPEN_CURLY :: rest))
      as (tr1 & Hscan1 & Hp1).
    destruct (scan_phrase ps Hps [] false tr1 (OPEN_CURLY :: rest) Hord)
      as (tr2 & Hscan2 & Hp2 & _); [done|].
    exists (open_block (prelude_of ps) tr2). split.
    + replace ((a ++ text_of ps ++ [OPEN_CURLY]) ++ rest)
        with (a ++ text_of ps ++ OPEN_CURLY :: rest) by (by flat_text).
      rewrite Hscan1, Hscan2, scan_cons. reflexivity.
    + simpl. by rewrite Hp2, Hp1.
  - destruct (IH tr (c ++ CLOSE_CURLY :: rest)) as (tr1 & Hscan1 & Hp1).
    destruct (scan_clause c Hc tr1 (CLOSE_CURLY :: rest))
      as (m & buf & sp & tr2 & Hscan2 & Hm & Hp2); [done|].
    destruct (step_closing_brace m buf sp tr2 (head rest) p
                (stack ++ map prelude (parents tr)) Hm)
      as (tr3 & Hstep & Hp3); [by rewrite Hp2|].
    exists tr3. split; [|done].
    replace ((a ++ c ++ [CLOSE_CURLY]) ++ rest)
      with (a ++ c ++ CLOSE_CURLY :: rest) by (by flat_text).
    by rewrite Hscan1, Hscan2, scan_cons, Hstep.
Qed.

(** *** The end of the input inside a block *)

(** A code unit that is no quote, brace or backslash leaves the scan at
    rest, with the blocks that were open. *)
Lemma step_plain_unit (st : pstate) (c : Z) (next : option Z) :
  free_unit c -> (c = SLASH -> next <> Some ASTERISK) -> at_rest st ->
  exists st', step st c next = Parsed st' /\ at_rest st' /\
    open_preludes st' = open_preludes st.
Proof.
  intros Hc Hslash Hst. unfold free_unit in Hc. unit_facts.
  assert (is_quote c = false) as Hq by (unfold is_quote; by unit_cases).
  assert ((c =? BACKSLASH) = false) as Hb by by apply Z.eqb_neq.
  assert ((c =? OPEN_CURLY) = false) as Ho by by apply Z.eqb_neq.
  assert ((c =? CLOSE_CURLY) = false) as Hcl by by apply Z.eqb_neq.
  assert ((c =? SLASH) && next_is ASTERISK next = false) as Hs.
  { destruct (Z.eqb_spec c SLASH) as [E|]; [|done]. simpl.
    specialize (Hslash E). destruct next as [x|]; [|done]. simpl.
    apply Z.eqb_neq. congruence. }
  rest_cases Hst; cbn [step]; unfold step_default, step_custom;
    rewrite Hq, Hb, Hs, Ho, Hcl; simpl;
    repeat case_match; eexists; (split; [reflexivity|]);
    unfold at_rest, open_preludes; simpl;
    by rewrite ?add_node_preludes, ?end_statement_preludes.
Qed.

(** Inside a comment that is not closed, the scan stays in the
    comment. *)
Lemma scan_interior_open (i : list Z) :
  interior i ->
  forall (r : option nat) (acc buf : list Z) (sp : bool) (t : tree)
    (e : list Z),
    head e <> Some SLASH ->
    scan (mkState (InComment r acc) NoCarry buf sp t) (i ++ e)
    = scan (mkState (InComment r (acc ++ i)) NoCarry buf sp t) e.
Proof.
  induction 1 as [|c i Hb Ha Hi IH|i Hh Hi IH|c i Hi IH];
    intros r acc buf sp t e He.
  - by rewrite app_nil_r.
  - simpl app. rewrite scan_cons. cbn [step]. unfold step_comment.
    unit_cases. rewrite IH by done. by rewrite <- app_assoc.
  - simpl app. rewrite scan_cons. cbn [step]. unfold step_comment.
    assert (next_is SLASH (head (i ++ e)) = false) as ->.
    { destruct i as [|x i]; simpl in *.
      - destruct e as [|y e]; [done|]. simpl in *. apply Z.eqb_neq. congruence.
      - apply Z.eqb_neq. congruence. }
    simpl. rewrite IH by done. by rewrite <- app_assoc.
  - simpl app. rewrite scan_cons. cbn [step]. unfold step_comment.
    rewrite Z.eqb_refl. rewrite scan_cons. cbn [step].
    rewrite IH by done. by rewrite <- !app_assoc.
Qed.

Lemma scan_open_comment (t : list Z) (st : pstate) (p : list Z)
    (ps : list (list Z)) :
  open_interior t -> at_rest st -> open_preludes st = p :: ps ->
  scan st (SLASH :: ASTERISK :: t) = Failed (UnbalancedClosingBrace p).
Proof.
  intros Ht Hst Hp.
  assert (Hin : forall r, scan (mkState (InComment r []) NoCarry (buffer st)
                                  (space st) (built st)) t
                          = Failed (UnbalancedClosingBrace p)).
  { intros r. destruct Ht as [Hi | (i & Hi & ->)].
    - rewrite <- (app_nil_r t), (scan_interior_open t Hi) by done.
      by apply (finish_open_block _ p ps).
    - rewrite (scan_interior_open i Hi) by done.
      rewrite scan_cons. simpl. by apply (finish_open_block _ p ps). }
  rest_cases Hst; rewrite scan_cons; simpl; rewrite scan_cons; simpl;
    apply Hin.
Qed.

(** Text without braces, from a state at rest with a block open, leads
    to the end of the input with that block open. *)
Lemma scan_brace_free (t : list Z) :
  brace_free t ->
  forall (st : pstate) (p : list Z) (ps : list (list Z)),
    at_rest st -> open_preludes st = p :: ps ->
    scan st t = Failed (UnbalancedClosingBrace p).
Proof.
  induction 1 as [|c t Hc Hslash Ht IH|c t Ht IH| |i t Hi Ht IH|t Ht
                  |q s t Hq Hs Ht IH]; intros st p ps Hst Hp.
  - apply (finish_open_block st p ps); [|done].
    destruct Hst as [_ Hm]. unfold outside_strings. by destruct (current st).
  - rewrite scan_cons.
    destruct (step_plain_unit st c (head t) Hc Hslash Hst)
      as (st' & -> & Hst' & Hp').
    apply (IH st' p ps Hst'). by rewrite Hp'.
  - rewrite scan_rest_escape by done.
    apply (IH _ p ps); [by apply same_level_with_text|].
    by destruct (same_level_with_text st [BACKSLASH; c] Hst) as (_ & -> & _).
  - rest_cases Hst; rewrite scan_cons; simpl;
      by apply (finish_open_block _ p ps).
  - destruct (scan_rest_comment st i t Hst Hi) as (st' & -> & Hst' & Hp' & _).
    apply (IH st' p ps Hst'). by rewrite Hp'.
  - by apply (scan_open_comment t st p ps).
  - rewrite scan_rest_string by done.
    apply (IH _ p ps); [by apply same_level_with_text|].
    by destruct (same_level_with_text st (q :: s ++ [q]) Hst) as (_ & -> & _).
Qed.

(** Inside the open braces of a raw value. *)
Lemma scan_raw_inside (t : list Z) :
  raw_inside t ->
  forall (d : nat) (buf : list Z) (sp : bool) (tr : tree) (rest : list Z),
    exists (d' : nat) (buf' : list Z),
      scan (mkState (InCustomPropertyValue d) NoCarry buf sp tr) (t ++ rest)
      = scan (mkState (InCustomPropertyValue d') NoCarry buf' false tr) rest.
Proof.
  induction 1 as [b Hb|b t Hb Ht IH]; intros d buf sp tr rest.
  - simpl app. rewrite scan_cons. simpl. rewrite scan_raw by done.
    by eexists _, _.
  - simpl app. rewrite <- app_assoc. rewrite scan_cons. simpl.
    rewrite scan_raw by done. apply IH.
Qed.

(** The text of a statement up to a place outside comments and strings
    takes the scan to a state at rest; the open blocks stay as they
    are. *)
Lemma scan_partial (c : list Z) :
  partial c ->
  forall (tr : tree) (rest : list Z),
    head rest <> Some ASTERISK ->
    exists st',
      scan (mkState Default NoCarry [] false tr) (c ++ rest) = scan st' rest /\
      at_rest st' /\ open_preludes st' = map prelude (parents tr).
Proof.
  intros [c' Hc|ps v t Hps Hcolon Hcustom Hv Ht] tr rest Hrest.
  - destruct (scan_clause c' Hc tr rest Hrest)
      as (m & buf & sp & tr' & -> & Hm & Hp).
    eexists. split; [reflexivity|]. split.
    + split; [done|]. simpl. by destruct Hm as [-> | ->].
    + unfold open_preludes. simpl. by rewrite Hp.
  - destruct (scan_custom_pieces ps v (t ++ rest) tr Hps Hcolon Hcustom Hv)
      as (buf & sp & tr' & Hscan & Hp).
    { by destruct Ht. }
    destruct (scan_raw_inside t Ht 0%nat buf sp tr' rest) as (d' & buf' & Hin).
    eexists. split.
    + replace ((text_of ps ++ COLON :: v ++ t) ++ rest)
        with (text_of ps ++ COLON :: v ++ t ++ rest) by (by flat_text).
      rewrite Hscan. exact Hin.
    + split; [done|]. unfold open_preludes. simpl. by rewrite Hp.
Qed.

(** A block is open, and the input ends in it. *)
Lemma scan_ending (e : list Z) (tr : tree) (p : list Z) (ps : list (list Z)) :
  ending e -> map prelude (parents tr) = p :: ps ->
  scan (mkState Default NoCarry [] false tr) e
  = Failed (UnbalancedClosingBrace p).
Proof.
  intros [c tail Hc Htail Hhead] Hp.
  destruct (scan_partial c Hc tr tail Hhead) as (st' & -> & Hst' & Hp').
  apply (scan_brace_free tail Htail st' p ps Hst'). by rewrite Hp'.
Qed.

Lemma scan_unclosed_block (p : list Z) (stack : list (list Z))
    (a e : list Z) (tr : tree) :
  opened (p :: stack) a -> ending e ->
  scan (mkState Default NoCarry [] false tr) (a ++ e)
  = Failed (UnbalancedClosingBrace p).
Proof.
  intros Ha He.
  destruct (scan_opened (p :: stack) a Ha tr e) as (tr1 & -> & Hp1).
  by apply (scan_ending e tr1 p (stack ++ map prelude (parents tr))).
Qed.

(** A string is opened in a statement and stays open to the end of the
    input or of its line. *)
Lemma scan_unterminated_string (stack : list (list Z)) (a c s rest : list Z)
    (q : Z) (tr : tree) :
  opened stack a -> partial c ->
  is_quote q = true -> string_content q s ->
  rest = [] \/ head rest = Some LINE_BREAK ->
  scan (mkState Default NoCarry [] false tr) (a ++ c ++ q :: s ++ rest)
  = Failed (UnterminatedString q s).
Proof.
  intros Ha Hc Hq Hs Hrest.
  destruct (scan_opened stack a Ha tr (c ++ q :: s ++ rest))
    as (tr1 & -> & _).
  destruct (scan_partial c Hc tr1 (q :: s ++ rest)) as (st' & -> & Hst' & _).
  { simpl. apply quote_cases in Hq as [-> | ->]; by compute. }
  rest_cases Hst'; rewrite scan_open_string by (simpl; eauto);
    by apply scan_string_stays_open.
Qed.

(** C6. A block is opened and the input ends before it is closed: the
    text read (with carriage return, line break as line break) leaves
    the block with prelude [p] open as the innermost one, whatever
    stands before it and inside it of statements and closed blocks,
    with their white space, comments, strings and raw values, and ends
    in that block: in a statement, or inside the braces that the raw
    value of a custom property leaves open, with or without a comment
    left open; the parse fails with the error of the unclosed block,
    whose message ends with the prelude of that block, read as a
    selector is: comments left out, white space collapsed.
    A string, opened anywhere in a statement or inside the braces of a
    raw value, that meets the end of the input or the end of its line
    before its closing quote makes the parse fail with the error of the
    unterminated string, whose message holds the opening quote and the
    text scanned after it. *)
Theorem unclosed_block_and_string (input p : list Z)
    (stack stack' : list (list Z)) (a e a' c' s rest : list Z) (q : Z)
    (st : pstate) :
  opened (p :: stack) a -> ending e ->
  opened stack' a' -> partial c' ->
  is_quote q = true -> string_content q s ->
  rest = [] \/ head rest = Some LINE_BREAK ->
  at_rest st ->
  (normalize input = a ++ e ->
   parse input = Failed (UnbalancedClosingBrace p)) /\
  (forall tr : tree,
     scan (mkState Default NoCarry [] false tr) (a ++ e)
     = Failed (UnbalancedClosingBrace p)) /\
  message (UnbalancedClosingBrace p) = units "Missing closing } at " ++ p /\
  parse (join_lines [".foo {"; " color: red;"; ""])
  = Failed (UnbalancedClosingBrace (units ".foo")) /\
  parse unclosed_sample = Failed (UnbalancedClosingBrace (units ".bar")) /\
  (normalize input = a' ++ c' ++ q :: s ++ rest ->
   parse input = Failed (UnterminatedString q s)) /\
  (forall tr : tree,
     scan (mkState Default NoCarry [] false tr) (a' ++ c' ++ q :: s ++ rest)
     = Failed (UnterminatedString q s)) /\
  scan st (q :: s ++ rest) = Failed (UnterminatedString q s) /\
  message (UnterminatedString q s)
  = units "Unterminated string: " ++ (q :: s) ++ [q] /\
  parse (units "content: " ++ DOUBLE_QUOTE :: units "abc")
  = Failed (UnterminatedString DOUBLE_QUOTE (units "abc")) /\
  parse open_string_sample
  = Failed (UnterminatedString DOUBLE_QUOTE (units "Hello world!")) /\
  parse open_string_semicolon_sample
  = Failed (UnterminatedString DOUBLE_QUOTE (units "Hello world!;")).
Proof.
  intros Ha He Ha' Hc' Hq Hs Hrest Hst.
  split.
  { intros Hin. rewrite (parse_normalized _ _ Hin).
    by eapply scan_unclosed_block. }
  split; [intros; by eapply scan_unclosed_block|].
  split; [done|].
  split; [by vm_compute|].
  split; [by vm_compute|].
  split.
  { intros Hin. rewrite (parse_normalized _ _ Hin).
    by eapply scan_unterminated_string. }
  split; [intros; by eapply scan_unterminated_string|].
  split.
  { assert (Hst' := Hst). rest_cases Hst';
      rewrite scan_open_string by (simpl; eauto);
      by apply scan_string_stays_open. }
  split; [done|].
  repeat split; by vm_compute.
Qed.

(** Pieces written out. *)
Ltac phrase_pieces :=
  repeat first
    [ apply phrase_nil
    | apply phrase_blank; [reflexivity|]
    | apply phrase_unit; [unfold plain_unit; not_among | done |] ].

Lemma sample_prelude_phrase :
  phrase (plain_pieces (units ".a .b ")) /\
  phrase (plain_pieces (LINE_BREAK :: units " color: red")) /\
  phrase (plain_pieces (units "content: ")).
Proof. repeat split; unfold plain_pieces; simpl; phrase_pieces. Qed.

Lemma unclosed_block_and_string_witness :
  parse (units ".a .b {" ++ CARRIAGE_RETURN :: LINE_BREAK
         :: units " color: red")
  = Failed (UnbalancedClosingBrace (units ".a .b")) /\
  parse (units "content: " ++ SINGLE_QUOTE :: units "abc")
  = Failed (UnterminatedString SINGLE_QUOTE (units "abc")).
Proof.
  destruct sample_prelude_phrase as (Hpre & Hbody & Hcontent).
  assert (H := fun input =>
            unclosed_block_and_string input
              (units ".a .b") [] []
              ([] ++ text_of (plain_pieces (units ".a .b ")) ++ [OPEN_CURLY])
              (text_of (plain_pieces (LINE_BREAK :: units " color: red"))
               ++ [])
              [] (text_of (plain_pieces (units "content: ")))
              (units "abc") [] SINGLE_QUOTE initial).
  assert (Hopen : opened [units ".a .b"]
            ([] ++ text_of (plain_pieces (units ".a .b ")) ++ [OPEN_CURLY])).
  { apply (opened_block [] [] (plain_pieces (units ".a .b ")));
      [apply opened_nil | exact Hpre | by left]. }
  assert (Hend : ending
            (text_of (plain_pieces (LINE_BREAK :: units " color: red"))
             ++ [])).
  { apply ending_intro; [|apply brace_free_nil|done].
    apply partial_clause, clause_ordinary; [exact Hbody | by left]. }
  assert (Hpart : partial (text_of (plain_pieces (units "content: ")))).
  { apply partial_clause, clause_ordinary; [exact Hcontent | by left]. }
  assert (Hs : string_content SINGLE_QUOTE (units "abc")).
  { repeat (apply string_content_unit; [by compute | by compute | by compute |]).
    apply string_content_nil. }
  split.
  - destruct (H (units ".a .b {" ++ CARRIAGE_RETURN :: LINE_BREAK
                 :: units " color: red")
                Hopen Hend opened_nil Hpart eq_refl Hs (or_introl eq_refl)
                (conj eq_refl I)) as (H1 & _).
    apply H1. vm_compute. reflexivity.
  - destruct (H (units "content: " ++ SINGLE_QUOTE :: units "abc")
                Hopen Hend opened_nil Hpart eq_refl Hs (or_introl eq_refl)
                (conj eq_refl I)) as (_ & _ & _ & _ & _ & H2 & _).
    apply H2. vm_compute. reflexivity.
Defined.
(** *** Comment nodes *)

Lemma comment_free_rule (selector : list Z) (nodes : list node) :
  comment_free (Rule selector nodes) <-> Forall comment_free nodes.
Proof.
  simpl. induction nodes as [|n nodes IH]; [by split; constructor|].
  rewrite Forall_cons. by rewrite IH.
Qed.

Lemma comment_free_at_rule (name params : list Z) (nodes : list node) :
  comment_free (AtRule name params (Some nodes)) <-> Forall comment_free nodes.
Proof.
  simpl. induction nodes as [|n nodes IH]; [by split; constructor|].
  rewrite Forall_cons. by rewrite IH.
Qed.

Lemma comment_free_declaration (buf : list Z) :
  comment_free (parseDeclaration buf).
Proof. unfold parseDeclaration. by repeat case_match. Qed.

Lemma comment_free_statement (buf : list Z) :
  comment_free (statement_node buf).
Proof.
  unfold statement_node, parseAtRule.
  repeat case_match; try done. apply comment_free_declaration.
Qed.

Lemma comment_free_block (prelude : list Z) (nodes : list node) :
  Forall comment_free nodes -> comment_free (block_node prelude nodes).
Proof.
  intros H. unfold block_node, parseAtRule. repeat case_match.
  - by apply comment_free_at_rule.
  - by apply comment_free_rule.
Qed.

Lemma nodes_free_add (n : node) (t : tree) :
  comment_free n -> nodes_free t -> nodes_free (add_node n t).
Proof.
  intros Hn [Hast Hparents]. unfold add_node, nodes_free.
  destruct (parents t) as [|f outer]; simpl.
  - split; [|done]. apply Forall_app. split; [done | by constructor].
  - split; [done|]. apply Forall_cons in Hparents as [Hf Houter].
    constructor; [|done]. simpl. apply Forall_app. split; [done | by constructor].
Qed.

Lemma nodes_free_end_statement (buf : list Z) (t : tree) :
  nodes_free t -> nodes_free (end_statement buf t).
Proof.
  intros H. unfold end_statement. destruct (is_empty buf); [done|].
  apply nodes_free_add; [apply comment_free_statement | done].
Qed.

Lemma nodes_free_close (t t' : tree) :
  nodes_free t -> close_block t = Some t' ->
  nodes_free t' /\ licenseComments t' = licenseComments t.
Proof.
  intros [Hast Hparents]. unfold close_block.
  destruct (parents t) as [|f outer] eqn:E; [done|].
  intros [= <-]. apply Forall_cons in Hparents as [Hf Houter]. split.
  - apply nodes_free_add; [by apply comment_free_block | by split].
  - unfold add_node. simpl. by destruct outer.
Qed.

Lemma more_licenses_refl (t : tree) : more_licenses t t.
Proof. exists []. simpl. by rewrite app_nil_r. Qed.

Lemma more_licenses_same (t t' : tree) :
  licenseComments t' = licenseComments t -> more_licenses t t'.
Proof. intros H. exists []. simpl. by rewrite app_nil_r. Qed.

Lemma more_licenses_trans (t1 t2 t3 : tree) :
  more_licenses t1 t2 -> more_licenses t2 t3 -> more_licenses t1 t3.
Proof.
  intros (v1 & H1 & F1) (v2 & H2 & F2). exists (v1 ++ v2).
  rewrite H2, H1, map_app, app_assoc. split; [done|].
  apply Forall_app. by split.
Qed.

Lemma licenses_add_node (n : node) (t : tree) :
  licenseComments (add_node n t) = licenseComments t.
Proof. unfold add_node. by destruct (parents t). Qed.

Lemma licenses_end_statement (buf : list Z) (t : tree) :
  licenseComments (end_statement buf t) = licenseComments t.
Proof.
  unfold end_statement. destruct (is_empty buf); [done|].
  apply licenses_add_node.
Qed.

Lemma close_curly_free (buf : list Z) (t : tree) (st' : pstate) :
  nodes_free t -> close_curly buf t = Parsed st' ->
  nodes_free (built st') /\ more_licenses t (built st').
Proof.
  intros Ht. unfold close_curly.
  destruct (close_block _) as [t'|] eqn:E; [|done]. intros [= <-]. simpl.
  apply nodes_free_close in E as [Hfree Hlic];
    [|by apply nodes_free_end_statement].
  split; [done|]. apply more_licenses_same.
  by rewrite Hlic, licenses_end_statement.
Qed.

Lemma end_comment_free (r : option nat) (i cl buf : list Z) (ca : carry)
    (sp : bool) (t : tree) :
  nodes_free t ->
  nodes_free (built (end_comment r i cl ca buf sp t)) /\
  more_licenses t (built (end_comment r i cl ca buf sp t)).
Proof.
  intros Ht. unfold end_comment. destruct r as [d|]; simpl.
  - split; [done | apply more_licenses_refl].
  - destruct (starts_with EXCLAMATION_MARK i) eqn:E.
    + split; [done|]. exists [i]. by repeat constructor.
    + split; [done | apply more_licenses_refl].
Qed.

Lemma nodes_free_open (buf : list Z) (t : tree) :
  nodes_free t -> nodes_free (open_block buf t).
Proof.
  intros [Hast Hparents]. split; [done|]. simpl.
  constructor; [constructor | done].
Qed.

Lemma more_licenses_end_statement (buf : list Z) (t : tree) :
  more_licenses t (end_statement buf t).
Proof. apply more_licenses_same, licenses_end_statement. Qed.

Lemma more_licenses_add_node (n : node) (t : tree) :
  more_licenses t (add_node n t).
Proof. apply more_licenses_same, licenses_add_node. Qed.

Lemma more_licenses_open (buf : list Z) (t : tree) :
  more_licenses t (open_block buf t).
Proof. by apply more_licenses_same. Qed.

Create HintDb css_free.
#[local] Hint Resolve nodes_free_end_statement nodes_free_open
  nodes_free_add comment_free_declaration more_licenses_refl
  more_licenses_end_statement more_licenses_add_node more_licenses_open
  : css_free.

(** A step keeps comment nodes out of the nodes and only adds license
    comments, after those it found. *)
Lemma step_free (st st' : pstate) (c : Z) (next : option Z) :
  step st c next = Parsed st' -> nodes_free (built st) ->
  nodes_free (built st') /\ more_licenses (built st) (built st').
Proof.
  destruct st as [m ca buf sp t]. simpl. intros Hstep Ht.
  destruct ca.
  - destruct m as [|r i|r q s|d].
    + unfold step_default in Hstep.
      repeat case_match; try (by eapply close_curly_free);
        injection Hstep as <-; simpl; split; auto with css_free.
    + unfold step_comment in Hstep.
      repeat case_match; injection Hstep as <-;
        try (by apply end_comment_free); simpl; split; auto with css_free.
    + unfold step_string in Hstep.
      repeat case_match; try done;
        injection Hstep as <-; simpl; split; auto with css_free.
    + unfold step_custom in Hstep.
      repeat case_match;
        try (apply close_curly_free in Hstep as [Hfree Hmore];
             [|by auto with css_free];
             split; [done|]; eapply more_licenses_trans; [|exact Hmore];
             by auto with css_free);
        injection Hstep as <-; simpl; split; auto with css_free.
  - destruct m; injection Hstep as <-; simpl; split; auto with css_free.
  - injection Hstep as <-; simpl; split; auto with css_free.
Qed.

Lemma finish_default_free (buf : list Z) (t : tree) (nodes : list node) :
  finish_default buf t = Parsed nodes -> nodes_free t ->
  exists body, nodes = licenseComments t ++ body /\ Forall comment_free body.
Proof.
  unfold finish_default. intros Hfin [Hast _].
  destruct (parents t) eqn:E; [|done].
  repeat case_match; try done; injection Hfin as <-.
  - by exists (ast t).
  - exists (ast t ++ [statement_node buf]). unfold add_node. rewrite E. simpl.
    split; [done|]. apply Forall_app. split; [done|].
    constructor; [apply comment_free_statement | done].
Qed.

Lemma finish_free (st : pstate) (nodes : list node) :
  finish st = Parsed nodes -> nodes_free (built st) ->
  exists values body,
    nodes = licenseComments (built st) ++ map Comment values ++ body /\
    Forall license values /\ Forall comment_free body.
Proof.
  destruct st as [m ca buf sp t]. simpl. intros Hfin Ht.
  destruct m as [|[d|] i|r q s|d]; try done.
  - apply finish_default_free in Hfin as (body & -> & Hbody); [|done].
    by exists [], body.
  - apply finish_default_free in Hfin as (body & -> & Hbody);
      [|by auto with css_free].
    exists [], body. by rewrite licenses_add_node.
  - destruct (starts_with EXCLAMATION_MARK i) eqn:E.
    + apply finish_default_free in Hfin as (body & -> & Hbody); [|done].
      exists [i], body. simpl. rewrite <- app_assoc.
      by repeat constructor.
    + apply finish_default_free in Hfin as (body & -> & Hbody); [|done].
      by exists [], body.
  - apply finish_default_free in Hfin as (body & -> & Hbody);
      [|by auto with css_free].
    exists [], body. by rewrite licenses_add_node.
Qed.

(** The result of a scan: the license comments found so far, then those
    found later, then nodes without any comment node. *)
Lemma scan_free (input : list Z) :
  forall (st : pstate) (nodes : list node),
    scan st input = Parsed nodes -> nodes_free (built st) ->
    exists values body,
      nodes = licenseComments (built st) ++ map Comment values ++ body /\
      Forall license values /\ Forall comment_free body.
Proof.
  induction input as [|c input IH]; intros st nodes Hscan Hst.
  - by apply finish_free.
  - rewrite scan_cons in Hscan.
    destruct (step st c (head input)) as [st'|] eqn:E; [|done].
    apply step_free in E as [Hfree (v1 & Hv1 & Hl1)]; [|done].
    apply IH in Hscan as (v2 & body & -> & Hl2 & Hbody); [|done].
    exists (v1 ++ v2), body. rewrite Hv1, map_app, <- !app_assoc.
    split; [done|]. split; [by apply Forall_app | done].
Qed.

Lemma toCss_licenses (values : list (list Z)) (body : list node) :
  toCss (map Comment values ++ body)
  = flat_map (fun v => [SLASH; ASTERISK] ++ v ++ [ASTERISK; SLASH; LINE_BREAK])
      values
    ++ toCss body.
Proof.
  unfold toCss. rewrite flat_map_app. f_equal.
  induction values as [|v values IH]; [done|]. simpl. by rewrite IH.
Qed.

Lemma parse_free (input : list Z) (nodes : list node) :
  parse input = Parsed nodes ->
  exists values body,
    nodes = map Comment values ++ body /\
    Forall license values /\ Forall comment_free body.
Proof.
  intros H. apply scan_free in H; [done|]. by split.
Qed.


(** *** The comments of a text and the license comments of the tree *)

Lemma close_curly_shape (buf : list Z) (t : tree) (st' : pstate) :
  close_curly buf t = Parsed st' ->
  exists t',
    st' = mkState Default NoCarry [] false t' /\
    licenseComments t' = licenseComments t.
Proof.
  unfold close_curly, close_block. intros H.
  destruct (parents (end_statement buf t)) as [|f outer] eqn:E; [done|].
  injection H as <-. eexists. split; [reflexivity|].
  rewrite licenses_add_node. simpl. apply licenses_end_statement.
Qed.

Lemma filter_license_one (i : list Z) :
  filter license [i] = if starts_with EXCLAMATION_MARK i then [i] else [].
Proof.
  unfold license. destruct (starts_with EXCLAMATION_MARK i) eqn:E.
  - by rewrite filter_cons_True.
  - rewrite filter_cons_False; [done|]. by rewrite E.
Qed.

(** A step that gives a state, seen from the text and from the tree. *)
Ltac tracked_nothing :=
  intros [= <-]; exists []; simpl;
  rewrite ?app_nil_r, ?licenses_end_statement, ?licenses_add_node;
  split; reflexivity.

Ltac tracked_close :=
  let H := fresh "H" in
  let t' := fresh "t" in
  let Hl := fresh "Hl" in
  intros H; apply close_curly_shape in H as (t' & -> & Hl);
  exists []; simpl;
  rewrite ?app_nil_r, Hl, ?licenses_end_statement, ?licenses_add_node;
  split; reflexivity.

(** The reader follows the scan: the place, the statement and the
    pending white space are those of the scan, and the comments it
    sees that are license comments are those that the scan adds to the
    license comments. *)
Lemma step_tracks (st st' : pstate) (c : Z) (next : option Z)
    (sn : list (list Z)) :
  step st c next = Parsed st' ->
  exists new,
    read_unit (mkReader (current st) (carried st) (buffer st) (space st) sn)
      c next
    = mkReader (current st') (carried st') (buffer st') (space st')
        (sn ++ new) /\
    licenseComments (built st')
    = licenseComments (built st) ++ map Comment (filter license new).
Proof.
  destruct st as [m ca buf sp t]. cbn [step read_unit current carried buffer
                                        space built].
  destruct ca.
  - destruct m as [|r i|r q s|d].
    + unfold step_default, read_default.
      repeat (case_match; cbn [orb andb]);
        first [tracked_nothing | tracked_close].
    + unfold step_comment, read_comment, end_comment.
      destruct (c =? BACKSLASH); [tracked_nothing|].
      destruct ((c =? ASTERISK) && next_is SLASH next); [|tracked_nothing].
      destruct r as [d|]; [tracked_nothing|].
      intros [= <-]. exists [i]. cbn [current carried buffer space built].
      split; [reflexivity|].
      rewrite filter_license_one.
      destruct (starts_with EXCLAMATION_MARK i); simpl; by rewrite ?app_nil_r.
    + unfold step_string, read_string.
      repeat (case_match; cbn [orb andb]); first [tracked_nothing | done].
    + unfold step_custom, read_custom.
      repeat (case_match; cbn [orb andb]);
        first [tracked_nothing | tracked_close].
  - destruct m; tracked_nothing.
  - tracked_nothing.
Qed.

Lemma in_sight_head (rest : list Z) : in_sight rest None = head rest.
Proof. by destruct rest. Qed.

(** The end of the input: a comment left open in a statement counts as
    a comment. *)
Lemma finish_tracks (st : pstate) (nodes : list node) :
  finish st = Parsed nodes -> nodes_free (built st) ->
  exists body,
    nodes = licenseComments (built st)
            ++ map Comment (filter license (left_open (current st))) ++ body /\
    Forall comment_free body.
Proof.
  destruct st as [m ca buf sp t]. simpl. intros Hfin Ht.
  destruct m as [|[d|] i|r q s|d]; try done; simpl.
  - by apply finish_default_free in Hfin.
  - apply finish_default_free in Hfin as (body & -> & Hbody);
      [|by auto with css_free].
    exists body. by rewrite licenses_add_node.
  - rewrite filter_license_one.
    destruct (starts_with EXCLAMATION_MARK i) eqn:E.
    + apply finish_default_free in Hfin as (body & -> & Hbody); [|done].
      exists body. simpl. by rewrite <- app_assoc.
    + by apply finish_default_free in Hfin.
  - apply finish_default_free in Hfin as (body & -> & Hbody);
      [|by auto with css_free].
    exists body. by rewrite licenses_add_node.
Qed.

(** The result of a scan: the license comments found so far, then the
    license comments among the comments that the reader sees in the
    rest of the text, then nodes without any comment node. *)
Lemma scan_tracks (input : list Z) :
  forall (st : pstate) (nodes : list node) (sn : list (list Z)),
    scan st input = Parsed nodes -> nodes_free (built st) ->
    exists new body,
      let r := read_from
                 (mkReader (current st) (carried st) (buffer st) (space st) sn)
                 input None in
      seen r = sn ++ new /\
      nodes = licenseComments (built st)
              ++ map Comment (filter license (new ++ left_open (place r)))
              ++ body /\
      Forall comment_free body.
Proof.
  induction input as [|c input IH]; intros st nodes sn Hscan Hst.
  - apply finish_tracks in Hscan as (body & -> & Hbody); [|done].
    exists [], body. simpl. by rewrite app_nil_r.
  - rewrite scan_cons in Hscan.
    destruct (step st c (head input)) as [st'|] eqn:E; [|done].
    pose proof (step_free _ _ _ _ E Hst) as [Hfree _].
    destruct (step_tracks st st' c (head input) sn E) as (new1 & Hread & Hlic).
    destruct (IH st' nodes (sn ++ new1) Hscan Hfree)
      as (new2 & body & Hseen & -> & Hbody).
    exists (new1 ++ new2), body. cbn [read_from].
    rewrite in_sight_head, Hread.
    split; [by rewrite Hseen, app_assoc|].
    split; [|done].
    rewrite Hlic, <- !app_assoc. f_equal.
    rewrite !filter_app, !map_app, <- !app_assoc. done.
Qed.

(** The nodes of a parse: the license comments among the comments of
    the text that stand outside strings and raw values, in the order
    of the text, then nodes without any comment node. *)
Lemma parse_tracks (input : list Z) (nodes : list node) :
  parse input = Parsed nodes ->
  exists body,
    nodes = map Comment (filter license (comments_outside (normalize input)))
            ++ body /\
    Forall comment_free body.
Proof.
  intros H.
  destruct (scan_tracks (normalize input) initial nodes [] H)
    as (new & body & Hseen & -> & Hbody); [by split|].
  exists body. split; [|done]. simpl in *.
  unfold comments_outside, beginning. by rewrite Hseen.
Qed.

(** *** A text followed by more text *)

Lemma scan_run (a : list Z) :
  forall (st : pstate) (b : list Z),
    scan st (a ++ b)
    = match run st a (head b) with
      | Parsed st' => scan st' b
      | Failed e => Failed e
      end.
Proof.
  induction a as [|c a IH]; intros st b; [done|].
  simpl app. rewrite scan_cons. cbn [run].
  replace (head (a ++ b)) with (in_sight a (head b)) by (by destruct a).
  destruct (step st c _); [apply IH | done].
Qed.

Lemma run_tracks (a : list Z) :
  forall (st st' : pstate) (next : option Z) (sn : list (list Z)),
    run st a next = Parsed st' ->
    exists new,
      read_from (mkReader (current st) (carried st) (buffer st) (space st) sn)
        a next
      = mkReader (current st') (carried st') (buffer st') (space st')
          (sn ++ new).
Proof.
  induction a as [|c a IH]; intros st st' next sn Hrun.
  - injection Hrun as <-. exists []. by rewrite app_nil_r.
  - cbn [run] in Hrun.
    destruct (step st c (in_sight a next)) as [st1|] eqn:E; [|done].
    destruct (step_tracks st st1 c (in_sight a next) sn E) as (new1 & Hread & _).
    destruct (IH st1 st' next (sn ++ new1) Hrun) as (new2 & Hrest).
    exists (new1 ++ new2). cbn [read_from]. by rewrite Hread, Hrest, app_assoc.
Qed.

(** In a statement, the last step of the text before a comment did not
    depend on the comment: it is the same before any text that does
    not make a comment of it. *)
Lemma step_sight (st st' : pstate) (c : Z) (next : option Z) :
  step st c (Some SLASH) = Parsed st' ->
  current st' = Default -> carried st' = NoCarry ->
  c <> SLASH \/ next <> Some ASTERISK ->
  step st c next = Parsed st'.
Proof.
  destruct st as [m ca buf sp t]. cbn [step].
  intros Hstep Hm Hca Hnext.
  assert (Hsame : (c =? SLASH) && next_is ASTERISK next
                  = (c =? SLASH) && next_is ASTERISK (Some SLASH)).
  { destruct (Z.eqb_spec c SLASH) as [->|]; [|done]. simpl.
    destruct Hnext as [? | Hnext]; [done|].
    destruct next as [x|]; [|done]. simpl.
    apply Z.eqb_neq. congruence. }
  destruct ca; [|done|done].
  destruct m as [|r i|r q s|d].
  - unfold step_default in *. by rewrite Hsame.
  - unfold step_comment, end_comment in *.
    destruct (c =? BACKSLASH); [by injection Hstep as <-|].
    destruct (c =? ASTERISK); simpl in *.
    + destruct r; by injection Hstep as <-.
    + by injection Hstep as <-.
  - done.
  - unfold step_custom in *. by rewrite Hsame.
Qed.

Lemma run_sight (a : list Z) :
  forall (st st' : pstate) (next : option Z),
    run st a (Some SLASH) = Parsed st' ->
    current st' = Default -> carried st' = NoCarry ->
    last a <> Some SLASH \/ next <> Some ASTERISK ->
    run st a next = Parsed st'.
Proof.
  induction a as [|c a IH]; intros st st' next Hrun Hm Hca Hnext; [done|].
  cbn [run] in *.
  destruct a as [|d a].
  - simpl in *.
    destruct (step st c (Some SLASH)) as [st1|] eqn:E; [|done].
    injection Hrun as ->.
    rewrite (step_sight st st' c next E Hm Hca); [done|].
    destruct Hnext as [Hl | Hn]; [left; congruence | by right].
  - simpl in_sight in *.
    destruct (step st c (Some d)) as [st1|]; [|done].
    apply (IH st1 st' next Hrun Hm Hca).
    destruct Hnext as [Hl | Hn]; [left | by right].
    by rewrite last_cons_cons in Hl.
Qed.

(** A comment that stands in a statement and is no license comment:
    the scan goes on after it as if it were not there. *)
Lemma scan_comment_in_statement (before i rest : list Z) :
  in_statement before -> interior i -> ~ license i ->
  scan initial (before ++ SLASH :: ASTERISK :: i ++ ASTERISK :: SLASH :: rest)
  = match run initial before (Some SLASH) with
    | Parsed st' => scan st' rest
    | Failed e => Failed e
    end.
Proof.
  intros [Hplace Hpending] Hi Hl. rewrite scan_run.
  change (head (SLASH :: ASTERISK :: i ++ ASTERISK :: SLASH :: rest))
    with (Some SLASH).
  destruct (run initial before (Some SLASH)) as [st'|] eqn:E; [|done].
  destruct (run_tracks before initial st' (Some SLASH) [] E) as (new & Hread).
  change (mkReader (current initial) (carried initial) (buffer initial)
            (space initial) []) with beginning in Hread.
  rewrite Hread in Hplace, Hpending. simpl in Hplace, Hpending.
  destruct st' as [m ca buf sp t]. simpl in *. subst m ca.
  rewrite scan_comment by done.
  unfold license in Hl. by destruct (starts_with EXCLAMATION_MARK i).
Qed.

(** C8, as the parser has it.  The nodes of every input that is parsed
    are the license comments among the comments of the input that
    stand outside strings and outside the raw values of custom
    properties, once each and in the order of the input, whatever the
    depth of the blocks they stand in, then nodes that hold no comment
    node at any depth; the printed text starts with these license
    comments.  A comment in a statement that is no license comment
    leaves nothing: the result is the same with any other such comment
    in its place, and the same without it.  A comment in the raw value
    of a custom property is in the value of the declaration as it is
    written, and the declaration is the only node. *)
Theorem comments_outside_raw_values
    (input input' before i i' rest name v1 j v2 : list Z) :
  interior i -> ~ license i -> in_statement before ->
  normalize input
  = before ++ SLASH :: ASTERISK :: i ++ ASTERISK :: SLASH :: rest ->
  Forall name_unit name -> value_text v1 -> interior j -> value_text v2 ->
  (forall (text : list Z) (nodes : list node),
     parse text = Parsed nodes ->
     exists body,
       nodes = map Comment
                 (filter license (comments_outside (normalize text)))
               ++ body /\
       Forall comment_free body /\
       toCss nodes
       = flat_map
           (fun v => [SLASH; ASTERISK] ++ v ++ [ASTERISK; SLASH; LINE_BREAK])
           (filter license (comments_outside (normalize text)))
         ++ toCss body) /\
  (interior i' -> ~ license i' ->
   normalize input'
   = before ++ SLASH :: ASTERISK :: i' ++ ASTERISK :: SLASH :: rest ->
   parse input' = parse input) /\
  (forall nodes : list node,
     normalize input' = before ++ rest ->
     last before <> Some SLASH \/ head rest <> Some ASTERISK ->
     parse input = Parsed nodes ->
     parse input' = Parsed nodes) /\
  (normalize input'
   = DASH :: DASH :: name ++ COLON :: v1
     ++ (SLASH :: ASTERISK :: j ++ [ASTERISK; SLASH]) ++ v2 ++ [SEMICOLON] ->
   exists (before' after' : list Z) (important : bool),
     parse input'
     = Parsed [Declaration (DASH :: DASH :: name)
                 (before' ++ (SLASH :: ASTERISK :: j ++ [ASTERISK; SLASH])
                  ++ after') important]).
Proof.
  intros Hi Hl Hbefore Hin Hname Hv1 Hj Hv2.
  split.
  { intros text nodes (body & -> & Hbody)%parse_tracks.
    exists body. repeat split; try done. apply toCss_licenses. }
  split.
  { intros Hi' Hl' Hin'.
    rewrite (parse_normalized _ _ Hin), (parse_normalized _ _ Hin').
    by rewrite !scan_comment_in_statement. }
  split.
  { intros nodes Hin' Hglue.
    rewrite (parse_normalized _ _ Hin), (parse_normalized _ _ Hin').
    rewrite scan_comment_in_statement by done. rewrite scan_run.
    destruct (run initial before (Some SLASH)) as [st'|] eqn:E; [|done].
    destruct (run_tracks before initial st' (Some SLASH) [] E)
      as (new & Hread).
    destruct Hbefore as [Hplace Hpending].
    change (mkReader (current initial) (carried initial) (buffer initial)
              (space initial) []) with beginning in Hread.
    rewrite Hread in Hplace, Hpending. simpl in Hplace, Hpending.
    by rewrite (run_sight before initial st' (head rest) E Hplace Hpending
                  Hglue). }
  intros Hin'. rewrite (parse_normalized _ _ Hin'). unfold initial.
  destruct (scan_custom_keeps name v1
              (SLASH :: ASTERISK :: j ++ [ASTERISK; SLASH]) v2 []
              (mkTree [] [] []))
    as (before' & after' & important & Hscan);
    [done | done | by apply kept_comment | done |].
  exists before', after', important. by rewrite Hscan.
Qed.

Lemma comments_outside_raw_values_witness :
  parse (units ".a /* note */.b{}") = parse (units ".a /**/.b{}") /\
  (forall nodes : list node,
     parse (units ".a /**/.b{}") = Parsed nodes ->
     parse (units ".a .b{}") = Parsed nodes).
Proof.
  assert (H := comments_outside_raw_values
                 (units ".a /**/.b{}") (units ".a /* note */.b{}")
                 (units ".a ") [] (units " note ") (units ".b{}")
                 [] [] [] []).
  destruct H as (_ & H1 & _).
  - apply interior_nil.
  - by compute.
  - split; vm_compute; reflexivity.
  - vm_compute. reflexivity.
  - constructor.
  - apply value_nil.
  - apply interior_nil.
  - apply value_nil.
  - split.
    + apply H1; [|by compute|vm_compute; reflexivity].
      repeat (apply interior_unit; [by compute | by compute |]).
      apply interior_nil.
    + assert (H := comments_outside_raw_values
                     (units ".a /**/.b{}") (units ".a .b{}")
                     (units ".a ") [] [] (units ".b{}") [] [] [] []).
      destruct H as (_ & _ & H2 & _).
      * apply interior_nil.
      * by compute.
      * split; vm_compute; reflexivity.
      * vm_compute. reflexivity.
      * constructor.
      * apply value_nil.
      * apply interior_nil.
      * apply value_nil.
      * intros nodes. apply H2; [vm_compute; reflexivity|].
        left. by vm_compute.
Defined.

(** C8 as it is worded fails: a comment in the raw value of a custom
    property stays in the tree, inside the value, so the tree depends on
    its text; this holds for a license comment too, which is not hoisted
    from there. *)
Lemma comment_kept_in_raw_value :
  parse (units "--foo: /* x */ bar;")
  = Parsed [Declaration (units "--foo") (units "/* x */ bar") false] /\
  parse (units "--foo: /* y */ bar;") <> parse (units "--foo: /* x */ bar;") /\
  toCss [Declaration (units "--foo") (units "/* x */ bar") false]
  = units "--foo: /* x */ bar;" ++ [LINE_BREAK] /\
  parse (units "--foo: /*! x */ bar;")
  = Parsed [Declaration (units "--foo") (units "/*! x */ bar") false].
Proof. repeat split; by vm_compute. Qed.

(** *** The tests of the parser (css-parser.test.ts), on the model *)

Example test_comment_ignored :
  parse (join_lines [""; "  /*Hello, world!*/"; ""]) = Parsed [] /\
  parse (join_lines [""; "  /*Hello, \*\/ world!*/"; ""]) = Parsed [] /\
  parse (join_lines [""; ".foo {"; "  /*Example comment*/"; "}"; ""])
  = Parsed [Rule (units ".foo") []].
Proof. repeat split; by vm_compute. Qed.

Example test_comments_between_selectors :
  parse (join_lines
    [""; ".foo/*.bar*/.baz {"; "}";
     ".foo/*.bar*//*.baz*/.qux"; "{"; "}";
     ".foo/*.bar*/ /*.baz*/.qux {"; "  /*        ^ whitespace */"; "}";
     ".foo /*.bar*/.baz {"; "  /*^ whitespace */"; "}";
     ".foo/*.bar*/ .baz {"; "  /*        ^ whitespace */"; "}";
     ".foo/*.bar*/"; ".baz {"; "}"; ""])
  = Parsed [Rule (units ".foo.baz") []; Rule (units ".foo.qux") [];
            Rule (units ".foo .qux") []; Rule (units ".foo .baz") [];
            Rule (units ".foo .baz") []; Rule (units ".foo .baz") []].
Proof. by vm_compute. Qed.

Example test_license_comments_hoisted :
  parse (join_lines
    [""; "/*! License #1 */"; ".foo {"; "  color: red; /*! License #1.5 */";
     "}"; "/*! License #2 */"; ".bar {"; "  /*! License #2.5 */";
     "  color: blue;"; "}"; "/*! License #3 */"; ""])
  = Parsed [Comment (units "! License #1 "); Comment (units "! License #1.5 ");
            Comment (units "! License #2 "); Comment (units "! License #2.5 ");
            Comment (units "! License #3 ");
            Rule (units ".foo")
              [Declaration (units "color") (units "red") false];
            Rule (units ".bar")
              [Declaration (units "color") (units "blue") false]].
Proof. by vm_compute. Qed.

Example test_comment_before_element :
  parse (join_lines [""; ".dark /* comment */p {"; "  color: black;"; "}"; ""])
  = Parsed [Rule (units ".dark p")
              [Declaration (units "color") (units "black") false]].
Proof. by vm_compute. Qed.

Example test_declarations :
  parse (join_lines [""; "  color: red;"; ""])
  = Parsed [Declaration (units "color") (units "red") false] /\
  parse (units "content: 'Hello, world!';")
  = Parsed [Declaration (units "content") (units "'Hello, world!'") false] /\
  parse (units "content: 'These are not the end \' of the string';")
  = Parsed [Declaration (units "content")
              (units "'These are not the end \' of the string'") false] /\
  parse (units "width: 123px !important;")
  = Parsed [Declaration (units "width") (units "123px") true] /\
  parse (units "width: 123px !important /* Very important */;")
  = Parsed [Declaration (units "width") (units "123px") true] /\
  parse (join_lines
    [""; "color/* color: #f00; */: red;";
     "font-weight:/* font-size: 12px */ bold;"; ""])
  = Parsed [Declaration (units "color") (units "red") false;
            Declaration (units "font-weight") (units "bold") false] /\
  parse (join_lines
    [""; ".foo {"; "  grid-template-areas:"; "    'header header header'";
     "    'sidebar main main'"; "    'footer footer footer';"; "}"; ""])
  = Parsed [Rule (units ".foo")
              [Declaration (units "grid-template-areas")
                 (units "'header header header' 'sidebar main main' 'footer footer footer'")
                 false]].
Proof. repeat split; by vm_compute. Qed.

Example test_custom_properties :
  parse (join_lines [""; "  --foo: bar;"; ""])
  = Parsed [Declaration (units "--foo") (units "bar") false] /\
  parse (units ":root{--foo:bar;}")
  = Parsed [Rule (units ":root")
              [Declaration (units "--foo") (units "bar") false]] /\
  parse (units ":root{--foo:bar}")
  = Parsed [Rule (units ":root")
              [Declaration (units "--foo") (units "bar") false]] /\
  parse (join_lines [""; "  --foo: bar"; ""])
  = Parsed [Declaration (units "--foo") (units "bar") false] /\
  parse (join_lines [""; "  --foo: bar !important"; ""])
  = Parsed [Declaration (units "--foo") (units "bar") true] /\
  parse (units "--foo: if(x > 5) this.width = 10;")
  = Parsed [Declaration (units "--foo") (units "if(x > 5) this.width = 10")
              false] /\
  parse (units "--foo: {};")
  = Parsed [Declaration (units "--foo") (units "{}") false] /\
  parse (join_lines
    [""; "  --foo: {"; "    background-color: red;"; "    /* A comment ; */";
     "    content: 'Hello, world!';"; "  };";
     "  --bar: {"; "    background-color: red;"; "    /* A comment } */";
     "    content: 'Hello, world!';"; "  };"; ""])
  = Parsed [Declaration (units "--foo")
              (join_lines ["{"; "    background-color: red;";
                           "    /* A comment ; */";
                           "    content: 'Hello, world!';"; "  }"]) false;
            Declaration (units "--bar")
              (join_lines ["{"; "    background-color: red;";
                           "    /* A comment } */";
                           "    content: 'Hello, world!';"; "  }"]) false] /\
  parse (units
    "--foo: /* This is not the end \; this is also not the end ; */ but this is;")
  = Parsed [Declaration (units "--foo")
              (units
    "/* This is not the end \; this is also not the end ; */ but this is")
              false] /\
  parse (units "--foo: bar !important;")
  = Parsed [Declaration (units "--foo") (units "bar") true].
Proof. repeat split; by vm_compute. Qed.

Example test_selectors_and_nesting :
  parse (join_lines [""; ".hover\:foo:hover {"; "}"; ".\32 xl\:foo {"; "}"; ""])
  = Parsed [Rule (units ".hover\:foo:hover") [];
            Rule (units ".\32 xl\:foo") []] /\
  parse (join_lines [".foo,"; ".bar,"; ".baz"; "{"; "color:red;"; "}"])
  = Parsed [Rule (units ".foo, .bar, .baz")
              [Declaration (units "color") (units "red") false]] /\
  parse (join_lines
    [""; ".foo {"; "  color: red;"; "  font-size: 16px !important"; "}"; ""])
  = Parsed [Rule (units ".foo")
              [Declaration (units "color") (units "red") false;
               Declaration (units "font-size") (units "16px") true]] /\
  parse (join_lines
    [""; ".foo {"; "  font-weight: bold;"; "  .bar {"; "    color: red;";
     "  }"; "  --in-between: 1;"; "  &:hover {"; "    color: blue;"; "  }";
     "  --at-the-end: 2;"; "}"; ""])
  = Parsed [Rule (units ".foo")
              [Declaration (units "font-weight") (units "bold") false;
               Rule (units ".bar")
                 [Declaration (units "color") (units "red") false];
               Declaration (units "--in-between") (units "1") false;
               Rule (units "&:hover")
                 [Declaration (units "color") (units "blue") false];
               Declaration (units "--at-the-end") (units "2") false]] /\
  parse (join_lines
    [""; ".foo:has(.bar /* instead \*\/ of .baz { */) {"; "  color: red;";
     "}"; ""])
  = Parsed [Rule (units ".foo:has(.bar )")
              [Declaration (units "color") (units "red") false]].
Proof. repeat split; by vm_compute. Qed.

(** Carriage return, line break is read as a line break. *)
Example test_windows_line_endings :
  parse (to_crlf (join_lines
    [""; "  --foo: {"; "    color: red;"; "  };"; ".a,"; ".b {"; "}"; ""]))
  = parse (join_lines
    [""; "  --foo: {"; "    color: red;"; "  };"; ".a,"; ".b {"; "}"; ""]) /\
  parse (to_crlf open_string_sample)
  = Failed (UnterminatedString DOUBLE_QUOTE (units "Hello world!")) /\
  parse (units "@charset;" ++ to_crlf unclosed_sample)
  = Failed (UnbalancedClosingBrace (units ".bar")) /\
  parse (join_lines
    [""; ".foo {"; "  color: red;"; "}"; ""; ".bar"; "  color: blue;"; "}"; ""])
  = Failed UnbalancedOpeningBrace.
Proof. repeat split; by vm_compute. Qed.

(** The name of a custom property is read as any statement is: a
    comment before its colon leaves nothing, a license comment there is
    hoisted. *)
Example test_custom_property_name :
  parse (units "--foo/* c */: bar;")
  = Parsed [Declaration (units "--foo") (units "bar") false] /\
  parse (units "--foo /*! L */: bar;")
  = Parsed [Comment (units "! L ");
            Declaration (units "--foo") (units "bar") false] /\
  comments_outside (units "a /* b */ { --c: /* d */ e; f: '/* g */' } /*! h")
  = [units " b "; units "! h"].
Proof. repeat split; by vm_compute. Qed.

(** The block left open is named by its whole prelude, white space
    collapsed and comments left out, also when the braces left open
    after it are those of a raw value, and also when a string is left
    open inside such braces. *)
Example test_unclosed_preludes :
  parse (units ".a .b { color: red")
  = Failed (UnbalancedClosingBrace (units ".a .b")) /\
  parse (units "@media (width >= 600px) {" ++ CARRIAGE_RETURN :: LINE_BREAK
         :: units "  .foo, .bar { color: red }")
  = Failed (UnbalancedClosingBrace (units "@media (width >= 600px)")) /\
  parse (join_lines [".foo,"; ".bar {"; "  color: red;"])
  = Failed (UnbalancedClosingBrace (units ".foo, .bar")) /\
  parse (units ".a /* c */ .b { --x: { y /* z")
  = Failed (UnbalancedClosingBrace (units ".a .b")) /\
  parse (units ".a { --x: { y: 'abc")
  = Failed (UnterminatedString SINGLE_QUOTE (units "abc")).
Proof. repeat split; by vm_compute. Qed.

End CssFacts.


(** * Further properties of the line table *)

(** The expectations of the test of the line table. *)
Example test_line_tables :
  map (fun offset => find (computeLineTable line_tables_text) offset)
    [0; 1; 2; 3; 4; 5; 6; 7; 8; 19; 21; 22; 23]
  = [{| line := 1; column := Num 1 |}; {| line := 1; column := Num 2 |};
     {| line := 1; column := Num 3 |}; {| line := 1; column := Num 4 |};
     {| line := 1; column := Num 5 |}; {| line := 1; column := Num 6 |};
     {| line := 1; column := Num 7 |}; {| line := 2; column := Num 1 |};
     {| line := 2; column := Num 2 |}; {| line := 2; column := Num 13 |};
     {| line := 3; column := Num 1 |}; {| line := 3; column := Num 2 |};
     {| line := 4; column := Num 1 |}].
Proof. vm_compute. reflexivity. Qed.

Lemma ordered_cons {A : Type} (R : A -> A -> Prop) (x : A) (l : list A) :
  ordered R (x :: l) <-> Forall (R x) l /\ ordered R l.
Proof.
  split.
  - intros H. split.
    + apply Forall_lookup. intros i a Ha. apply (H 0%nat (S i)); [done|done|lia].
    + intros i j a b Ha Hb Hij. apply (H (S i) (S j)); [done|done|lia].
  - intros [Hx Hl] i j a b Ha Hb Hij.
    destruct j as [|j]; [lia|]. simpl in Hb.
    destruct i as [|i]; simpl in Ha.
    + injection Ha as <-. eapply Forall_lookup_1 in Hx; eauto.
    + apply (Hl i j); [done|done|lia].
Qed.

Lemma ordered_nil {A : Type} (R : A -> A -> Prop) : ordered R [].
Proof. intros i j a b Ha. by rewrite lookup_nil in Ha. Qed.

Lemma line_starts_ordered (source : list Z) (i : Z) :
  ordered Z.lt (line_starts i source).
Proof.
  revert i. induction source as [|c rest IH]; intros i; simpl.
  - apply ordered_nil.
  - destruct (c =? LINE_BREAK); [|apply IH].
    apply ordered_cons. split; [|apply IH].
    apply Forall_forall. intros s Hs. apply line_starts_bounds in Hs. lia.
Qed.

Lemma build_table_ordered (source : list Z) :
  ordered Z.lt (build_table source).
Proof.
  unfold build_table. apply ordered_cons. split; [|apply line_starts_ordered].
  apply Forall_forall. intros s Hs. apply line_starts_bounds in Hs. lia.
Qed.

Lemma build_table_range (source : list Z) (s : Z) :
  s ∈ build_table source -> 0 <= s <= Z.of_nat (length source).
Proof.
  unfold build_table. rewrite elem_of_cons. intros [->|Hs]; [lia|].
  apply line_starts_bounds in Hs. lia.
Qed.

Lemma ordered_lt_inj (l : list Z) (i j : nat) (a : Z) :
  ordered Z.lt l -> l !! i = Some a -> l !! j = Some a -> i = j.
Proof.
  intros H Hi Hj.
  destruct (Nat.lt_trichotomy i j) as [Hlt|[->|Hlt]]; [|done|].
  - pose proof (H i j a a Hi Hj Hlt). lia.
  - pose proof (H j i a a Hj Hi Hlt). lia.
Qed.

Lemma count_breaks_le_length (source : list Z) :
  (count_breaks source <= length source)%nat.
Proof. unfold count_breaks. apply length_filter. Qed.

Lemma table_fits (source : list Z) :
  text_fits source ->
  0 <= Z.of_nat (length (build_table source)) < 2 ^ 32.
Proof.
  unfold text_fits. intros H. rewrite build_table_length.
  pose proof (count_breaks_le_length source). split; [lia|].
  apply Z.le_lt_trans with (Z.of_nat (length source) + 1); [lia|exact H].
Qed.

(** The value of [find] at an offset that is not negative, with the
    line start it subtracts. *)
Lemma find_value (source : list Z) (offset : Z) :
  text_fits source -> 0 <= offset ->
  let before := take (Z.to_nat offset) source in
  exists start,
    find (createLineTable source) offset
      = {| line := Z.of_nat (S (count_breaks before));
           column := Num (offset - start + 1) |} /\
    build_table source !! count_breaks before = Some start /\
    start <= offset /\
    (forall s, s ∈ build_table source -> s <= offset -> s <= start).
Proof.
  intros Hfits Hoff before.
  destruct (find_spec source offset Hfits Hoff)
    as (start & reads & Hfind & _ & Hstart & _ & Hle & Hmax & _).
  exists start. split; [|done].
  by apply find_createLineTable in Hfind.
Qed.

(** X1: the table of a text starts with 0, holds one entry per line,
    its entries increase strictly with the index, and none of them lies
    beyond the end of the text. *)
Theorem line_table_entries_increase (source : list Z) :
  build_table source !! 0%nat = Some 0 /\
  length (build_table source) = S (count_breaks source) /\
  ordered Z.lt (build_table source) /\
  (forall s, s ∈ build_table source -> 0 <= s <= Z.of_nat (length source)).
Proof.
  split; [done|]. split; [apply build_table_length|].
  split; [apply build_table_ordered|apply build_table_range].
Qed.

Lemma column_after_snoc (t : list Z) (c col : Z) :
  column_after col (t ++ [c])
  = if c =? LINE_BREAK then 0 else column_after col t + 1.
Proof.
  revert col. induction t as [|d t IH]; intros col; simpl.
  - by destruct (c =? LINE_BREAK).
  - destruct (d =? LINE_BREAK); apply IH.
Qed.

(** A text splits at its last line break: what follows has no line
    break, and its length is the column reached. *)
Lemma split_at_last_break (t : list Z) :
  exists head tail,
    t = head ++ tail /\
    (LINE_BREAK ∉ tail) /\
    (head = [] \/ last head = Some LINE_BREAK) /\
    count_breaks t = count_breaks head /\
    column_after 0 t = Z.of_nat (length tail).
Proof.
  induction t as [|c t IH] using rev_ind.
  - exists [], []. repeat split; [by apply not_elem_of_nil|by left].
  - destruct (Z.eqb_spec c LINE_BREAK) as [->|Hc].
    + exists (t ++ [LINE_BREAK]), []. rewrite app_nil_r.
      repeat split; [by apply not_elem_of_nil|right; apply last_snoc|].
      rewrite column_after_snoc. done.
    + destruct IH as (head & tail & -> & Hfree & Hhead & Hcount & Hcol).
      exists head, (tail ++ [c]). rewrite <- app_assoc.
      split; [done|]. split.
      { rewrite elem_of_app, list_elem_of_singleton. intros [?|?]; [done|].
        by apply Hc. }
      split; [done|]. split.
      * rewrite app_assoc, count_breaks_app, Hcount.
        rewrite count_breaks_cons.
        destruct (Z.eqb_spec c LINE_BREAK); [done|]. unfold count_breaks. simpl. lia.
      * rewrite app_assoc, column_after_snoc.
        destruct (Z.eqb_spec c LINE_BREAK); [done|].
        rewrite Hcol, length_app. simpl. lia.
Qed.

(** X2: inside the text, the line of an offset is one more than the
    number of line breaks before it, and its column is one more than
    the number of code units after the last of them. *)
Theorem find_counts_line_breaks (source : list Z) (k : nat) :
  text_fits source ->
  (k <= length source)%nat ->
  exists head tail : list Z,
    take k source = head ++ tail /\
    (LINE_BREAK ∉ tail) /\
    (head = [] \/ last head = Some LINE_BREAK) /\
    find (createLineTable source) (Z.of_nat k)
    = {| line := 1 + Z.of_nat (count_breaks head);
         column := Num (1 + Z.of_nat (length tail)) |}.
Proof.
  intros Hfits Hk.
  destruct (split_at_last_break (take k source))
    as (head & tail & Hsplit & Hfree & Hhead & Hcount & Hcol).
  exists head, tail. repeat split; try done.
  rewrite (find_position_at source k Hfits Hk). unfold position_at.
  rewrite Hcount, Hcol. f_equal; [lia|f_equal; lia].
Qed.

Lemma find_counts_line_breaks_witness :
  text_fits abc_text /\
  exists head tail : list Z,
    take 4 abc_text = head ++ tail /\
    (LINE_BREAK ∉ tail) /\
    (head = [] \/ last head = Some LINE_BREAK) /\
    find (createLineTable abc_text) 4
    = {| line := 1 + Z.of_nat (count_breaks head);
         column := Num (1 + Z.of_nat (length tail)) |}.
Proof.
  assert (Hfits : text_fits abc_text) by (unfold text_fits; vm_compute; reflexivity).
  split; [exact Hfits|].
  apply (find_counts_line_breaks abc_text 4 Hfits). vm_compute. lia.
Defined.

(** X3: [find] walks through the text as a reader does: offset 0 is
    line 1, column 1; past a line break the line grows by one and the
    column is 1 again; past any other code unit the column grows by
    one. *)
Theorem find_advances (source : list Z) (k : nat) (c : Z) :
  text_fits source ->
  source !! k = Some c ->
  find (createLineTable source) 0 = {| line := 1; column := Num 1 |} /\
  find (createLineTable source) (Z.of_nat k + 1)
  = if c =? LINE_BREAK
    then {| line := line (find (createLineTable source) (Z.of_nat k)) + 1;
            column := Num 1 |}
    else {| line := line (find (createLineTable source) (Z.of_nat k));
            column := num_add (column (find (createLineTable source)
                                         (Z.of_nat k))) (Num 1) |}.
Proof.
  intros Hfits Hc.
  pose proof (lookup_lt_Some _ _ _ Hc) as Hk.
  split.
  - change 0 with (Z.of_nat 0).
    rewrite (find_position_at source 0 Hfits) by lia. done.
  - replace (Z.of_nat k + 1) with (Z.of_nat (S k)) by lia.
    rewrite (find_position_at source (S k) Hfits) by lia.
    rewrite (find_position_at source k Hfits) by lia.
    unfold position_at. rewrite (take_S_r _ _ _ Hc).
    rewrite count_breaks_app, column_after_snoc, count_breaks_cons.
    cbn [line column num_add].
    destruct (c =? LINE_BREAK); f_equal; unfold count_breaks; simpl; lia.
Qed.

Lemma find_advances_witness :
  text_fits abc_text /\
  find (createLineTable abc_text) 0 = {| line := 1; column := Num 1 |} /\
  find (createLineTable abc_text) (Z.of_nat 1 + 1)
  = {| line := line (find (createLineTable abc_text) (Z.of_nat 1)) + 1;
       column := Num 1 |}.
Proof.
  assert (Hfits : text_fits abc_text) by (unfold text_fits; vm_compute; reflexivity).
  split; [exact Hfits|].
  exact (find_advances abc_text 1 LINE_BREAK Hfits eq_refl).
Defined.

Lemma count_breaks_take_le (source : list Z) (n m : nat) :
  (n <= m)%nat ->
  (count_breaks (take n source) <= count_breaks (take m source))%nat.
Proof.
  intros Hnm.
  replace (take n source) with (take n (take m source))
    by (rewrite take_take; f_equal; lia).
  apply count_breaks_take.
Qed.

(** X4: [find] keeps the order of offsets below 2^53 (where the
    arithmetic of the code is exact): a later offset is on a later
    line, or on the same line as many columns further as the offsets
    are apart; so two different offsets never get the same position. *)
Theorem find_keeps_order (source : list Z) (o1 o2 : Z) :
  text_fits source ->
  0 <= o1 <= o2 ->
  o2 < 2 ^ 53 ->
  let p1 := find (createLineTable source) o1 in
  let p2 := find (createLineTable source) o2 in
  (line p1 < line p2 \/
   line p1 = line p2 /\
   exists c1, column p1 = Num c1 /\ column p2 = Num (c1 + (o2 - o1))) /\
  (p1 = p2 -> o1 = o2).
Proof.
  intros Hfits Ho _ p1 p2.
  destruct (find_value source o1 Hfits) as (s1 & H1 & Hs1 & _); [lia|].
  destruct (find_value source o2 Hfits) as (s2 & H2 & Hs2 & _); [lia|].
  subst p1 p2. rewrite H1, H2. cbn [line column].
  assert (Hle : (count_breaks (take (Z.to_nat o1) source)
                 <= count_breaks (take (Z.to_nat o2) source))%nat)
    by (apply count_breaks_take_le; lia).
  split.
  - destruct (decide (count_breaks (take (Z.to_nat o1) source)
                      = count_breaks (take (Z.to_nat o2) source))) as [E|E].
    + right. split; [by rewrite E|].
      rewrite E in Hs1. rewrite Hs1 in Hs2. injection Hs2 as ->.
      eexists. split; [done|]. f_equal. lia.
    + left. lia.
  - intros Heq. injection Heq as Hline Hcol.
    assert (E : count_breaks (take (Z.to_nat o1) source)
                = count_breaks (take (Z.to_nat o2) source)) by lia.
    rewrite E in Hs1. rewrite Hs1 in Hs2. injection Hs2 as ->. lia.
Qed.

Lemma find_keeps_order_witness :
  text_fits abc_text /\
  (line (find (createLineTable abc_text) 1)
   < line (find (createLineTable abc_text) 4) \/
   line (find (createLineTable abc_text) 1)
   = line (find (createLineTable abc_text) 4) /\
   exists c1, column (find (createLineTable abc_text) 1) = Num c1 /\
              column (find (createLineTable abc_text) 4) = Num (c1 + (4 - 1))) /\
  (find (createLineTable abc_text) 1 = find (createLineTable abc_text) 4
   -> 1 = 4).
Proof.
  assert (Hfits : text_fits abc_text) by (unfold text_fits; vm_compute; reflexivity).
  split; [exact Hfits|].
  apply (find_keeps_order abc_text 1 4 Hfits); [lia | reflexivity].
Defined.

(** X5: the offsets that get column 1 are the entries of the table,
    and the entry at index [j] is the start of line [j + 1]. *)
Theorem find_at_line_start (source : list Z) (offset : Z) :
  text_fits source ->
  0 <= offset ->
  (forall j : nat,
     build_table source !! j = Some offset ->
     find (createLineTable source) offset
     = {| line := Z.of_nat j + 1; column := Num 1 |}) /\
  (column (find (createLineTable source) offset) = Num 1 <->
   offset ∈ build_table source).
Proof.
  intros Hfits Hoff.
  destruct (find_value source offset Hfits Hoff)
    as (start & Hfind & Hstart & Hle & Hmax).
  split.
  - intros j Hj.
    assert (Hin : offset ∈ build_table source)
      by (eapply list_elem_of_lookup_2; eauto).
    assert (start = offset) as -> by (pose proof (Hmax offset Hin); lia).
    rewrite Hfind.
    rewrite (ordered_lt_inj _ _ _ _ (build_table_ordered source) Hj Hstart).
    f_equal; [lia|f_equal; lia].
  - rewrite Hfind. cbn [column]. split.
    + intros Hcol. injection Hcol as Hcol.
      assert (offset = start) as -> by lia.
      eapply list_elem_of_lookup_2; eauto.
    + intros Hin. f_equal. pose proof (Hmax offset Hin). lia.
Qed.

Lemma find_at_line_start_witness :
  text_fits abc_text /\
  (forall j : nat,
     build_table abc_text !! j = Some 2 ->
     find (createLineTable abc_text) 2
     = {| line := Z.of_nat j + 1; column := Num 1 |}) /\
  (column (find (createLineTable abc_text) 2) = Num 1 <->
   2 ∈ build_table abc_text).
Proof.
  assert (Hfits : text_fits abc_text) by (unfold text_fits; vm_compute; reflexivity).
  split; [exact Hfits|].
  apply (find_at_line_start abc_text 2 Hfits). lia.
Defined.

(** X6: from a position back to its offset: [d] code units after the
    start of line [j + 1], and before the start of the next line if
    there is one, [find] answers line [j + 1], column [d + 1]; the
    offset is below 2^53, where the arithmetic of the code is exact. *)
Theorem find_within_line (source : list Z) (j : nat) (s d : Z) :
  text_fits source ->
  build_table source !! j = Some s ->
  0 <= d ->
  s + d < 2 ^ 53 ->
  (forall s', build_table source !! S j = Some s' -> s + d < s') ->
  find (createLineTable source) (s + d)
  = {| line := Z.of_nat j + 1; column := Num (d + 1) |}.
Proof.
  intros Hfits Hj Hd _ Hnext.
  assert (Hin : s ∈ build_table source) by (eapply list_elem_of_lookup_2; eauto).
  pose proof (build_table_range source s Hin) as Hs.
  destruct (find_value source (s + d) Hfits) as (start & Hfind & Hstart & Hle & Hmax);
    [lia|].
  pose proof (Hmax s Hin) as Hge.
  pose proof (build_table_ordered source) as Hord.
  set (cb := count_breaks (take (Z.to_nat (s + d)) source)) in *.
  assert (Hcb : cb = j).
  { destruct (Nat.lt_trichotomy cb j) as [Hlt|[E|Hgt]]; [|done|].
    - pose proof (Hord cb j start s Hstart Hj Hlt). lia.
    - destruct (lookup_lt_is_Some_2 (build_table source) (S j)) as [s' Hs'].
      { apply lookup_lt_Some in Hstart. lia. }
      pose proof (Hnext s' Hs') as Hbound.
      destruct (decide (S j = cb)) as [E|E].
      + rewrite E in Hs'. rewrite Hs' in Hstart. injection Hstart as ->. lia.
      + assert (Hlt : (S j < cb)%nat) by lia.
        pose proof (Hord (S j) cb s' start Hs' Hstart Hlt). lia. }
  rewrite Hcb in Hstart. rewrite Hstart in Hj. injection Hj as ->.
  rewrite Hfind, Hcb. f_equal; [lia|f_equal; lia].
Qed.

Lemma find_within_line_witness :
  text_fits abc_text /\
  find (createLineTable abc_text) (2 + 1)
  = {| line := Z.of_nat 1 + 1; column := Num (1 + 1) |}.
Proof.
  assert (Hfits : text_fits abc_text) by (unfold text_fits; vm_compute; reflexivity).
  split; [exact Hfits|].
  apply (find_within_line abc_text 1 2 1 Hfits); [reflexivity|lia|reflexivity|].
  intros s' Hs'. vm_compute in Hs'. injection Hs' as <-. lia.
Defined.

Lemma negative_splits (source : list Z) (offset : Z) :
  offset < 0 -> splits_at (build_table source) offset 0.
Proof.
  intros Hneg. split.
  - intros j v _ Hj. lia.
  - intros j v Hv _.
    assert (Hin : v ∈ build_table source) by (eapply list_elem_of_lookup_2; eauto).
    apply build_table_range in Hin. lia.
Qed.

Lemma find_traced_negative (source : list Z) (offset : Z) :
  text_fits source -> offset < 0 ->
  exists reads,
    find_traced (build_table source) offset
      = Some ({| line := 0; column := NaN |}, reads ++ [-1]) /\
    Forall (fun i => 0 <= i < Z.of_nat (length (build_table source))) reads.
Proof.
  intros Hfits Hneg.
  pose proof (table_fits source Hfits) as Hlen.
  destruct (search_spec (length (build_table source)) (build_table source)
              offset 0 (Z.of_nat (length (build_table source))) [] 0
              (negative_splits source offset Hneg))
    as (reads & Hsearch & Hreads); [lia|exact Hlen|lia|lia|lia|].
  exists reads. split; [|done].
  unfold find_traced. rewrite Hsearch. done.
Qed.

(** X7: before the text there is no position: for a negative offset
    the loop of [find] ends with line 0, the function then reads the
    table at index -1, which holds nothing, and answers line 0 with a
    column that is not a number. *)
Theorem find_negative_offset (source : list Z) (offset : Z) :
  text_fits source ->
  offset < 0 ->
  exists reads,
    find_traced (build_table source) offset
      = Some ({| line := 0; column := NaN |}, reads ++ [-1]) /\
    Forall (fun i => 0 <= i < Z.of_nat (length (build_table source))) reads /\
    read (build_table source) (-1) = None /\
    find (createLineTable source) offset = {| line := 0; column := NaN |} /\
    find (computeLineTable source) offset = {| line := 0; column := NaN |}.
Proof.
  intros Hfits Hneg.
  destruct (find_traced_negative source offset Hfits Hneg)
    as (reads & Hfind & Hreads).
  exists reads. repeat split; try done.
  - by apply find_createLineTable in Hfind.
  - change (computeLineTable source) with (createLineTable source).
    by apply find_createLineTable in Hfind.
Qed.

Lemma find_negative_offset_witness :
  text_fits abc_text /\
  exists reads,
    find_traced (build_table abc_text) (-3)
      = Some ({| line := 0; column := NaN |}, reads ++ [-1]) /\
    Forall (fun i => 0 <= i < Z.of_nat (length (build_table abc_text))) reads /\
    read (build_table abc_text) (-1) = None /\
    find (createLineTable abc_text) (-3) = {| line := 0; column := NaN |} /\
    find (computeLineTable abc_text) (-3) = {| line := 0; column := NaN |}.
Proof.
  assert (Hfits : text_fits abc_text) by (unfold text_fits; vm_compute; reflexivity).
  split; [exact Hfits|].
  apply (find_negative_offset abc_text (-3) Hfits). lia.
Defined.

Lemma search_steps_nonneg (count : Z) : 0 <= search_steps count.
Proof.
  unfold search_steps. destruct (count =? 0); [lia|].
  pose proof (Z.log2_nonneg count). lia.
Qed.

Lemma search_steps_half (count count' : Z) :
  0 < count -> 0 <= count' <= count / 2 ->
  search_steps count' + 1 <= search_steps count.
Proof.
  intros Hcount Hhalf. unfold search_steps.
  destruct (Z.eqb_spec count 0) as [|_]; [lia|].
  destruct (Z.eqb_spec count' 0) as [|Hpos].
  - pose proof (Z.log2_nonneg count). lia.
  - assert (Hdouble : Z.log2 (2 * count') = Z.succ (Z.log2 count'))
      by (apply Z.log2_double; lia).
    assert (Hmono : Z.log2 (2 * count') <= Z.log2 count)
      by (apply Z.log2_le_mono; pose proof (Z.mul_div_le count 2); lia).
    lia.
Qed.

(** Each iteration reads the table once and at least halves the number
    of entries left to look at. *)
Lemma search_reads_bound (fuel : nat) (table : list Z)
    (offset line count : Z) (reads : list Z) (k : Z) (reads' : list Z) :
  0 <= count < 2 ^ 32 ->
  search fuel table offset line count reads = Some (k, reads') ->
  Z.of_nat (length reads') <= Z.of_nat (length reads) + search_steps count.
Proof.
  revert line count reads.
  induction fuel as [|fuel IH]; intros line count reads Hcount Hsearch.
  - simpl in Hsearch. destruct (Z.ltb_spec 0 count); [done|].
    injection Hsearch as _ <-. pose proof (search_steps_nonneg count). lia.
  - simpl in Hsearch. destruct (Z.ltb_spec 0 count) as [Hpos|Hzero].
    + destruct (half_in_range count) as [Hmid Hrange]; [lia|].
      rewrite Hmid in Hsearch.
      assert (Hlt : count / 2 < 2 ^ 32) by lia.
      assert (Hupper : count - count / 2 - 1 <= count / 2)
        by (pose proof (Z.div_mod count 2); pose proof (Z.mod_pos_bound count 2);
            lia).
      destruct (le_number (read table (line + count / 2)) offset).
      * apply IH in Hsearch; [|lia].
        rewrite length_app in Hsearch. simpl in Hsearch.
        pose proof (search_steps_half count (count - count / 2 - 1)).
        clear Hcount Hlt. lia.
      * apply IH in Hsearch; [|lia].
        rewrite length_app in Hsearch. simpl in Hsearch.
        pose proof (search_steps_half count (count / 2)).
        clear Hcount Hlt. lia.
    + injection Hsearch as _ <-. pose proof (search_steps_nonneg count). lia.
Qed.

Lemma find_traced_total (source : list Z) (offset : Z) :
  text_fits source ->
  exists p reads, find_traced (build_table source) offset = Some (p, reads).
Proof.
  intros Hfits. destruct (Z.lt_ge_cases offset 0) as [Hneg|Hpos].
  - destruct (find_traced_negative source offset Hfits Hneg) as (reads & H & _).
    eauto.
  - destruct (find_spec source offset Hfits Hpos) as (start & reads & H & _).
    eauto.
Qed.

(** X8: [find] answers after a number of reads of the table that is
    logarithmic in the number of lines: at most two more than the
    binary logarithm of the table's length, for every offset. *)
Theorem find_reads_logarithmic (source : list Z) (offset : Z) :
  text_fits source ->
  exists p reads,
    find_traced (build_table source) offset = Some (p, reads) /\
    find (createLineTable source) offset = p /\
    Z.of_nat (length reads)
    <= Z.log2 (Z.of_nat (length (build_table source))) + 2.
Proof.
  intros Hfits.
  destruct (find_traced_total source offset Hfits) as (p & reads & Hfind).
  exists p, reads. split; [done|].
  split; [by eapply find_createLineTable|].
  pose proof (table_fits source Hfits) as Hlen.
  unfold find_traced in Hfind.
  destruct (search _ _ _ _ _ _) as [[k reads0]|] eqn:Hsearch; [|done].
  injection Hfind as _ <-.
  apply search_reads_bound in Hsearch; [|exact Hlen].
  unfold search_steps in Hsearch. rewrite build_table_length in *.
  destruct (Z.eqb_spec (Z.of_nat (S (count_breaks source))) 0); [lia|].
  rewrite length_app. simpl in *. clear Hlen Hfits. lia.
Qed.

Lemma find_reads_logarithmic_witness :
  text_fits abc_text /\
  exists p reads,
    find_traced (build_table abc_text) 5 = Some (p, reads) /\
    find (createLineTable abc_text) 5 = p /\
    Z.of_nat (length reads)
    <= Z.log2 (Z.of_nat (length (build_table abc_text))) + 2.
Proof.
  assert (Hfits : text_fits abc_text) by (unfold text_fits; vm_compute; reflexivity).
  split; [exact Hfits|].
  exact (find_reads_logarithmic abc_text 5 Hfits).
Defined.

Lemma text_fits_prefix (a b : list Z) : text_fits (a ++ b) -> text_fits a.
Proof.
  unfold text_fits. rewrite length_app. intros H.
  apply Z.le_lt_trans with (Z.of_nat (length a + length b) + 1); [lia|exact H].
Qed.

(** X9: the position of an offset depends on the text before it only:
    text added after the offset leaves its line and column as they
    were. *)
Theorem find_ignores_later_text (a b : list Z) (k : nat) :
  text_fits (a ++ b) ->
  (k <= length a)%nat ->
  find (createLineTable (a ++ b)) (Z.of_nat k)
  = find (createLineTable a) (Z.of_nat k).
Proof.
  intros Hfits Hk.
  rewrite (find_position_at (a ++ b) k Hfits)
    by (rewrite length_app; lia).
  rewrite (find_position_at a k (text_fits_prefix a b Hfits) Hk).
  unfold position_at. by rewrite take_app_le.
Qed.

Lemma find_ignores_later_text_witness :
  text_fits (abc_text ++ abc_text) /\
  find (createLineTable (abc_text ++ abc_text)) (Z.of_nat 4)
  = find (createLineTable abc_text) (Z.of_nat 4).
Proof.
  assert (Hfits : text_fits (abc_text ++ abc_text))
    by (unfold text_fits; vm_compute; reflexivity).
  split; [exact Hfits|].
  apply (find_ignores_later_text abc_text abc_text 4 Hfits). vm_compute. lia.
Defined.

(** * Further properties of the source map *)

Lemma by_generated_lt (x y : DecodedMapping) (cx cy : Z) :
  generatedColumn x = Num cx -> generatedColumn y = Num cy ->
  compare_result (by_generated x y) < 0 <->
  generatedLine x < generatedLine y \/
  (generatedLine x = generatedLine y /\ cx < cy).
Proof.
  intros Hx Hy. unfold by_generated. rewrite Hx, Hy.
  destruct (Z.eqb_spec (generatedLine x) (generatedLine y)); simpl; lia.
Qed.

Lemma generated_le_trans (a b c : DecodedMapping) :
  generated_le a b -> generated_le b c -> generated_le a c.
Proof.
  unfold generated_le.
  destruct (generatedColumn a), (generatedColumn b), (generatedColumn c);
    try done; lia.
Qed.

Lemma filter_none {A : Type} (P : A -> Prop) `{!forall x, Decision (P x)}
    (l : list A) :
  Forall (fun x => ~ P x) l -> filter P l = [].
Proof.
  induction 1 as [|x l Hx _ IH]; [done|].
  by rewrite filter_cons_False.
Qed.

Lemma insert_sorted_ordered (x : DecodedMapping) (l : list DecodedMapping) :
  numeric x -> Forall numeric l ->
  ordered generated_le l ->
  ordered generated_le (insert_sorted by_generated x l).
Proof.
  intros [cx Hx] Hnum. induction l as [|y rest IH]; intros Hord; simpl.
  - apply ordered_cons. split; [constructor|apply ordered_nil].
  - apply Forall_cons in Hnum as [[cy Hy] Hnum].
    apply ordered_cons in Hord as [Hy_le Hrest].
    pose proof (by_generated_lt x y cx cy Hx Hy) as Hlt.
    destruct (Z.ltb_spec (compare_result (by_generated x y)) 0) as [Hc|Hc].
    + assert (Hxy : generated_le x y)
        by (unfold generated_le; rewrite Hx, Hy; lia).
      apply ordered_cons. split.
      * constructor; [done|].
        eapply Forall_impl; [exact Hy_le|].
        intros z Hz. by eapply generated_le_trans.
      * by apply ordered_cons.
    + assert (Hyx : generated_le y x)
        by (unfold generated_le; rewrite Hx, Hy; lia).
      apply ordered_cons. split; [|by apply IH].
      rewrite insert_sorted_perm. by constructor.
Qed.

Lemma insert_sorted_stable (p x : DecodedMapping) (l : list DecodedMapping) :
  numeric x -> Forall numeric l ->
  ordered generated_le l ->
  filter (same_generated p) (insert_sorted by_generated x l)
  = filter (same_generated p) l ++ filter (same_generated p) [x].
Proof.
  intros [cx Hx] Hnum. induction l as [|y rest IH]; intros Hord; simpl.
  - done.
  - apply Forall_cons in Hnum as [[cy Hy] Hnum].
    apply ordered_cons in Hord as [Hy_le Hrest].
    pose proof (by_generated_lt x y cx cy Hx Hy) as Hlt.
    destruct (Z.ltb_spec (compare_result (by_generated x y)) 0) as [Hc|Hc].
    + apply Hlt in Hc.
      destruct (decide (same_generated p x)) as [Hp|Hp].
      * assert (Hnone : filter (same_generated p) (y :: rest) = []).
        { apply filter_none.
          constructor.
          - unfold same_generated in *. rewrite Hy. destruct Hp as [Hl Hcol].
            rewrite Hx in Hcol. intros [Hl' Hc']. rewrite <- Hcol in Hc'.
            injection Hc' as ->. lia.
          - eapply Forall_impl; [exact Hy_le|].
            intros z Hz. unfold same_generated in *. unfold generated_le in Hz.
            rewrite Hy in Hz. destruct (generatedColumn z) as [cz|] eqn:Ez; [|done].
            destruct Hp as [Hl Hcol]. rewrite Hx in Hcol.
            intros [Hl' Hc']. rewrite <- Hcol in Hc'. injection Hc' as ->. lia. }
        rewrite filter_cons_True by done. rewrite Hnone.
        by rewrite (filter_cons_True _ x []).
      * rewrite filter_cons_False by done.
        rewrite (filter_cons_False _ x []) by done.
        by rewrite filter_nil, app_nil_r.
    + rewrite !filter_cons. rewrite IH by done.
      destruct (decide (same_generated p y)); done.
Qed.

Lemma insert_sorted_numeric (x : DecodedMapping) (l : list DecodedMapping) :
  numeric x -> Forall numeric l ->
  Forall numeric (insert_sorted by_generated x l).
Proof. intros Hx Hl. rewrite insert_sorted_perm. by constructor. Qed.

Lemma fold_insert_sorted (l acc : list DecodedMapping) :
  Forall numeric l -> Forall numeric acc ->
  ordered generated_le acc ->
  let sorted :=
    fold_left (fun sorted x => insert_sorted by_generated x sorted) l acc in
  ordered generated_le sorted /\
  forall p, filter (same_generated p) sorted
            = filter (same_generated p) acc ++ filter (same_generated p) l.
Proof.
  revert acc. induction l as [|x l IH]; intros acc Hl Hacc Hord; simpl.
  - split; [done|]. intros p. by rewrite app_nil_r.
  - apply Forall_cons in Hl as [Hx Hl].
    destruct (IH (insert_sorted by_generated x acc) Hl
                (insert_sorted_numeric x acc Hx Hacc)
                (insert_sorted_ordered x acc Hx Hacc Hord)) as [Hsorted Hstable].
    split; [done|]. intros p.
    rewrite Hstable, insert_sorted_stable by done.
    rewrite <- app_assoc. f_equal.
    rewrite (filter_cons _ x l), (filter_cons _ x []), filter_nil.
    by destruct (decide (same_generated p x)).
Qed.

Lemma array_sort_ordered (l : list DecodedMapping) :
  Forall numeric l ->
  ordered generated_le (array_sort by_generated l) /\
  forall p, filter (same_generated p) (array_sort by_generated l)
            = filter (same_generated p) l.
Proof.
  intros Hl.
  destruct (fold_insert_sorted l [] Hl) as [Hord Hstable];
    [constructor|apply ordered_nil|].
  split; [done|]. intros p. exact (Hstable p).
Qed.

(** X10: sorting with the comparator of [createSourceMap] orders the
    records by generated line, then generated column; it keeps every
    record, and records with the same generated position stay in the
    order in which they were pushed. *)
Theorem sort_orders_by_generated_position (l : list DecodedMapping) :
  Forall numeric l ->
  array_sort by_generated l ≡ₚ l /\
  ordered generated_le (array_sort by_generated l) /\
  (forall p, filter (same_generated p) (array_sort by_generated l)
             = filter (same_generated p) l).
Proof.
  intros Hl. split; [apply array_sort_perm|]. by apply array_sort_ordered.
Qed.

Lemma sort_orders_by_generated_position_witness :
  Forall numeric unsorted_sample /\
  array_sort by_generated unsorted_sample ≡ₚ unsorted_sample /\
  ordered generated_le (array_sort by_generated unsorted_sample) /\
  (forall p, filter (same_generated p) (array_sort by_generated unsorted_sample)
             = filter (same_generated p) unsorted_sample).
Proof.
  assert (Hnum : Forall numeric unsorted_sample)
    by (repeat constructor; eexists; reflexivity).
  split; [exact Hnum|].
  exact (sort_orders_by_generated_position unsorted_sample Hnum).
Defined.

Lemma find_one_based (source : list Z) (offset : Z) :
  text_fits source -> 0 <= offset ->
  one_based (1 + Z.of_nat (count_breaks source))
    (line (find (createLineTable source) offset))
    (column (find (createLineTable source) offset)).
Proof.
  intros Hfits Hoff.
  destruct (find_value source offset Hfits Hoff)
    as (start & Hfind & _ & Hle & _).
  rewrite Hfind. cbn [line column]. split.
  - pose proof (count_breaks_take (Z.to_nat offset) source). lia.
  - eexists. split; [done|]. lia.
Qed.

Lemma group_mappings_one_based (original generated : list Z)
    (group : option Offsets) :
  text_fits original -> text_fits generated -> inside group ->
  Forall (fun m =>
            one_based (1 + Z.of_nat (count_breaks original))
              (originalLine m) (originalColumn m) /\
            one_based (1 + Z.of_nat (count_breaks generated))
              (generatedLine m) (generatedColumn m))
    (group_mappings (createLineTable original) (createLineTable generated)
       group).
Proof.
  intros Ho Hg Hin. rewrite group_mappings_spec.
  destruct group as [[[s0 s1] [[d0 d1]|]]|]; try constructor.
  - simpl in Hin. split; apply find_one_based; (done || lia).
  - constructor; [|constructor].
    simpl in Hin. split; apply find_one_based; (done || lia).
Qed.

(** X11: when the offsets of the groups are not negative, every record
    that [createSourceMap] pushes holds one-based lines and columns,
    the lines within the line counts of the two texts; sorted, the
    records are in the order of their generated positions. *)
Theorem pushed_positions_one_based (original generated : list Z)
    (ast : list AstNode) :
  text_fits original ->
  text_fits generated ->
  Forall inside (walk ast node_groups) ->
  Forall (fun m =>
            one_based (1 + Z.of_nat (count_breaks original))
              (originalLine m) (originalColumn m) /\
            one_based (1 + Z.of_nat (count_breaks generated))
              (generatedLine m) (generatedColumn m))
    (pushed_mappings original generated ast) /\
  ordered generated_le
    (array_sort by_generated (pushed_mappings original generated ast)).
Proof.
  intros Ho Hg Hin.
  assert (Hall : Forall (fun m =>
            one_based (1 + Z.of_nat (count_breaks original))
              (originalLine m) (originalColumn m) /\
            one_based (1 + Z.of_nat (count_breaks generated))
              (generatedLine m) (generatedColumn m))
    (pushed_mappings original generated ast)).
  { unfold pushed_mappings. cbv zeta.
    induction Hin as [|group groups Hgroup _ IH]; [constructor|].
    simpl. apply Forall_app. split; [|exact IH].
    by apply group_mappings_one_based. }
  split; [exact Hall|].
  apply array_sort_ordered.
  eapply Forall_impl; [exact Hall|].
  intros m [_ [_ (c & Hc & _)]]. by exists c.
Qed.

Lemma pushed_positions_one_based_witness :
  text_fits moved_text /\ text_fits moved_output /\
  Forall inside (walk moved_ast node_groups) /\
  Forall (fun m =>
            one_based (1 + Z.of_nat (count_breaks moved_text))
              (originalLine m) (originalColumn m) /\
            one_based (1 + Z.of_nat (count_breaks moved_output))
              (generatedLine m) (generatedColumn m))
    (pushed_mappings moved_text moved_output moved_ast) /\
  ordered generated_le
    (array_sort by_generated (pushed_mappings moved_text moved_output moved_ast)).
Proof.
  assert (Ho : text_fits moved_text) by (unfold text_fits; vm_compute; reflexivity).
  assert (Hg : text_fits moved_output) by (unfold text_fits; vm_compute; reflexivity).
  assert (Hin : Forall inside (walk moved_ast node_groups))
    by (repeat constructor; simpl; lia).
  split; [exact Ho|]. split; [exact Hg|]. split; [exact Hin|].
  exact (pushed_positions_one_based moved_text moved_output moved_ast Ho Hg Hin).
Defined.

(** * Further properties of the translation map and of the older map *)

Lemma translation_lookup (original generated : list Z) (node : AstNode)
    (name : string) :
  createTranslationMap original generated node !! name
  = (fun offsets : Offsets =>
       (find (createLineTable original) (fst (src offsets)),
        find (createLineTable original) (snd (src offsets)),
        match dst offsets with
        | Some d => Some (find (createLineTable generated) (fst d))
        | None => None
        end,
        match dst offsets with
        | Some d => Some (find (createLineTable generated) (snd d))
        | None => None
        end))
    <$> node_offsets node !! name.
Proof.
  unfold createTranslationMap.
  rewrite <- (fold_insert_fmap _ (node_offsets node) name).
  reflexivity.
Qed.

(** X12: the translation map and the source map tell the same story:
    for every field of a node, the two records that [createSourceMap]
    pushes for it join the entry's original start with its generated
    start and its original end with its generated end; a field without
    a generated range, or without an entry, pushes nothing. *)
Theorem translation_agrees_with_source_map (original generated : list Z)
    (node : AstNode) (name : string) :
  group_mappings (createLineTable original) (createLineTable generated)
    (node_offsets node !! name)
  = match createTranslationMap original generated node !! name with
    | Some (originalStart, originalEnd, Some generatedStart, Some generatedEnd) =>
        [mapping_of originalStart generatedStart;
         mapping_of originalEnd generatedEnd]
    | _ => []
    end.
Proof.
  rewrite translation_lookup, group_mappings_spec.
  destruct (node_offsets node !! name) as [[[s0 s1] [[d0 d1]|]]|]; done.
Qed.

Lemma set_add_groups (originalMap generatedMap : LineTable)
    (groups acc : list (option Offsets)) :
  flat_map (Legacy.group_mappings originalMap generatedMap)
    (fold_left Legacy.set_add groups acc)
  = flat_map (Legacy.group_mappings originalMap generatedMap) acc
    ++ flat_map (Legacy.group_mappings originalMap generatedMap) groups.
Proof.
  revert acc. induction groups as [|group groups IH]; intros acc; simpl.
  - by rewrite app_nil_r.
  - rewrite IH. destruct group as [group|]; simpl.
    + rewrite flat_map_app. simpl. by rewrite app_nil_r, <- app_assoc.
    + destruct (existsb _ acc); [done|].
      rewrite flat_map_app. simpl. by rewrite app_nil_r.
Qed.

Lemma legacy_pairs_group (originalTable generatedTable : LineTable)
    (group : option Offsets) (rest : list DecodedMapping) :
  legacy_pairs (group_mappings originalTable generatedTable group ++ rest)
  = Legacy.group_mappings originalTable generatedTable group
    ++ legacy_pairs rest.
Proof.
  destruct group as [[s [d|]]|]; try done.
  simpl. unfold original_position, generated_position, mapping_of. simpl.
  by repeat (f_equal; try by destruct (find _ _)).
Qed.

(** X13: when the ranges of the groups reached are pairwise different
    (so that no offsets object is reached twice and the [Set] of the
    older function holds each of them), the older [createSourceMap]
    returns the positions that the newer one pushes, for the same
    groups in the same order, but paired the other way: where the
    newer pushes (original start, generated start) and (original end,
    generated end), the older returns (original start, original end)
    and (generated start, generated end). *)
Theorem legacy_returns_same_positions (original generated : list Z)
    (ast : list AstNode) :
  NoDup (omap id (walk ast node_groups)) ->
  Legacy.createSourceMap original generated ast
  = legacy_pairs (pushed_mappings original generated ast).
Proof.
  intros _.
  unfold Legacy.createSourceMap, pushed_mappings. cbv zeta.
  rewrite set_add_groups. simpl.
  change (computeLineTable original) with (createLineTable original).
  change (computeLineTable generated) with (createLineTable generated).
  induction (walk ast node_groups) as [|group groups IH]; [done|].
  simpl. by rewrite legacy_pairs_group, IH.
Qed.

Lemma legacy_returns_same_positions_witness :
  NoDup (omap id (walk moved_ast node_groups)) /\
  Legacy.createSourceMap moved_text moved_output moved_ast
  = legacy_pairs (pushed_mappings moved_text moved_output moved_ast).
Proof.
  assert (Hdup : NoDup (omap id (walk moved_ast node_groups))).
  { vm_compute. constructor; [apply not_elem_of_nil | constructor]. }
  split; [exact Hdup|].
  exact (legacy_returns_same_positions moved_text moved_output moved_ast Hdup).
Defined.
